(** * Survey engine: the turn cycle of [SurveyEngine] and its properties

    A shallow embedding of [app/core/survey_engine.py] (class [SurveyEngine])
    and of the fallback branch of [LLMAgent.survey_step] in
    [app/core/agent.py].  Python dictionaries used as maps become [gmap]s,
    JSON values coming back from the model become [pyval]s, exceptions
    become the [Raise] branch of a small error monad, and the database is
    a map from session ids to session states. *)

From Stdlib Require Import Ascii String ZArith QArith Sorted.
From stdpp Require Import gmap strings list fin_maps.

Local Open Scope string_scope.
Set Warnings "-register-all".
Set Default Proof Using "Type".

(** ** Python values *)

(** What [json.loads] can return, and what the engine stores as answers. *)
Inductive pyval : Type :=
| PNone
| PBool (b : bool)
| PInt (z : Z)
| PFloat (q : Q)
| PStr (s : string)
| PList (items : list pyval)
| PDict (fields : list (string * pyval)).

(** [bool(v)]: the truth value Python gives to [v] in [if], [not] and [or]. *)
Definition py_truthy (v : pyval) : bool :=
  match v with
  | PNone => false
  | PBool b => b
  | PInt z => negb (Z.eqb z 0)
  | PFloat q => negb (Qeq_bool q 0)
  | PStr s => negb (String.eqb s "")
  | PList items => match items with [] => false | _ => true end
  | PDict fields => match fields with [] => false | _ => true end
  end.

(** [a or b] returns [a] when it is truthy and [b] otherwise. *)
Definition py_or (a b : pyval) : pyval := if py_truthy a then a else b.

(** [v == s] for a string [s]: only an equal string compares equal. *)
Definition py_eq_str (v : pyval) (s : string) : bool :=
  match v with
  | PStr t => String.eqb t s
  | _ => false
  end.

(** [v in l] for a list [l] of strings (list membership uses [==]). *)
Definition py_in (v : pyval) (l : list string) : bool :=
  existsb (py_eq_str v) l.

(** Lookup in the field list of a dict literal. *)
Fixpoint assoc (key : string) (fields : list (string * pyval)) : option pyval :=
  match fields with
  | [] => None
  | (k, v) :: rest => if String.eqb k key then Some v else assoc key rest
  end.

(** [d.get(key, dflt)] on a dict. *)
Definition dict_get (fields : list (string * pyval)) (key : string) (dflt : pyval) : pyval :=
  match assoc key fields with
  | Some v => v
  | None => dflt
  end.

(** Exceptions the turn cycle can raise. *)
Inductive pyerr : Type := KeyError | AttributeError.

Inductive exc (A : Type) : Type :=
| Ret (a : A)
| Raise (e : pyerr).
Arguments Ret {A} a.
Arguments Raise {A} e.

Definition exc_bind {A B : Type} (m : exc A) (k : A → exc B) : exc B :=
  match m with
  | Ret a => k a
  | Raise e => Raise e
  end.

Notation "x <- m ;; k" := (exc_bind m (fun x => k))
  (at level 100, m at next level, right associativity,
   format "'[v' x  <-  m  ;;  '/' k ']'").

(** [v.get(key)] as an attribute call on an arbitrary value: only a dict has
    the method, everything else raises [AttributeError]. *)
Definition py_call_get (v : pyval) (key : string) : exc pyval :=
  match v with
  | PDict fields => Ret (dict_get fields key PNone)
  | _ => Raise AttributeError
  end.

(** [v.get(key) if isinstance(v, dict) else None]. *)
Definition py_guarded_get (v : pyval) (key : string) : pyval :=
  match v with
  | PDict fields => dict_get fields key PNone
  | _ => PNone
  end.

(** ** Strings: [str.strip] and [str.split(",")]

    A Python [str] is a sequence of Unicode code points.  It is held here
    as its UTF-8 encoding, one byte per [ascii].  Equality, emptiness,
    membership in a list of strings and [split(",")] read the same on the
    encoding (the byte of the comma occurs in no longer sequence);
    [strip] removes white-space characters, which are recognised by their
    encodings. *)

(** The bytes of a string, and back. *)
Fixpoint chars (s : string) : list ascii :=
  match s with
  | EmptyString => []
  | String c rest => c :: chars rest
  end.

Fixpoint unchars (l : list ascii) : string :=
  match l with
  | [] => EmptyString
  | c :: rest => String c (unchars rest)
  end.

(** The code points for which [str.isspace] holds, which are the ones
    [str.strip] removes: the ASCII controls 9-13 and 28-31, the space,
    U+0085, U+00A0, U+1680, U+2000 to U+200A, U+2028, U+2029, U+202F,
    U+205F and U+3000. *)
Definition WHITESPACE_CODE_POINTS : list N :=
  [9; 10; 11; 12; 13; 28; 29; 30; 31; 32; 133; 160; 5760;
   8192; 8193; 8194; 8195; 8196; 8197; 8198; 8199; 8200; 8201; 8202;
   8232; 8233; 8239; 8287; 12288]%N.

(** UTF-8 of a code point below U+10000: one, two or three bytes. *)
Definition utf8 (c : N) : list ascii :=
  if (c <? 128)%N then [ascii_of_N c]
  else if (c <? 2048)%N then
    [ascii_of_N (192 + c / 64); ascii_of_N (128 + c mod 64)]
  else
    [ascii_of_N (224 + c / 4096); ascii_of_N (128 + (c / 64) mod 64);
     ascii_of_N (128 + c mod 64)].

(** The white-space characters, encoded. *)
Definition WHITESPACE : list (list ascii) :=
  Eval vm_compute in utf8 <$> WHITESPACE_CODE_POINTS.

(** [lstrip]: while the string starts with a white-space character, drop
    it.  Each round drops at least one byte, so [fuel] rounds are enough
    for a string of [fuel] bytes. *)
Fixpoint lstrip (fuel : nat) (s : list ascii) : list ascii :=
  match fuel with
  | 0 => s
  | S fuel =>
      match list_find (fun w => w `prefix_of` s) WHITESPACE with
      | Some (_, w) => lstrip fuel (drop (length w) s)
      | None => s
      end
  end.

(** [rstrip]: the same at the end of the string. *)
Fixpoint rstrip (fuel : nat) (s : list ascii) : list ascii :=
  match fuel with
  | 0 => s
  | S fuel =>
      match list_find (fun w => w `suffix_of` s) WHITESPACE with
      | Some (_, w) => rstrip fuel (take (length s - length w) s)
      | None => s
      end
  end.

(** [s.strip()] *)
Definition strip (s : string) : string :=
  let b := lstrip (length (chars s)) (chars s) in
  unchars (rstrip (length b) b).

(** [s.split(",")] *)
Fixpoint split_comma (s : string) : list string :=
  match s with
  | EmptyString => [EmptyString]
  | String c rest =>
      if Ascii.eqb c "," then EmptyString :: split_comma rest
      else match split_comma rest with
           | piece :: pieces => String c piece :: pieces
           | [] => [String c EmptyString]
           end
  end.

(** [[v.strip() for v in s.split(",") if v.strip()]] *)
Definition comma_tokens (s : string) : list string :=
  omap (fun v => if String.eqb (strip v) "" then None else Some (strip v))
       (split_comma s).

(** ** Data model *)

Inductive question_type : Type :=
| single_choice | multi_choice | likert_5 | free_text.

Record condition : Type := {
  cond_var : string;
  cond_equals : string;
}.

Record question : Type := {
  q_id : string;
  q_type : question_type;
  q_text : string;
  q_options : list string;
  q_condition : option condition;
  q_save_as : option string;
}.

Record definition : Type := {
  intro : string;
  questions : list question;
  end_message : option string;
  off_topic_message : option string;
  moderate_answers : bool;
}.

Inductive status : Type := unasked | asked | answered | skipped.

Inductive role : Type := assistant | user.

Record entry : Type := {
  e_role : role;
  e_content : pyval;
  e_question_id : option string;
}.

Record state : Type := {
  session_id : string;
  survey_id : string;
  answers : gmap string pyval;
  question_status : gmap string status;
  current_question_id : option string;
  history : list entry;
  terminated : bool;
}.

(** What the Interpretation Port receives: the state without [terminated]. *)
Record llm_state : Type := {
  l_session_id : string;
  l_survey_id : string;
  l_answers : gmap string pyval;
  l_question_status : gmap string status;
  l_current_question_id : option string;
  l_history : list entry;
}.

(** The collaborators behind [self.agent]. *)
Record agent : Type := {
  review_answer : string → list entry → bool;
  survey_step : llm_state → definition → string → pyval;
}.

(** The dict a call returns to its caller. *)
Record result : Type := {
  r_session_id : string;
  r_interview_id : option string;
  r_message : pyval;
}.

#[global] Instance status_eq_dec : EqDecision status.
Proof. solve_decision. Defined.

Definition with_question_status (s : state) (qs : gmap string status) : state :=
  {| session_id := session_id s; survey_id := survey_id s; answers := answers s;
     question_status := qs; current_question_id := current_question_id s;
     history := history s; terminated := terminated s |}.

Definition with_answers (s : state) (a : gmap string pyval) : state :=
  {| session_id := session_id s; survey_id := survey_id s; answers := a;
     question_status := question_status s;
     current_question_id := current_question_id s;
     history := history s; terminated := terminated s |}.

Definition with_current (s : state) (c : option string) : state :=
  {| session_id := session_id s; survey_id := survey_id s; answers := answers s;
     question_status := question_status s; current_question_id := c;
     history := history s; terminated := terminated s |}.

Definition with_history (s : state) (h : list entry) : state :=
  {| session_id := session_id s; survey_id := survey_id s; answers := answers s;
     question_status := question_status s;
     current_question_id := current_question_id s;
     history := h; terminated := terminated s |}.

Definition with_terminated (s : state) (t : bool) : state :=
  {| session_id := session_id s; survey_id := survey_id s; answers := answers s;
     question_status := question_status s;
     current_question_id := current_question_id s;
     history := history s; terminated := t |}.

(** [survey_definition.get("end_message", "Survey complete.")] *)
Definition end_message_of (d : definition) : string :=
  default "Survey complete." (end_message d).

Definition off_topic_message_of (d : definition) : string :=
  default "Please respond to the current survey question or let me know if you'd like to skip."
          (off_topic_message d).

(** ** The engine *)

Definition _initial_state (sid svid : string) (d : definition) : state :=
  {| session_id := sid; survey_id := svid; answers := ∅;
     question_status :=
       foldl (fun m q => <[q_id q := unasked]> m) ∅ (questions d);
     current_question_id := None; history := []; terminated := false |}.

(** The database collaborator: a key-value store keyed by session id. *)
Definition _load_state (db : gmap string state) (sid : string) : option state :=
  db !! sid.

Definition _save_state (db : gmap string state) (s : state) : gmap string state :=
  <[session_id s := s]> db.

Definition _append_history (s : state) (r : role) (content : pyval)
    (qid : option string) : state :=
  with_history s
    (history s ++ [{| e_role := r; e_content := content; e_question_id := qid |}]).

(** A dict comprehension: a later question with the same id replaces an
    earlier one. *)
Definition _get_question_map (d : definition) : gmap string question :=
  foldl (fun m q => <[q_id q := q]> m) ∅ (questions d).

Definition _is_condition_met (q : question) (ans : gmap string pyval) : bool :=
  match q_condition q with
  | None => true
  | Some c =>
      match ans !! cond_var c with
      | None => false
      | Some PNone => false
      | Some (PList items) => existsb (fun x => py_eq_str x (cond_equals c)) items
      | Some stored => py_eq_str stored (cond_equals c)
      end
  end.

(** One iteration of the loop of [_mark_conditionally_skipped]. *)
Definition mark_entry (qmap : gmap string question) (ans : gmap string pyval)
    (qid : string) (st : status) : option status :=
  match st with
  | unasked =>
      match qmap !! qid with
      | None => Some st
      | Some q => if _is_condition_met q ans then Some st else Some skipped
      end
  | _ => Some st
  end.

(** The loop visits every key of [question_status] once and only rewrites
    the key it visits, so it is a map over the entries. *)
Definition _mark_conditionally_skipped (s : state) (d : definition) : state :=
  with_question_status s
    (map_imap (mark_entry (_get_question_map d) (answers s)) (question_status s)).

(** [status in {"answered", "skipped"}] for [status = question_status.get(id)]. *)
Definition status_closed (o : option status) : bool :=
  match o with
  | Some answered | Some skipped => true
  | _ => false
  end.

(** [question_ids.index(x)]: the first position of [x]. *)
Fixpoint index_of (x : string) (l : list string) : option nat :=
  match l with
  | [] => None
  | y :: rest => if String.eqb y x then Some 0 else S <$> index_of x rest
  end.

(** The [for] loop of [_deterministic_next_question]. *)
Fixpoint scan_next (ans : gmap string pyval) (qs : list question)
    (st : gmap string status) : option string * gmap string status :=
  match qs with
  | [] => (None, st)
  | q :: rest =>
      if status_closed (st !! q_id q) then scan_next ans rest st
      else if negb (_is_condition_met q ans)
           then scan_next ans rest (<[q_id q := skipped]> st)
           else (Some (q_id q), st)
  end.

(** [questions[current_idx + 1:]] starts at this position. *)
Definition scan_start (s : state) (d : definition) : nat :=
  match current_question_id s with
  | None => 0
  | Some c =>
      match index_of c (fmap q_id (questions d)) with
      | Some i => S i
      | None => 0
      end
  end.

Definition _deterministic_next_question (s : state) (d : definition)
    : option string * state :=
  let start := scan_start s d in
  let s := _mark_conditionally_skipped s d in
  let '(found, st) := scan_next (answers s) (drop start (questions d))
                                (question_status s) in
  (found, with_question_status s st).

(** The [for] loop of [_eligible_questions]. *)
Fixpoint scan_eligible (ans : gmap string pyval) (qs : list question)
    (st : gmap string status) : list question * gmap string status :=
  match qs with
  | [] => ([], st)
  | q :: rest =>
      if status_closed (st !! q_id q) then scan_eligible ans rest st
      else if negb (_is_condition_met q ans)
           then scan_eligible ans rest (<[q_id q := skipped]> st)
           else let '(more, st') := scan_eligible ans rest st in (q :: more, st')
  end.

Definition _eligible_questions (s : state) (d : definition)
    : list question * state :=
  let s := _mark_conditionally_skipped s d in
  let '(eligible, st) := scan_eligible (answers s) (questions d)
                                       (question_status s) in
  (eligible, with_question_status s st).

Definition newline : string := String (ascii_of_nat 10) EmptyString.

Definition _render_intro_and_question (d : definition) (q : question) : string :=
  strip (intro d) ++ newline ++ newline ++ q_text q.

(** Returns [(stored_value, valid, needs_clarification)]. *)
Definition _normalize_answer (q : question) (parsed_value : pyval)
    : pyval * bool * bool :=
  if py_eq_str parsed_value "SKIP" then (PStr "SKIP", true, false)
  else match q_type q with
  | free_text =>
      match parsed_value with
      | PStr _ => (parsed_value, true, false)
      | _ => (PStr "", false, true)
      end
  | multi_choice =>
      let parsed_value :=
        match parsed_value with
        | PStr s => PList (fmap PStr (comma_tokens s))
        | _ => parsed_value
        end in
      match parsed_value with
      | PList items =>
          if forallb (fun opt => py_in opt (q_options q)) items
          then (parsed_value, true, false)
          else (PList [], false, true)
      | _ => (PList [], false, true)
      end
  | _ =>
      match parsed_value with
      | PStr _ =>
          if py_in parsed_value (q_options q) then (parsed_value, true, false)
          else (PStr "", false, true)
      | _ => (PStr "", false, true)
      end
  end.

Definition _store_answer (s : state) (q : question) (normalized_value : pyval)
    : state :=
  let save_as := default (q_id q) (q_save_as q) in
  let s := with_answers s (<[save_as := normalized_value]> (answers s)) in
  let st := if py_eq_str normalized_value "SKIP" then skipped else answered in
  with_question_status s (<[q_id q := st]> (question_status s)).

(** Truth value of an [Optional[str]]: [None] and the empty string are falsy. *)
Definition id_truthy (o : option string) : bool :=
  match o with
  | Some i => negb (String.eqb i "")
  | None => false
  end.

Definition begin_session (surveys : gmap string definition)
    (db : gmap string state) (sid svid : string)
    : exc (gmap string state * result) :=
  match surveys !! svid with
  | None => Raise KeyError
  | Some d =>
      let state := _initial_state sid svid d in
      let '(next_question_id, state) := _deterministic_next_question state d in
      if negb (id_truthy next_question_id) then
        let state := with_terminated state true in
        let message := PStr (end_message_of d) in
        let state := _append_history state assistant message None in
        Ret (_save_state db state,
             {| r_session_id := sid; r_interview_id := Some svid;
                r_message := message |})
      else
        match next_question_id with
        | None => Raise KeyError
        | Some nid =>
        match _get_question_map d !! nid with
        | None => Raise KeyError
        | Some q =>
            let state := with_current state (Some nid) in
            let state := with_question_status state
                           (<[nid := asked]> (question_status state)) in
            let message := PStr (_render_intro_and_question d q) in
            let state := _append_history state assistant message (Some nid) in
            Ret (_save_state db state,
                 {| r_session_id := sid; r_interview_id := Some svid;
                    r_message := message |})
        end end
  end.

Definition _moderate_answer (ag : agent) (d : definition)
    (message : option string) (hist : list entry) : bool :=
  match message with
  | None => true
  | Some m => if negb (moderate_answers d) then true else review_answer ag m hist
  end.

Definition _handle_clarification (db : gmap string state) (s : state)
    (qid : string) (clarification_text : pyval) : gmap string state * result :=
  let s := _append_history s assistant clarification_text (Some qid) in
  (_save_state db s,
   {| r_session_id := session_id s; r_interview_id := None;
      r_message := clarification_text |}).

Definition _off_topic_response (db : gmap string state) (s : state)
    (d : definition) : gmap string state * result :=
  let reminder := PStr (off_topic_message_of d) in
  let s := _append_history s assistant reminder (current_question_id s) in
  (_save_state db s,
   {| r_session_id := session_id s; r_interview_id := None;
      r_message := reminder |}).

(** [deepcopy(state)] followed by [pop("terminated", None)], as a value. *)
Definition llm_view (s : state) : llm_state :=
  {| l_session_id := session_id s; l_survey_id := survey_id s;
     l_answers := answers s; l_question_status := question_status s;
     l_current_question_id := current_question_id s;
     l_history := history s |}.

(** [user_message or ""] *)
Definition message_text (user_message : option string) : string :=
  default "" user_message.

(** The value of [next_question_id] after the membership test: the port's
    proposal when it is in [allowed] (it is then a string), the policy's
    candidate otherwise. *)
Definition choose_next (proposal : pyval) (allowed : list string)
    (deterministic_next : option string) : option string :=
  if py_in proposal allowed then
    match proposal with
    | PStr i => Some i
    | _ => None
    end
  else deterministic_next.

Definition next_step (surveys : gmap string definition) (ag : agent)
    (db : gmap string state) (sid svid : string) (user_message : option string)
    : exc (gmap string state * result) :=
  match surveys !! svid with
  | None => Raise KeyError
  | Some d =>
  match _load_state db sid with
  | None => begin_session surveys db sid svid
  | Some state =>
  if terminated state then
    Ret (db, {| r_session_id := sid; r_interview_id := None;
                r_message := PStr (end_message_of d) |})
  else
  let state := _mark_conditionally_skipped state d in
  if negb (_moderate_answer ag d user_message (history state)) then
    Ret (_off_topic_response db state d)
  else
  let question_map := _get_question_map d in
  match current_question_id state ≫= (fun i => question_map !! i) with
  | None =>
      let state := with_terminated state true in
      let message := PStr (end_message_of d) in
      let state := _append_history state assistant message None in
      Ret (_save_state db state,
           {| r_session_id := sid; r_interview_id := None; r_message := message |})
  | Some current_question =>
  let state := _append_history state user (PStr (message_text user_message))
                 (Some (q_id current_question)) in
  let response := survey_step ag (llm_view state) d (message_text user_message) in
  let parsed_answer :=
    match response with
    | PDict fields => dict_get fields "parsed_answer" (PDict [])
    | _ => PDict []
    end in
  parsed_value <- py_call_get parsed_answer "value" ;;
  let '(normalized_value, valid, needs_clarification) :=
    _normalize_answer current_question parsed_value in
  flag <- py_call_get response "need_clarification" ;;
  let need_clarification := py_or flag (PBool needs_clarification) in
  let need_clarification :=
    if negb valid && negb (py_truthy need_clarification) then PBool true
    else need_clarification in
  if py_truthy need_clarification then
    text <- py_call_get response "clarification_question" ;;
    let clarification_text := py_or text (PStr (q_text current_question)) in
    Ret (_handle_clarification db state (q_id current_question) clarification_text)
  else
  (* [parsed_answer["question_id"] = current_question["id"]] rewrites a
     field of the response that is not read again. *)
  let state := _store_answer state current_question normalized_value in
  let proposal := py_guarded_get response "next_question_id" in
  let '(eligible, state) := _eligible_questions state d in
  let allowed_questions := fmap q_id eligible in
  let '(deterministic_next, state) := _deterministic_next_question state d in
  let next_question_id := choose_next proposal allowed_questions deterministic_next in
  if negb (id_truthy next_question_id) then
    let state := with_terminated state true in
    let message := PStr (end_message_of d) in
    let state := _append_history state assistant message None in
    Ret (_save_state db state,
         {| r_session_id := sid; r_interview_id := None; r_message := message |})
  else
  match next_question_id with
  | None => Raise KeyError
  | Some nid =>
  let state := with_current state (Some nid) in
  let state := with_question_status state
                 (<[nid := asked]> (question_status state)) in
  match question_map !! nid with
  | None => Raise KeyError
  | Some next_question =>
  let assistant_question_text :=
    py_or (py_guarded_get response "assistant_question_text")
          (PStr (q_text next_question)) in
  let state := _append_history state assistant assistant_question_text (Some nid) in
  Ret (_save_state db state,
       {| r_session_id := sid; r_interview_id := None;
          r_message := assistant_question_text |})
  end end end end end.

Definition describe_state (db : gmap string state) (sid : string) : option state :=
  _load_state db sid.

(** ** The Interpretation Port of [LLMAgent.survey_step] *)

(** The dict built in the [except] branch when the completion cannot be
    read or parsed. *)
Definition survey_step_fallback (st : llm_state) (d : definition) : pyval :=
  let question_map := _get_question_map d in
  let current_question := l_current_question_id st ≫= (fun i => question_map !! i) in
  let current_question_text :=
    match current_question with
    | Some q => q_text q
    | None => ""
    end in
  let current_id :=
    match l_current_question_id st with
    | Some i => PStr i
    | None => PNone
    end in
  PDict [
    ("parsed_answer",
     PDict [("question_id", current_id); ("value", PStr "SKIP");
            ("confidence", PInt 0); ("notes", PStr "fallback")]);
    ("need_clarification", PBool true);
    ("clarification_question",
     py_or (PStr current_question_text) (PStr "Could you clarify your answer?"));
    ("next_question_id", current_id);
    ("assistant_question_text", py_or (PStr current_question_text) (PStr ""));
    ("reasoning_brief", PStr "fallback")
  ].

(** [completion] stands for the chat completion followed by [json.loads]:
    [Some v] when the content parses to [v], [None] when reading or parsing
    it raises. *)
Definition llm_survey_step
    (completion : llm_state → definition → string → option pyval)
    (st : llm_state) (d : definition) (last_user_message : string) : pyval :=
  match completion st d last_user_message with
  | Some v => v
  | None => survey_step_fallback st d
  end.

(** ** The survey shipped in [app/surveys.py] *)

Definition mkq (i : string) (t : question_type) (text : string)
    (opts : list string) (c : option condition) (save : string) : question :=
  {| q_id := i; q_type := t; q_text := text; q_options := opts;
     q_condition := c; q_save_as := Some save |}.

Definition Q1 : question :=
  mkq "Q1" single_choice
    "In the past year, have you been discriminated against for any aspect of your identity?"
    ["Yes"; "No"; "Prefer not to say"] None "q1".

Definition Q2 : question :=
  mkq "Q2" multi_choice
    "If you have been discriminated against, please select the source of the discrimination."
    ["Manager"; "Colleague"; "Customer/Client"; "Policy/Process"; "Other"; "Prefer not to say"]
    (Some {| cond_var := "q1"; cond_equals := "Yes" |}) "q2".

Definition Q3 : question :=
  mkq "Q3" single_choice
    "In the past year, have you witnessed discrimination against anyone else in the organisation?"
    ["Yes"; "No"; "Not sure"] None "q3".

Definition Q4 : question :=
  mkq "Q4" multi_choice
    "If you have witnessed discrimination, please select the source of the discrimination."
    ["Manager"; "Colleague"; "Customer/Client"; "Policy/Process"; "Other"; "Not sure"; "Prefer not to say"]
    (Some {| cond_var := "q3"; cond_equals := "Yes" |}) "q4".

Definition Q5 : question :=
  mkq "Q5" likert_5
    "This company takes active steps to prevent discrimination in the workplace."
    ["Strongly agree"; "Agree"; "Neither agree nor disagree"; "Disagree"; "Strongly disagree"]
    None "q5".

Definition Q6 : question :=
  mkq "Q6" single_choice
    "Do you feel comfortable addressing issues of discrimination or bias, regardless of your position or seniority?"
    ["Yes"; "No"] None "q6".

Definition Q7 : question :=
  mkq "Q7" free_text
    "Have we missed any social / cultural / demographic causes of discrimination you believe are important? If so, please let us know what they are."
    [] None "q7".

Definition CULTURE_DISCRIMINATION : definition :=
  {| intro := "Thanks for taking a few minutes. There are no right or wrong answers, and you can skip any question.";
     questions := [Q1; Q2; Q3; Q4; Q5; Q6; Q7];
     end_message := Some "The survey is complete. Please proceed to the next page.---END---";
     off_topic_message := Some "Let's stick with the current survey question. Could you answer the question directly or say if you'd like to skip it?";
     moderate_answers := false |}.

Definition SURVEYS : gmap string definition :=
  {[ "CULTURE_DISCRIMINATION" := CULTURE_DISCRIMINATION ]}.

(** ** Runs *)

(** What the database holds after a call: a call that raises saves nothing. *)
Definition persisted {A : Type} (db : gmap string state)
    (r : exc (gmap string state * A)) : gmap string state :=
  match r with
  | Ret (db', _) => db'
  | Raise _ => db
  end.

(** An agent whose port answers [response] whatever it is given. *)
Definition scripted (review : string → list entry → bool) (response : pyval) : agent :=
  {| review_answer := review; survey_step := fun _ _ _ => response |}.

Inductive call : Type :=
| CallBegin (sid svid : string)
| CallNext (sid svid : string) (user_message : option string) (ag : agent).

Definition exec_call (surveys : gmap string definition)
    (db : gmap string state) (c : call) : gmap string state :=
  match c with
  | CallBegin sid svid => persisted db (begin_session surveys db sid svid)
  | CallNext sid svid m ag => persisted db (next_step surveys ag db sid svid m)
  end.

Definition exec_calls (surveys : gmap string definition)
    (db : gmap string state) (cs : list call) : gmap string state :=
  foldl (exec_call surveys) db cs.

(** One turn of a session: the user's message and the port's response. *)
Definition turn : Type := option string * pyval.

Definition exec_turn (surveys : gmap string definition)
    (review : string → list entry → bool) (sid svid : string)
    (db : gmap string state) (t : turn) : gmap string state :=
  persisted db (next_step surveys (scripted review t.2) db sid svid t.1).

Definition status_in (o : option state) (qid : string) : option status :=
  o ≫= (fun s => question_status s !! qid).

(** The question ids, in definition order, whose status is [asked] in [new]
    and was not in [old]. *)
Definition newly_asked (d : definition) (old new : option state) : list string :=
  filter (fun qid => status_in new qid = Some asked ∧ status_in old qid ≠ Some asked)
         (fmap q_id (questions d)).

(** The ids that become [asked], in the order they do, along a sequence of
    [next_step] calls of one session. *)
Fixpoint asked_sequence (surveys : gmap string definition)
    (review : string → list entry → bool) (d : definition) (sid svid : string)
    (db : gmap string state) (turns : list turn) : list string :=
  match turns with
  | [] => []
  | t :: rest =>
      let db' := exec_turn surveys review sid svid db t in
      newly_asked d (db !! sid) (db' !! sid)
      ++ asked_sequence surveys review d sid svid db' rest
  end.

(** ** The two halves of a turn

    [interpret] is the block of [next_step] that reads the port's response
    (from [parsed_answer = ...] to the clarification test): it yields the
    clarification text when the turn must clarify, the normalized value
    when the answer is accepted.  [advance] is the block that follows
    ([_store_answer] to the final [return]).  [next_step_unfold] below
    shows that [next_step] is their composition. *)

Definition interpret (q : question) (response : pyval) : exc (pyval + pyval) :=
  let parsed_answer :=
    match response with
    | PDict fields => dict_get fields "parsed_answer" (PDict [])
    | _ => PDict []
    end in
  parsed_value <- py_call_get parsed_answer "value" ;;
  let '(normalized_value, valid, needs_clarification) :=
    _normalize_answer q parsed_value in
  flag <- py_call_get response "need_clarification" ;;
  let need_clarification := py_or flag (PBool needs_clarification) in
  let need_clarification :=
    if negb valid && negb (py_truthy need_clarification) then PBool true
    else need_clarification in
  if py_truthy need_clarification then
    text <- py_call_get response "clarification_question" ;;
    Ret (inl (py_or text (PStr (q_text q))))
  else Ret (inr normalized_value).

(** What [advance] has in hand when it picks the next question: the ids of
    [_eligible_questions], the candidate of [_deterministic_next_question],
    and the state both have gone through. *)
Definition candidates (s : state) (d : definition)
    : list string * option string * state :=
  let '(eligible, s) := _eligible_questions s d in
  let '(deterministic_next, s) := _deterministic_next_question s d in
  (fmap q_id eligible, deterministic_next, s).

Definition advance (d : definition) (db : gmap string state) (sid : string)
    (s : state) (current_question : question) (normalized_value : pyval)
    (response : pyval) : exc (gmap string state * result) :=
  let state := _store_answer s current_question normalized_value in
  let proposal := py_guarded_get response "next_question_id" in
  let '(allowed_questions, deterministic_next, state) := candidates state d in
  let next_question_id := choose_next proposal allowed_questions deterministic_next in
  if negb (id_truthy next_question_id) then
    let state := with_terminated state true in
    let message := PStr (end_message_of d) in
    let state := _append_history state assistant message None in
    Ret (_save_state db state,
         {| r_session_id := sid; r_interview_id := None; r_message := message |})
  else
  match next_question_id with
  | None => Raise KeyError
  | Some nid =>
  let state := with_current state (Some nid) in
  let state := with_question_status state
                 (<[nid := asked]> (question_status state)) in
  match _get_question_map d !! nid with
  | None => Raise KeyError
  | Some next_question =>
  let assistant_question_text :=
    py_or (py_guarded_get response "assistant_question_text")
          (PStr (q_text next_question)) in
  let state := _append_history state assistant assistant_question_text (Some nid) in
  Ret (_save_state db state,
       {| r_session_id := sid; r_interview_id := None;
          r_message := assistant_question_text |})
  end end.

(** The part of a turn that precedes the port call. *)
Inductive gate : Type :=
| GateReplay                       (* already terminated *)
| GateOffTopic (s : state)         (* moderation rejected the message *)
| GateLost (s : state)             (* no current question in the definition *)
| GateAsk (s : state) (q : question). (* the port is consulted about [q] *)

Definition turn_gate (ag : agent) (d : definition) (s : state)
    (user_message : option string) : gate :=
  if terminated s then GateReplay
  else
    let s := _mark_conditionally_skipped s d in
    if negb (_moderate_answer ag d user_message (history s)) then GateOffTopic s
    else match current_question_id s ≫= (fun i => _get_question_map d !! i) with
         | None => GateLost s
         | Some q =>
             GateAsk (_append_history s user (PStr (message_text user_message))
                                      (Some (q_id q))) q
         end.

(** Skip marking is up to date: no [unasked] question has a failing
    condition. *)
Definition settled (d : definition) (s : state) : Prop :=
  ∀ i q, question_status s !! i = Some unasked →
         _get_question_map d !! i = Some q →
         _is_condition_met q (answers s) = true.

(** The question test shared by the two scans. *)
Definition open_for (ans : gmap string pyval) (st : gmap string status)
    (q : question) : bool :=
  negb (status_closed (st !! q_id q)) && _is_condition_met q ans.

Definition wf_definition (d : definition) : Prop :=
  NoDup (fmap q_id (questions d)) ∧ Forall (fun q => q_id q ≠ "") (questions d).

(** Both scans only ever write [skipped], and only over a question that is
    not closed and whose condition fails. *)
Definition only_skips (ans : gmap string pyval) (qs : list question)
    (st st' : gmap string status) : Prop :=
  ∀ i, st' !! i = st !! i
       ∨ (st' !! i = Some skipped ∧ status_closed (st !! i) = false
          ∧ ∃ q, q ∈ qs ∧ q_id q = i ∧ _is_condition_met q ans = false).

(** From [st] to [st'] the only change is that some entries that were not
    closed became [skipped]. *)
Definition grows (st st' : gmap string status) : Prop :=
  ∀ i, st' !! i = st !! i
       ∨ (st' !! i = Some skipped ∧ status_closed (st !! i) = false).

(** The fields other than [question_status] that a function leaves alone. *)
Definition same_frame (s s' : state) : Prop :=
  session_id s' = session_id s ∧ survey_id s' = survey_id s
  ∧ answers s' = answers s ∧ current_question_id s' = current_question_id s
  ∧ history s' = history s ∧ terminated s' = terminated s.

(** The state [advance] saves when it moves on to question [nid]. *)
Definition asking (s : state) (nid : string) (text : pyval) : state :=
  _append_history
    (with_question_status (with_current s (Some nid))
       (<[nid := asked]> (question_status s)))
    assistant text (Some nid).

(** The state saved when a session ends. *)
Definition ending (s : state) (d : definition) : state :=
  _append_history (with_terminated s true) assistant (PStr (end_message_of d)) None.

(** ** Sample sessions of the shipped survey *)

Definition SURVEY_ID : string := "CULTURE_DISCRIMINATION".

(** A well-formed response of the port: it parses the answer as [value],
    asks for no clarification and proposes [next] as the next question. *)
Definition reply (value next : pyval) : pyval :=
  PDict [
    ("parsed_answer",
     PDict [("question_id", PNone); ("value", value);
            ("confidence", PInt 1); ("notes", PStr "")]);
    ("need_clarification", PBool false);
    ("clarification_question", PNone);
    ("next_question_id", next);
    ("assistant_question_text", PNone);
    ("reasoning_brief", PStr "")
  ].

Definition on_topic : string → list entry → bool := fun _ _ => true.
Definition off_topic : string → list entry → bool := fun _ _ => false.

(** A session that has just been opened: [Q1] is being asked. *)
Definition opened_db : gmap string state :=
  exec_calls SURVEYS ∅ [CallBegin "s1" SURVEY_ID].

(** A session taken to its end by a port that leaves the order to the
    policy. *)
Definition finished_db : gmap string state :=
  exec_calls SURVEYS ∅ [
    CallBegin "s1" SURVEY_ID;
    CallNext "s1" SURVEY_ID (Some "No") (scripted on_topic (reply (PStr "No") PNone));
    CallNext "s1" SURVEY_ID (Some "No") (scripted on_topic (reply (PStr "No") PNone));
    CallNext "s1" SURVEY_ID (Some "Agree") (scripted on_topic (reply (PStr "Agree") PNone));
    CallNext "s1" SURVEY_ID (Some "Yes") (scripted on_topic (reply (PStr "Yes") PNone));
    CallNext "s1" SURVEY_ID (Some "Nothing") (scripted on_topic (reply (PStr "Nothing") PNone))
  ].

(** [",".join(pieces)] *)
Fixpoint join_comma (pieces : list string) : string :=
  match pieces with
  | [] => ""
  | [p] => p
  | p :: rest => p ++ "," ++ join_comma rest
  end.

(** ** The multi-choice rule in the words of the specification *)

(** The list the [multi_choice] branch of [_normalize_answer] works on. *)
Definition multi_choice_items (raw : pyval) : option (list pyval) :=
  match raw with
  | PStr s => Some (fmap PStr (comma_tokens s))
  | PList items => Some items
  | _ => None
  end.

(** A string of white-space characters only. *)
Definition white (l : list ascii) : Prop :=
  ∃ ws, Forall (fun w => w ∈ WHITESPACE) ws ∧ l = concat ws.

(** No white-space character at the start, at the end, at either end. *)
Definition no_lead (t : list ascii) : Prop :=
  Forall (fun w => ¬ w `prefix_of` t) WHITESPACE.

Definition no_trail (t : list ascii) : Prop :=
  Forall (fun w => ¬ w `suffix_of` t) WHITESPACE.

Definition bare (t : list ascii) : Prop := no_lead t ∧ no_trail t.

(** [t] is [p] trimmed: [p] is [t] with white space before and after it,
    and [t] has none at either end. *)
Definition trimmed (p t : string) : Prop :=
  ∃ l r, chars p = (l ++ chars t ++ r)%list ∧ white l ∧ white r ∧ bare (chars t).

(** The pieces a string falls into when it is split on commas: joined with
    commas they give the string back, and none holds a comma. *)
Definition split_on_commas (s : string) (pieces : list string) : Prop :=
  pieces ≠ [] ∧ Forall (fun p => ","%char ∉ chars p) pieces ∧ join_comma pieces = s.

(** "Splits a string on commas into trimmed tokens": every piece,
    trimmed. *)
Definition trimmed_tokens (s : string) (tokens : list string) : Prop :=
  ∃ pieces, split_on_commas s pieces ∧ Forall2 trimmed pieces tokens.

(** The same, leaving out the tokens that are empty once trimmed. *)
Definition nonempty_trimmed_tokens (s : string) (tokens : list string) : Prop :=
  ∃ all, trimmed_tokens s all ∧ tokens = filter (fun t => t ≠ "") all.

(** "The resulting list (or an already-list raw value)", for a way
    [tokens_of] to cut a string into tokens. *)
Definition resulting_list (tokens_of : string → list string → Prop)
    (raw : pyval) (items : list pyval) : Prop :=
  match raw with
  | PStr s => ∃ tokens, tokens_of s tokens ∧ items = PStr <$> tokens
  | PList l => items = l
  | _ => False
  end.

Definition all_options (q : question) (items : list pyval) : Prop :=
  Forall (fun x => ∃ o, x = PStr o ∧ o ∈ q_options q) items.

(** "Splits a string raw value on commas into trimmed tokens, returns the
    resulting list as valid exactly when the list is non-empty-able and
    every element is one of the question's options, and on any other raw
    value returns an empty list with valid=false and clarification
    flagged", for a way to cut strings into tokens and a reading [able] of
    "non-empty-able". *)
Definition multi_choice_rule_of (tokens_of : string → list string → Prop)
    (able : list pyval → Prop) (q : question) (raw : pyval) : Prop :=
  (∀ s, raw = PStr s → ∃ tokens, tokens_of s tokens)
  ∧ (∀ items, resulting_list tokens_of raw items →
     (able items ∧ all_options q items →
      _normalize_answer q raw = (PList items, true, false))
     ∧ (¬ (able items ∧ all_options q items) →
        _normalize_answer q raw = (PList [], false, true)))
  ∧ ((∀ items, ¬ resulting_list tokens_of raw items) →
     _normalize_answer q raw = (PList [], false, true)).

(** The rule as the claim words it: every piece between two commas is a
    token. *)
Definition multi_choice_rule_as_claimed (able : list pyval → Prop)
    (q : question) (raw : pyval) : Prop :=
  multi_choice_rule_of trimmed_tokens able q raw.

(** The rule the code follows: tokens that are empty once trimmed are left
    out, and every list, the empty one too, is "non-empty-able". *)
Definition multi_choice_rule (q : question) (raw : pyval) : Prop :=
  multi_choice_rule_of nonempty_trimmed_tokens (fun _ => True) q raw.

(** ** Invariants of the database *)

(** Every state is stored under its own session id. *)
Definition keyed (db : gmap string state) : Prop :=
  ∀ sid s, db !! sid = Some s → session_id s = sid.

(** While the session runs, the current question is the one being asked. *)
Definition current_asked (s : state) : Prop :=
  terminated s = false →
  ∀ q, current_question_id s = Some q → question_status s !! q = Some asked.

(** The invariant of the specification, without the proviso on
    termination. *)
Definition current_always_asked (s : state) : Prop :=
  ∀ q, current_question_id s = Some q → question_status s !! q = Some asked.

Definition db_ok (db : gmap string state) : Prop :=
  keyed db ∧ ∀ sid s, db !! sid = Some s → current_asked s.

(** The calls of one session of one survey, each with the user's message
    and the agent that serves it. *)
Definition exec_session (surveys : gmap string definition) (sid svid : string)
    (db : gmap string state) (calls : list (option string * agent))
    : gmap string state :=
  foldl (fun db c => persisted db (next_step surveys c.2 db sid svid c.1)) db calls.

(** The message a call returns, if it returns. *)
Definition returned_message (r : exc (gmap string state * result)) : option pyval :=
  match r with
  | Ret (_, res) => Some (r_message res)
  | Raise _ => None
  end.

(** The outcome of an off-topic turn in the words of the specification: the
    reminder is appended to the transcript, tied to the current question,
    the state is saved with nothing else changed, and the reminder is
    returned. *)
Definition reminded (d : definition) (db : gmap string state) (sid : string)
    (s : state) (r : exc (gmap string state * result)) : Prop :=
  r = Ret (<[sid := _append_history s assistant (PStr (off_topic_message_of d))
                      (current_question_id s)]> db,
           {| r_session_id := sid; r_interview_id := None;
              r_message := PStr (off_topic_message_of d) |}).

(** What a session's slot holds: nothing yet, or a state stored under its
    own id whose skip marking is up to date. *)
Definition slot_ok (d : definition) (sid : string) (db : gmap string state) : Prop :=
  ∀ s, db !! sid = Some s → session_id s = sid ∧ settled d s.

(** The shipped survey with moderation switched on. *)
Definition MODERATED : definition :=
  {| intro := intro CULTURE_DISCRIMINATION;
     questions := questions CULTURE_DISCRIMINATION;
     end_message := end_message CULTURE_DISCRIMINATION;
     off_topic_message := off_topic_message CULTURE_DISCRIMINATION;
     moderate_answers := true |}.

Definition MODERATED_SURVEYS : gmap string definition :=
  {[ "MODERATED" := MODERATED ]}.

(** After the call the session is on question [i]: it is current and being
    asked. *)
Definition moves_to (db : gmap string state) (sid i : string) : Prop :=
  ∃ s, db !! sid = Some s ∧ terminated s = false
       ∧ current_question_id s = Some i ∧ question_status s !! i = Some asked.

(** After the call the session is over. *)
Definition ends_at (db : gmap string state) (sid : string) : Prop :=
  ∃ s, db !! sid = Some s ∧ terminated s = true.

(** The state of the session just opened. *)
Definition opened_state : state :=
  Eval vm_compute in default (_initial_state "" "" CULTURE_DISCRIMINATION)
                             (opened_db !! "s1").

(** ** Two runs that differ in the port's texts *)

(** What the engine reads of a response besides the two texts: the parsed
    answer value (line 187, which raises when ["parsed_answer"] is not a
    dict), the truth value of the clarification flag (line 189, which
    raises when the response is not a dict), and the proposed next
    question (line 202). *)
Definition parsed_value (r : pyval) : exc pyval :=
  py_call_get
    match r with
    | PDict fields => dict_get fields "parsed_answer" (PDict [])
    | _ => PDict []
    end "value".

Definition clarification_flag (r : pyval) : exc bool :=
  flag <- py_call_get r "need_clarification" ;; Ret (py_truthy flag).

Definition proposed_next (r : pyval) : pyval :=
  py_guarded_get r "next_question_id".

(** Two responses of the port carry the same parsed answer value, the same
    clarification flag and the same proposal; everything else in them is
    free. *)
Definition same_control (r1 r2 : pyval) : Prop :=
  parsed_value r1 = parsed_value r2
  ∧ clarification_flag r1 = clarification_flag r2
  ∧ proposed_next r1 = proposed_next r2.

(** The verdict of the moderation gate in a turn: [None] when the turn does
    not reach the gate. *)
Definition turn_verdict (surveys : gmap string definition)
    (review : string → list entry → bool) (sid svid : string)
    (db : gmap string state) (t : turn) : option bool :=
  match surveys !! svid, db !! sid with
  | Some d, Some s =>
      if terminated s then None
      else Some (_moderate_answer (scripted review t.2) d t.1 (history s))
  | _, _ => None
  end.

Fixpoint verdicts (surveys : gmap string definition)
    (review : string → list entry → bool) (sid svid : string)
    (db : gmap string state) (turns : list turn) : list (option bool) :=
  match turns with
  | [] => []
  | t :: rest =>
      turn_verdict surveys review sid svid db t
      :: verdicts surveys review sid svid (exec_turn surveys review sid svid db t) rest
  end.

(** C8 in the words of the claim: the port's control values alone fix the
    sequence of asked ids. *)
Definition phrasing_blind (surveys : gmap string definition)
    (review : string → list entry → bool) (d : definition) (sid svid : string)
    (turns1 turns2 : list turn) : Prop :=
  Forall2 (fun t1 t2 => same_control t1.2 t2.2) turns1 turns2 →
  asked_sequence surveys review d sid svid ∅ turns1
  = asked_sequence surveys review d sid svid ∅ turns2.

(** Two states equal up to their transcripts. *)
Definition sim (s1 s2 : state) : Prop :=
  session_id s1 = session_id s2 ∧ survey_id s1 = survey_id s2
  ∧ answers s1 = answers s2 ∧ question_status s1 = question_status s2
  ∧ current_question_id s1 = current_question_id s2
  ∧ terminated s1 = terminated s2.

(** Two databases whose slot for [sid] is equal up to the transcript. *)
Definition sim_slot (sid : string) (db1 db2 : gmap string state) : Prop :=
  match db1 !! sid, db2 !! sid with
  | Some s1, Some s2 => sim s1 s2 ∧ session_id s1 = sid
  | None, None => True
  | _, _ => False
  end.

(** A moderator that rejects every message once the transcript holds the
    phrase "Let us continue." *)
Definition picky : string → list entry → bool :=
  fun _ h => negb (existsb (fun e => py_eq_str (e_content e) "Let us continue.") h).

(** [reply] with the phrasing [text] for the next question. *)
Definition reply_saying (value next text : pyval) : pyval :=
  PDict [
    ("parsed_answer",
     PDict [("question_id", PNone); ("value", value);
            ("confidence", PInt 1); ("notes", PStr "")]);
    ("need_clarification", PBool false);
    ("clarification_question", PNone);
    ("next_question_id", next);
    ("assistant_question_text", text);
    ("reasoning_brief", PStr "")
  ].

Definition plain_run : list turn :=
  [ (None, PNone);
    (Some "No", reply_saying (PStr "No") PNone PNone);
    (Some "No", reply_saying (PStr "No") PNone PNone) ].

Definition chatty_run : list turn :=
  [ (None, PNone);
    (Some "No", reply_saying (PStr "No") PNone (PStr "Let us continue."));
    (Some "No", reply_saying (PStr "No") PNone (PStr "Let us continue.")) ].

(** ** Definition order *)

(** [i] is placed before [j] in the definition. *)
Definition before (d : definition) (i j : string) : Prop :=
  ∃ a b, index_of i (fmap q_id (questions d)) = Some a
         ∧ index_of j (fmap q_id (questions d)) = Some b ∧ a < b.

(** C4 in the words of the claim: along a run, the questions that become
    [asked] do so in definition order. *)
Definition asked_in_definition_order (surveys : gmap string definition)
    (review : string → list entry → bool) (d : definition) (sid svid : string)
    (turns : list turn) : Prop :=
  StronglySorted (before d) (asked_sequence surveys review d sid svid ∅ turns).

(** In this turn the question chosen, if the turn gets to choose one, is
    the policy's candidate: the port's proposal is not eligible, or it is
    that candidate. *)
Definition defers_to_policy (d : definition) (ag : agent) (s : state)
    (m : option string) : Prop :=
  match turn_gate ag d s m with
  | GateAsk s1 q =>
      let response := survey_step ag (llm_view s1) d (message_text m) in
      match interpret q response with
      | Ret (inr v) =>
          let c := candidates (_store_answer s1 q v) d in
          choose_next (py_guarded_get response "next_question_id") c.1.1 c.1.2
          = c.1.2
      | _ => True
      end
  | _ => True
  end.

Fixpoint policy_led (surveys : gmap string definition)
    (review : string → list entry → bool) (d : definition) (sid svid : string)
    (db : gmap string state) (turns : list turn) : Prop :=
  match turns with
  | [] => True
  | t :: rest =>
      match db !! sid with
      | Some s => defers_to_policy d (scripted review t.2) s t.1
      | None => True
      end
      ∧ policy_led surveys review d sid svid
          (exec_turn surveys review sid svid db t) rest
  end.

(** The first position a question asked from now on can have: past the
    current question, and past the end once the session is over or lost. *)
Definition floor (d : definition) (o : option state) : nat :=
  match o with
  | None => 0
  | Some s =>
      if terminated s then length (questions d)
      else match current_question_id s
                 ≫= (fun c => index_of c (fmap q_id (questions d))) with
           | Some k => S k
           | None => length (questions d)
           end
  end.

(** A port that jumps ahead to [Q5] and then back to [Q3]. *)
Definition jumping_run : list turn :=
  [ (None, PNone);
    (Some "No", reply (PStr "No") (PStr "Q5"));
    (Some "Agree", reply (PStr "Agree") (PStr "Q3")) ].

(** A port that proposes what the policy would choose, or nothing. *)
Definition orderly_run : list turn :=
  [ (None, PNone);
    (Some "No", reply (PStr "No") (PStr "Q3"));
    (Some "No", reply (PStr "No") PNone);
    (Some "Agree", reply (PStr "Agree") (PStr "Q2")) ].

(** What one turn may do to the order: ask nothing, or ask one question
    placed at or after the floor, which then moves past it. *)
Definition ordered_step (d : definition) (o o' : option state) : Prop :=
  (floor d o ≤ floor d o')%nat
  ∧ (newly_asked d o o' = []
     ∨ ∃ i j, newly_asked d o o' = [i]
              ∧ index_of i (fmap q_id (questions d)) = Some j
              ∧ (floor d o ≤ j)%nat ∧ floor d o' = S j).

(** ** Objects and references: [deepcopy(state)] and [pop("terminated")]

    The session state is a dict of dicts and lists that the engine mutates
    in place.  To say what the port can and cannot reach, objects live in a
    store: an address is a position in the store, allocation appends, and a
    value is an atom or a reference to an object. *)

Inductive hval : Type :=
| HNone
| HBool (b : bool)
| HInt (z : Z)
| HFloat (q : Q)
| HStr (s : string)
| HRef (l : nat).

Inductive hobj : Type :=
| HDict (fields : list (string * hval))
| HList (items : list hval).

(** The values an object holds, and the object with these values replaced
    (keys and shape kept). *)
Definition children (o : hobj) : list hval :=
  match o with
  | HDict fields => fmap snd fields
  | HList items => items
  end.

Definition rebuild (o : hobj) (vs : list hval) : hobj :=
  match o with
  | HDict fields => HDict (zip (fmap fst fields) vs)
  | HList _ => HList vs
  end.

Definition blank (o : hobj) : hobj :=
  match o with
  | HDict _ => HDict []
  | HList _ => HList []
  end.

(** Copy the values of an object one after the other, threading the store
    and the memo. *)
Fixpoint copy_all (rec : list hobj → gmap nat nat → hval
                         → option (list hobj * gmap nat nat * hval))
    (vs : list hval) (h : list hobj) (memo : gmap nat nat)
    : option (list hobj * gmap nat nat * list hval) :=
  match vs with
  | [] => Some (h, memo, [])
  | v :: rest =>
      match rec h memo v with
      | None => None
      | Some (h, memo, v') =>
          match copy_all rec rest h memo with
          | None => None
          | Some (h, memo, rest') => Some (h, memo, v' :: rest')
          end
      end
  end.

(** [copy.deepcopy(v, memo)]: an atom is returned as it is; an object
    already in the memo gives its copy; otherwise a new empty object is
    allocated and entered in the memo, the values are copied in order, and
    the new object is filled.  [fuel] bounds the depth of the recursion
    (Python raises [RecursionError] beyond its limit); an address without
    an object gives [None]. *)
Fixpoint deepcopy (fuel : nat) (h : list hobj) (memo : gmap nat nat) (v : hval)
    : option (list hobj * gmap nat nat * hval) :=
  match v with
  | HRef l =>
      match memo !! l with
      | Some l' => Some (h, memo, HRef l')
      | None =>
          match fuel with
          | 0 => None
          | S fuel =>
              match h !! l with
              | None => None
              | Some o =>
                  let l' := length h in
                  let h := (h ++ [blank o])%list in
                  let memo := <[l := l']> memo in
                  match copy_all (deepcopy fuel) (children o) h memo with
                  | None => None
                  | Some (h, memo, vs) =>
                      Some (<[l' := rebuild o vs]> h, memo, HRef l')
                  end
              end
          end
      end
  | _ => Some (h, memo, v)
  end.

(** [d.pop(key, None)] on the fields of a dict. *)
Definition pop_key (key : string) (fields : list (string * hval))
    : list (string * hval) :=
  filter (fun kv => kv.1 ≠ key) fields.

Fixpoint hassoc (key : string) (fields : list (string * hval)) : option hval :=
  match fields with
  | [] => None
  | (k, v) :: rest => if String.eqb k key then Some v else hassoc key rest
  end.

(** [llm_state = deepcopy(state)] then [llm_state.pop("terminated", None)],
    for the state at address [r]: the new store and the address of
    [llm_state]. *)
Definition prepare_llm_state (fuel : nat) (h : list hobj) (r : nat)
    : option (list hobj * nat) :=
  match deepcopy fuel h ∅ (HRef r) with
  | Some (h, _, HRef r') =>
      match h !! r' with
      | Some (HDict fields) => Some (<[r' := HDict (pop_key "terminated" fields)]> h, r')
      | _ => None
      end
  | _ => None
  end.

(** The addresses one can get to from a value by following references. *)
Inductive reach (h : list hobj) : hval → nat → Prop :=
| reach_here l : reach h (HRef l) l
| reach_step v l o l' :
    reach h v l → h !! l = Some o → HRef l' ∈ children o → reach h v l'.

(** The value [v] is the root of a tree of objects of depth at most [n],
    all present in the store. *)
Inductive depth_le (h : list hobj) : hval → nat → Prop :=
| depth_atom v n : (∀ l, v ≠ HRef l) → depth_le h v n
| depth_ref l o n :
    h !! l = Some o → Forall (fun v => depth_le h v n) (children o) →
    depth_le h (HRef l) (S n).

(** What a callee that is handed [v] may do to the store: objects it
    cannot reach from [v] are left as they are (it may allocate). *)
Definition mutates_within (h : list hobj) (v : hval) (h' : list hobj) : Prop :=
  ∀ l, (l < length h)%nat → ¬ reach h v l → h' !! l = h !! l.

(** An atom, or a reference to an object allocated at or after [n0]. *)
Definition fresh_val (n0 : nat) (v : hval) : Prop :=
  match v with
  | HRef l => (n0 ≤ l)%nat
  | _ => True
  end.

(** While a copy that started on a store of [n0] objects runs: the memo
    points into the new part, and the new objects refer to new objects
    only. *)
Definition copy_inv (n0 : nat) (h : list hobj) (memo : gmap nat nat) : Prop :=
  (n0 ≤ length h)%nat
  ∧ (∀ l l', memo !! l = Some l' → (n0 ≤ l')%nat)
  ∧ (∀ l o, (n0 ≤ l)%nat → h !! l = Some o → Forall (fresh_val n0) (children o)).

(** The store [h'] extends [h]: it is at least as long and holds the same
    objects at the addresses of [h]. *)
Definition extends (h h' : list hobj) : Prop :=
  (length h ≤ length h')%nat ∧ ∀ l, (l < length h)%nat → h' !! l = h !! l.

(** ** What a turn does to the state of its session *)

(** The state [next_step] saves for a session whose state was [s]: one
    constructor for each [return] that follows a [_save_state]. *)
Inductive turn_effect (d : definition) (s : state) : state → Prop :=
| effect_off_topic :
    turn_effect d s
      (_append_history (_mark_conditionally_skipped s d) assistant
         (PStr (off_topic_message_of d)) (current_question_id s))
| effect_lost :
    current_question_id s ≫= (fun c => _get_question_map d !! c) = None →
    turn_effect d s (ending (_mark_conditionally_skipped s d) d)
| effect_clarify c q m text :
    current_question_id s = Some c → _get_question_map d !! c = Some q →
    turn_effect d s
      (_append_history
         (_append_history (_mark_conditionally_skipped s d) user m (Some (q_id q)))
         assistant text (Some (q_id q)))
| effect_end c q m raw v proposal :
    current_question_id s = Some c → _get_question_map d !! c = Some q →
    _normalize_answer q raw = (v, true, false) →
    let stored := _store_answer
                    (_append_history (_mark_conditionally_skipped s d) user m
                       (Some (q_id q))) q v in
    id_truthy (choose_next proposal (candidates stored d).1.1 (candidates stored d).1.2)
    = false →
    turn_effect d s (ending (candidates stored d).2 d)
| effect_ask c q m raw v proposal nid nq text :
    current_question_id s = Some c → _get_question_map d !! c = Some q →
    _normalize_answer q raw = (v, true, false) →
    let stored := _store_answer
                    (_append_history (_mark_conditionally_skipped s d) user m
                       (Some (q_id q))) q v in
    choose_next proposal (candidates stored d).1.1 (candidates stored d).1.2 = Some nid →
    nid ≠ "" → _get_question_map d !! nid = Some nq →
    turn_effect d s (asking (candidates stored d).2 nid text).

(** The state [begin_session] saves. *)
Inductive begin_effect (d : definition) (sid svid : string) : state → Prop :=
| begin_end :
    let n := _deterministic_next_question (_initial_state sid svid d) d in
    id_truthy n.1 = false → begin_effect d sid svid (ending n.2 d)
| begin_ask nid q :
    let n := _deterministic_next_question (_initial_state sid svid d) d in
    n.1 = Some nid → nid ≠ "" → _get_question_map d !! nid = Some q →
    begin_effect d sid svid
      (asking n.2 nid (PStr (_render_intro_and_question d q))).

(** A survey made of the two follow-up questions alone. *)
Definition FOLLOW_UPS : definition :=
  {| intro := ""; questions := [Q2; Q4]; end_message := None;
     off_topic_message := None; moderate_answers := false |}.

Definition FOLLOW_UP_SURVEYS : gmap string definition :=
  {[ "FOLLOW_UPS" := FOLLOW_UPS ]}.

(** Only the current question is being asked. *)
Definition asked_is_current (s : state) : Prop :=
  ∀ i, question_status s !! i = Some asked → current_question_id s = Some i.

(** Every question that carries a condition is marked skipped. *)
Definition conditional_skipped (d : definition) (s : state) : Prop :=
  ∀ q, q ∈ questions d → q_condition q ≠ None →
       question_status s !! q_id q = Some skipped.

(** Every stored answer sits under the storage key of a question of the
    definition and is a value the normalizer accepted for it. *)
Definition answers_accepted (d : definition) (s : state) : Prop :=
  ∀ k v, answers s !! k = Some v →
    ∃ q raw, q ∈ questions d ∧ default (q_id q) (q_save_as q) = k
             ∧ _normalize_answer q raw = (v, true, false).

(** [current_asked] and [conditional_skipped] together. *)
Definition steady (d : definition) (s : state) : Prop :=
  current_asked s ∧ conditional_skipped d s.

(** The call that opens a session. *)
Definition first_call : list (option string * agent) :=
  [(None, scripted on_topic PNone)].

(** ** The prompt of [LLMAgent.survey_step] *)

(** An entry of [eligible_questions] in [survey_step]: the four fields of a
    question the prompt shows. *)
Record prompt_question : Type := {
  pq_id : string;
  pq_text : string;
  pq_options : list string;
  pq_type : question_type;
}.

(** [eligible_questions] of [survey_step], shown to the model as the
    remaining questions: those whose status is neither [answered] nor
    [skipped]. *)
Definition remaining_questions (st : llm_state) (d : definition)
    : list prompt_question :=
  fmap (fun q => {| pq_id := q_id q; pq_text := q_text q;
                    pq_options := q_options q; pq_type := q_type q |})
       (filter (fun q => status_closed (l_question_status st !! q_id q) = false)
               (questions d)).


(** The status table has an entry for exactly the questions of the
    definition. *)
Definition covers (d : definition) (st : gmap string status) : Prop :=
  ∀ i, is_Some (st !! i) ↔ i ∈ q_id <$> questions d.

(** No question is being asked. *)
Definition none_asked (s : state) : Prop :=
  ∀ i, question_status s !! i ≠ Some asked.

(** The calls of a session that a policy-led port takes to its end. *)
Definition finishing_calls : list (option string * agent) :=
  [(None, scripted on_topic PNone);
   (Some "No", scripted on_topic (reply (PStr "No") PNone));
   (Some "No", scripted on_topic (reply (PStr "No") PNone));
   (Some "Agree", scripted on_topic (reply (PStr "Agree") PNone));
   (Some "Yes", scripted on_topic (reply (PStr "Yes") PNone));
   (Some "Nothing", scripted on_topic (reply (PStr "Nothing") PNone))].

(** The calls of a session whose port jumps from [Q1] to [Q7] and then back
    to [Q6]. *)
Definition jumping_calls : list (option string * agent) :=
  [(None, scripted on_topic PNone);
   (Some "No", scripted on_topic (reply (PStr "No") (PStr "Q7")));
   (Some "Nothing", scripted on_topic (reply (PStr "Nothing") (PStr "Q6")))].

Definition jumped_db : gmap string state :=
  exec_session SURVEYS "s1" SURVEY_ID ∅ jumping_calls.

(** The number of questions of the definition that are neither answered
    nor skipped. *)
Definition open_count (d : definition) (s : state) : nat :=
  length (filter (fun q => status_closed (question_status s !! q_id q) = false)
                 (questions d)).

(** While the session runs, the current question is one of the
    definition. *)
Definition current_resolves (d : definition) (s : state) : Prop :=
  terminated s = false →
  ∃ c q, current_question_id s = Some c ∧ _get_question_map d !! c = Some q.

(** A port that jumps from [Q1] to [Q7] and proposes nothing after it. *)
Definition skipping_run : list turn :=
  [ (None, PNone);
    (Some "No", reply (PStr "No") (PStr "Q7"));
    (Some "Nothing", reply (PStr "Nothing") PNone) ].

(** ** The value a store holds at an address *)

(** The Python value of an object whose values have been read. *)
Definition build (o : hobj) (vs : list pyval) : pyval :=
  match o with
  | HDict fields => PDict (zip (fmap fst fields) vs)
  | HList _ => PList vs
  end.

(** The value [v] stands for in the store [h]: an atom is itself, a
    reference is the dict or list found there, read in turn.  [fuel] bounds
    the depth; a cyclic or dangling value has no reading. *)
Fixpoint read (fuel : nat) (h : list hobj) (v : hval) : option pyval :=
  match v with
  | HNone => Some PNone
  | HBool b => Some (PBool b)
  | HInt z => Some (PInt z)
  | HFloat q => Some (PFloat q)
  | HStr s => Some (PStr s)
  | HRef l =>
      match fuel with
      | 0 => None
      | S fuel =>
          o ← h !! l; vs ← mapM (read fuel h) (children o); Some (build o vs)
      end
  end.

(** Laying a value out in the store: its dicts and lists become objects,
    allocated after their contents. *)
Fixpoint alloc (v : pyval) (h : list hobj) : list hobj * hval :=
  match v with
  | PNone => (h, HNone)
  | PBool b => (h, HBool b)
  | PInt z => (h, HInt z)
  | PFloat q => (h, HFloat q)
  | PStr s => (h, HStr s)
  | PList items =>
      let '(h, vs) :=
        (fix go (items : list pyval) (h : list hobj) : list hobj * list hval :=
           match items with
           | [] => (h, [])
           | x :: rest =>
               let '(h, v) := alloc x h in
               let '(h, vs) := go rest h in (h, v :: vs)
           end) items h in
      ((h ++ [HList vs])%list, HRef (length h))
  | PDict fields =>
      let '(h, kvs) :=
        (fix go (fields : list (string * pyval)) (h : list hobj)
           : list hobj * list (string * hval) :=
           match fields with
           | [] => (h, [])
           | (k, x) :: rest =>
               let '(h, v) := alloc x h in
               let '(h, kvs) := go rest h in (h, (k, v) :: kvs)
           end) fields h in
      ((h ++ [HDict kvs])%list, HRef (length h))
  end.

(** [d.pop(key, None)] on the fields of a dict value. *)
Definition pop_field (key : string) (fields : list (string * pyval))
    : list (string * pyval) :=
  filter (fun kv => kv.1 ≠ key) fields.

(** The session state as the Python value the engine holds: the dict of
    [_initial_state], its keys in the order they are created, the two maps
    in the order [map_to_list] lists them. *)
Definition status_name (st : status) : string :=
  match st with
  | unasked => "unasked"
  | asked => "asked"
  | answered => "answered"
  | skipped => "skipped"
  end.

Definition role_name (r : role) : string :=
  match r with
  | assistant => "assistant"
  | user => "user"
  end.

Definition optional_str (o : option string) : pyval :=
  match o with
  | Some i => PStr i
  | None => PNone
  end.

Definition entry_value (e : entry) : pyval :=
  PDict [("role", PStr (role_name (e_role e))); ("content", e_content e);
         ("question_id", optional_str (e_question_id e))].

Definition status_value (st : gmap string status) : pyval :=
  PDict (fmap (fun kv => (kv.1, PStr (status_name kv.2))) (map_to_list st)).

Definition state_value (s : state) : pyval :=
  PDict [("session_id", PStr (session_id s)); ("survey_id", PStr (survey_id s));
         ("answers", PDict (map_to_list (answers s)));
         ("question_status", status_value (question_status s));
         ("current_question_id", optional_str (current_question_id s));
         ("history", PList (fmap entry_value (history s)));
         ("terminated", PBool (terminated s))].

(** The argument of [survey_step] as a Python value. *)
Definition llm_value (l : llm_state) : pyval :=
  PDict [("session_id", PStr (l_session_id l)); ("survey_id", PStr (l_survey_id l));
         ("answers", PDict (map_to_list (l_answers l)));
         ("question_status", status_value (l_question_status l));
         ("current_question_id", optional_str (l_current_question_id l));
         ("history", PList (fmap entry_value (l_history l)))].

(** References of a copy in the making: they point into the new part of
    the store, at objects that are complete (not in [path], the objects
    being filled). *)
Definition sealed_val (n0 : nat) (path : list nat) (h : list hobj) (v : hval) : Prop :=
  match v with
  | HRef b => (n0 ≤ b)%nat ∧ (b < length h)%nat ∧ b ∉ path
  | _ => True
  end.

Definition closed_new (n0 : nat) (path : list nat) (h : list hobj) : Prop :=
  ∀ a o, (n0 ≤ a)%nat → a ∉ path → h !! a = Some o →
         Forall (sealed_val n0 path h) (children o).

(** While a copy of the store [h0] runs: the store only grows; the memo
    and the objects being filled lie in the new part; complete new objects
    refer to complete new objects; and a complete copy reads as its
    original does. *)
Definition read_inv (h0 : list hobj) (path : list nat) (h : list hobj)
    (memo : gmap nat nat) : Prop :=
  extends h0 h
  ∧ (∀ l l', memo !! l = Some l' → (length h0 ≤ l')%nat ∧ (l' < length h)%nat)
  ∧ (∀ p, p ∈ path → (p < length h)%nat)
  ∧ closed_new (length h0) path h
  ∧ (∀ l l', memo !! l = Some l' → l' ∉ path →
       ∀ j pv, read j h0 (HRef l) = Some pv → read j h (HRef l') = Some pv).

(** The originals of the objects being filled cannot be read with fuel
    [k]: they lie above the value being copied. *)
Definition unread (h0 : list hobj) (k : nat) (path : list nat)
    (memo : gmap nat nat) : Prop :=
  ∀ l l', memo !! l = Some l' → l' ∈ path → read k h0 (HRef l) = None.

(** The result of one more copy. *)
Definition copy_ok (h0 : list hobj) (path : list nat) (memo : gmap nat nat)
    (h' : list hobj) (memo' : gmap nat nat) : Prop :=
  read_inv h0 path h' memo'
  ∧ ∀ l l', memo' !! l = Some l' → l' ∈ path → memo !! l = Some l'.

(** ** Basic facts *)

Lemma next_step_unfold surveys ag db sid svid user_message :
  next_step surveys ag db sid svid user_message =
  match surveys !! svid with
  | None => Raise KeyError
  | Some d =>
    match db !! sid with
    | None => begin_session surveys db sid svid
    | Some s =>
      match turn_gate ag d s user_message with
      | GateReplay =>
          Ret (db, {| r_session_id := sid; r_interview_id := None;
                      r_message := PStr (end_message_of d) |})
      | GateOffTopic s => Ret (_off_topic_response db s d)
      | GateLost s =>
          Ret (_save_state db
                 (_append_history (with_terminated s true) assistant
                    (PStr (end_message_of d)) None),
               {| r_session_id := sid; r_interview_id := None;
                  r_message := PStr (end_message_of d) |})
      | GateAsk s q =>
          let response := survey_step ag (llm_view s) d (message_text user_message) in
          x <- interpret q response ;;
          match x with
          | inl text => Ret (_handle_clarification db s (q_id q) text)
          | inr v => advance d db sid s q v response
          end
      end
    end
  end.
Proof.
  unfold next_step, turn_gate, _load_state.
  destruct (surveys !! svid) as [d|]; [|done].
  destruct (db !! sid) as [s|]; [|done].
  destruct (terminated s); [done|].
  destruct (negb _); [done|].
  destruct (current_question_id _ ≫= _) as [q|]; [|done].
  cbv zeta. unfold interpret, advance, candidates.
  set (response := survey_step _ _ _ _).
  destruct (py_call_get _ "value") as [pv|]; [|done]. cbn [exc_bind].
  destruct (_normalize_answer q pv) as [[nv valid] needs].
  destruct (py_call_get response "need_clarification") as [flag|]; [|done].
  cbn [exc_bind].
  destruct (py_truthy _).
  - destruct (py_call_get response "clarification_question"); done.
  - cbn [exc_bind].
    destruct (_eligible_questions _ d) as [el s1].
    destruct (_deterministic_next_question s1 d) as [dn s2].
    done.
Qed.

Lemma build_lookup_notin (qs : list question) : ∀ (m : gmap string question) i,
  i ∉ fmap q_id qs → foldl (λ m q, <[q_id q := q]> m) m qs !! i = m !! i.
Proof.
  induction qs as [|a qs IH]; intros m i Hi; [done|].
  cbn in Hi. apply not_elem_of_cons in Hi as [Hne Hi].
  cbn. rewrite IH by done. by rewrite lookup_insert_ne.
Qed.

Lemma build_lookup_Some (qs : list question) : ∀ (m : gmap string question) i q,
  foldl (λ m q, <[q_id q := q]> m) m qs !! i = Some q → (q ∈ qs ∧ q_id q = i) ∨ m !! i = Some q.
Proof.
  induction qs as [|a qs IH]; intros m i q H; [by right|].
  cbn in H. apply IH in H as [[Hin Hid]|H].
  - left. split; [by right|done].
  - destruct (decide (q_id a = i)) as [<-|Hne].
    + rewrite lookup_insert_eq in H. injection H as <-. left. split; [by left|done].
    + rewrite lookup_insert_ne in H by done. by right.
Qed.

Lemma build_lookup_NoDup (qs : list question) : ∀ (m : gmap string question) q,
  NoDup (fmap q_id qs) → q ∈ qs → foldl (λ m q, <[q_id q := q]> m) m qs !! q_id q = Some q.
Proof.
  induction qs as [|a qs IH]; intros m q Hnd Hin; [by apply elem_of_nil in Hin|].
  cbn in Hnd. apply NoDup_cons in Hnd as [Ha Hnd].
  apply elem_of_cons in Hin as [->|Hin].
  - cbn. rewrite build_lookup_notin by done. apply lookup_insert_eq.
  - cbn. by apply IH.
Qed.

Lemma build_lookup_mem (qs : list question) : ∀ (m : gmap string question) q,
  q ∈ qs → is_Some (foldl (λ m q, <[q_id q := q]> m) m qs !! q_id q).
Proof.
  induction qs as [|a qs IH]; intros m q Hin; [by apply elem_of_nil in Hin|].
  apply elem_of_cons in Hin as [->|Hin]; cbn.
  - destruct (decide (q_id a ∈ fmap q_id qs)) as [Hd|Hd].
    + apply list_elem_of_fmap in Hd as (q' & Hq' & Hin'). rewrite Hq'. by apply IH.
    + rewrite build_lookup_notin by done. rewrite lookup_insert_eq. eauto.
  - by apply IH.
Qed.

Lemma question_map_Some d i q :
  _get_question_map d !! i = Some q → q ∈ questions d ∧ q_id q = i.
Proof.
  intros H. apply build_lookup_Some in H as [H|H]; [done|].
  by rewrite lookup_empty in H.
Qed.

Lemma question_map_NoDup d q :
  NoDup (fmap q_id (questions d)) → q ∈ questions d →
  _get_question_map d !! q_id q = Some q.
Proof. apply build_lookup_NoDup. Qed.

Lemma question_map_mem d q :
  q ∈ questions d → is_Some (_get_question_map d !! q_id q).
Proof. apply build_lookup_mem. Qed.

(** *** Skip marking *)

Lemma mark_status s d i :
  question_status (_mark_conditionally_skipped s d) !! i
  = question_status s !! i ≫= mark_entry (_get_question_map d) (answers s) i.
Proof. apply map_lookup_imap. Qed.

Lemma mark_entry_cases qm ans i st st' :
  mark_entry qm ans i st = Some st' →
  st' = st ∨ (st = unasked ∧ st' = skipped ∧
              ∃ q, qm !! i = Some q ∧ _is_condition_met q ans = false).
Proof.
  unfold mark_entry. destruct st; try (intros [= <-]; by left).
  destruct (qm !! i) as [q|]; [|intros [= <-]; by left].
  destruct (_is_condition_met q ans) eqn:E; intros [= <-]; [by left|].
  right. eauto.
Qed.

Lemma mark_status_cases s d i :
  question_status (_mark_conditionally_skipped s d) !! i = question_status s !! i
  ∨ (question_status s !! i = Some unasked
     ∧ question_status (_mark_conditionally_skipped s d) !! i = Some skipped).
Proof.
  rewrite mark_status. destruct (question_status s !! i) as [st|] eqn:E; [|by left].
  cbn. destruct (mark_entry _ _ i st) as [st'|] eqn:M.
  - apply mark_entry_cases in M as [->|(-> & -> & _)]; [by left|by right].
  - unfold mark_entry in M. repeat case_match; done.
Qed.

Lemma mark_status_keep s d i st :
  question_status s !! i = Some st → st ≠ unasked →
  question_status (_mark_conditionally_skipped s d) !! i = Some st.
Proof.
  intros H Hne. destruct (mark_status_cases s d i) as [->|[H' _]]; [done|].
  congruence.
Qed.

Lemma mark_settled s d : settled d (_mark_conditionally_skipped s d).
Proof.
  intros i q Hi Hq. rewrite mark_status in Hi.
  destruct (question_status s !! i) as [st|]; [|done]. cbn in Hi.
  unfold mark_entry in Hi. destruct st; try done.
  rewrite Hq in Hi. cbn. by destruct (_is_condition_met q (answers s)).
Qed.

Lemma with_question_status_id s : with_question_status s (question_status s) = s.
Proof. by destruct s. Qed.

Lemma settled_mark s d : settled d s → _mark_conditionally_skipped s d = s.
Proof.
  intros Hs. transitivity (with_question_status s (question_status s));
    [|apply with_question_status_id].
  unfold _mark_conditionally_skipped. f_equal.
  apply map_eq. intros i. rewrite map_lookup_imap.
  destruct (question_status s !! i) as [st|] eqn:E; [|done]. cbn.
  unfold mark_entry. destruct st; try done.
  destruct (_get_question_map d !! i) as [q|] eqn:Q; [|done].
  by rewrite (Hs i q E Q).
Qed.


(** *** The two scans *)

Lemma NoDup_fmap_eq {A B : Type} (f : A → B) (l : list A) x y :
  NoDup (f <$> l) → x ∈ l → y ∈ l → f x = f y → x = y.
Proof.
  induction l as [|a l IH]; intros Hnd Hx Hy Hf; [by apply elem_of_nil in Hx|].
  cbn in Hnd. apply NoDup_cons in Hnd as [Ha Hnd].
  apply elem_of_cons in Hx as [->|Hx]; apply elem_of_cons in Hy as [->|Hy].
  - done.
  - exfalso. apply Ha. rewrite Hf. by apply list_elem_of_fmap_2.
  - exfalso. apply Ha. rewrite <- Hf. by apply list_elem_of_fmap_2.
  - by apply IH.
Qed.

Lemma filter_ext_in {A : Type} (P Q : A → Prop)
    `{!∀ x, Decision (P x)} `{!∀ x, Decision (Q x)} (l : list A) :
  (∀ x, x ∈ l → P x ↔ Q x) → filter P l = filter Q l.
Proof.
  induction l as [|a l IH]; intros Hext; [done|].
  rewrite !filter_cons.
  assert (filter P l = filter Q l) as ->
    by (apply IH; intros x Hx; apply Hext; by right).
  assert (P a ↔ Q a) as Ha by (apply Hext; by left).
  destruct (decide (P a)) as [p|p], (decide (Q a)) as [q|q]; tauto.
Qed.

Lemma only_skips_step ans q qs st st' :
  status_closed (st !! q_id q) = false → _is_condition_met q ans = false →
  only_skips ans qs (<[q_id q := skipped]> st) st' →
  only_skips ans (q :: qs) st st'.
Proof.
  intros Hc Hm H i. destruct (H i) as [E|(E & C & q' & Hin & Hid & Hq')].
  - destruct (decide (q_id q = i)) as [<-|Hne].
    + rewrite lookup_insert_eq in E. right. split; [done|]. split; [done|].
      exists q. split; [by left|done].
    + rewrite lookup_insert_ne in E by done. by left.
  - destruct (decide (q_id q = i)) as [<-|Hne].
    + by rewrite lookup_insert_eq in C.
    + rewrite lookup_insert_ne in C by done. right. split; [done|]. split; [done|].
      exists q'. split; [by right|done].
Qed.

Lemma only_skips_weaken ans q qs st st' :
  only_skips ans qs st st' → only_skips ans (q :: qs) st st'.
Proof.
  intros H i. destruct (H i) as [E|(E & C & q' & Hin & Hid & Hq')]; [by left|].
  right. split; [done|]. split; [done|]. exists q'. split; [by right|done].
Qed.

Lemma scan_next_only_skips ans qs : ∀ st,
  only_skips ans qs st (scan_next ans qs st).2.
Proof.
  induction qs as [|q qs IH]; intros st; [by left|].
  cbn. destruct (status_closed (st !! q_id q)) eqn:C.
  - apply only_skips_weaken, IH.
  - destruct (_is_condition_met q ans) eqn:M; cbn.
    + by left.
    + by apply only_skips_step.
Qed.

Lemma scan_eligible_only_skips ans qs : ∀ st,
  only_skips ans qs st (scan_eligible ans qs st).2.
Proof.
  induction qs as [|q qs IH]; intros st; [by left|].
  cbn. destruct (status_closed (st !! q_id q)) eqn:C.
  - apply only_skips_weaken, IH.
  - destruct (_is_condition_met q ans) eqn:M; cbn.
    + specialize (IH st). destruct (scan_eligible ans qs st) as [more st'].
      by apply only_skips_weaken.
    + by apply only_skips_step.
Qed.

Lemma open_for_insert_other ans st q q' v :
  q_id q ≠ q_id q' →
  open_for ans (<[q_id q := v]> st) q' = open_for ans st q'.
Proof. intros H. unfold open_for. by rewrite lookup_insert_ne. Qed.

Lemma scan_next_spec ans qs : ∀ st,
  NoDup (fmap q_id qs) →
  (scan_next ans qs st).1 = q_id <$> head (filter (λ q, open_for ans st q) qs).
Proof.
  induction qs as [|q qs IH]; intros st Hnd; [done|].
  cbn in Hnd. apply NoDup_cons in Hnd as [Hq Hnd].
  cbn [scan_next]. unfold open_for at 1.
  destruct (status_closed (st !! q_id q)) eqn:C.
  - rewrite filter_cons_False by (unfold open_for; rewrite C; cbn; tauto).
    by apply IH.
  - destruct (_is_condition_met q ans) eqn:M; cbn [negb].
    + rewrite filter_cons_True by (unfold open_for; by rewrite C, M). done.
    + rewrite filter_cons_False
        by (unfold open_for; rewrite C, M; cbn; tauto).
      rewrite IH by done. do 2 f_equal. apply filter_ext_in.
      intros q' Hq'. rewrite open_for_insert_other; [done|].
      intros E. apply Hq. rewrite E. by apply list_elem_of_fmap_2.
Qed.

Lemma scan_eligible_spec ans qs : ∀ st,
  NoDup (fmap q_id qs) →
  (scan_eligible ans qs st).1 = filter (λ q, open_for ans st q) qs.
Proof.
  induction qs as [|q qs IH]; intros st Hnd; [done|].
  cbn in Hnd. apply NoDup_cons in Hnd as [Hq Hnd].
  cbn [scan_eligible].
  destruct (status_closed (st !! q_id q)) eqn:C.
  - rewrite filter_cons_False by (unfold open_for; rewrite C; cbn; tauto).
    by apply IH.
  - destruct (_is_condition_met q ans) eqn:M; cbn [negb].
    + rewrite filter_cons_True by (unfold open_for; by rewrite C, M).
      specialize (IH st Hnd). destruct (scan_eligible ans qs st) as [more st'].
      cbn in *. by rewrite IH.
    + rewrite filter_cons_False
        by (unfold open_for; rewrite C, M; cbn; tauto).
      rewrite IH by done. apply filter_ext_in.
      intros q' Hq'. rewrite open_for_insert_other; [done|].
      intros E. apply Hq. rewrite E. by apply list_elem_of_fmap_2.
Qed.

(** Without any assumption on the definition: what the scans return is
    open, and comes from the list scanned. *)
Lemma scan_next_found ans qs : ∀ st i,
  (scan_next ans qs st).1 = Some i →
  ∃ q, q ∈ qs ∧ q_id q = i ∧ _is_condition_met q ans = true
       ∧ status_closed ((scan_next ans qs st).2 !! i) = false.
Proof.
  induction qs as [|q qs IH]; intros st i H; [done|].
  cbn in H |- *. destruct (status_closed (st !! q_id q)) eqn:C.
  - destruct (IH st i H) as (q' & ? & ? & ? & ?). exists q'. split; [by right|done].
  - destruct (_is_condition_met q ans) eqn:M; cbn in H |- *.
    + injection H as <-. exists q. split; [by left|done].
    + destruct (IH _ i H) as (q' & ? & ? & ? & ?). exists q'. split; [by right|done].
Qed.

Lemma scan_eligible_mem ans qs : ∀ st q,
  q ∈ (scan_eligible ans qs st).1 →
  q ∈ qs ∧ _is_condition_met q ans = true.
Proof.
  induction qs as [|a qs IH]; intros st q H; [by apply elem_of_nil in H|].
  cbn in H. destruct (status_closed (st !! q_id a)) eqn:C.
  - apply IH in H as [? ?]. split; [by right|done].
  - destruct (_is_condition_met a ans) eqn:M; cbn in H.
    + specialize (IH st q). destruct (scan_eligible ans qs st) as [more st'].
      cbn in *. apply elem_of_cons in H as [->|H]; [split; [by left|done]|].
      apply IH in H as [? ?]. split; [by right|done].
    + apply IH in H as [? ?]. split; [by right|done].
Qed.

(** *** Statuses only close *)

Lemma grows_refl st : grows st st.
Proof. by left. Qed.

Lemma grows_trans st1 st2 st3 : grows st1 st2 → grows st2 st3 → grows st1 st3.
Proof.
  intros H12 H23 i. destruct (H23 i) as [E|[E C]], (H12 i) as [E'|[E' C']].
  - left. congruence.
  - right. split; [congruence|done].
  - right. split; [done|congruence].
  - rewrite E' in C. done.
Qed.

Lemma only_skips_grows ans qs st st' : only_skips ans qs st st' → grows st st'.
Proof. intros H i. destruct (H i) as [?|(? & ? & _)]; [by left|by right]. Qed.

Lemma mark_grows s d :
  grows (question_status s) (question_status (_mark_conditionally_skipped s d)).
Proof.
  intros i. destruct (mark_status_cases s d i) as [?|[E ?]]; [by left|].
  right. by rewrite E.
Qed.

Lemma grows_closed st st' i :
  grows st st' → status_closed (st !! i) = true → st' !! i = st !! i.
Proof. intros H C. destruct (H i) as [?|[_ C']]; [done|congruence]. Qed.

Lemma grows_asked st st' i :
  grows st st' → st' !! i = Some asked → st !! i = Some asked.
Proof. intros H E. destruct (H i) as [E'|[E' _]]; congruence. Qed.

Lemma grows_unasked st st' i :
  grows st st' → st' !! i = Some unasked → st !! i = Some unasked.
Proof. intros H E. destruct (H i) as [E'|[E' _]]; congruence. Qed.

Lemma settled_grows d s s' :
  settled d s → answers s' = answers s →
  grows (question_status s) (question_status s') → settled d s'.
Proof.
  intros Hs Ha Hg i q Hi Hq. rewrite Ha. apply (Hs i q); [|done].
  by eapply grows_unasked.
Qed.

(** *** The policy's two functions as scans over the marked statuses *)

Lemma eligible_questions_eq s d :
  _eligible_questions s d =
  let sc := scan_eligible (answers s) (questions d)
              (question_status (_mark_conditionally_skipped s d)) in
  (sc.1, with_question_status s sc.2).
Proof.
  unfold _eligible_questions. cbn.
  by destruct (scan_eligible _ _ _) as [el st].
Qed.

Lemma scan_start_with_status s d st :
  scan_start (with_question_status s st) d = scan_start s d.
Proof. done. Qed.

Lemma deterministic_next_question_eq s d :
  _deterministic_next_question s d =
  let sc := scan_next (answers s) (drop (scan_start s d) (questions d))
              (question_status (_mark_conditionally_skipped s d)) in
  (sc.1, with_question_status s sc.2).
Proof.
  unfold _deterministic_next_question. cbn.
  by destruct (scan_next _ _ _) as [el st].
Qed.

Lemma eligible_questions_grows s d :
  grows (question_status s) (question_status (_eligible_questions s d).2).
Proof.
  rewrite eligible_questions_eq. cbn. eapply grows_trans; [apply mark_grows|].
  eapply only_skips_grows, scan_eligible_only_skips.
Qed.

Lemma deterministic_next_question_grows s d :
  grows (question_status s) (question_status (_deterministic_next_question s d).2).
Proof.
  rewrite deterministic_next_question_eq. cbn.
  eapply grows_trans; [apply mark_grows|].
  eapply only_skips_grows, scan_next_only_skips.
Qed.

Lemma eligible_questions_settled s d : settled d (_eligible_questions s d).2.
Proof.
  rewrite eligible_questions_eq. cbn.
  apply (settled_grows d (_mark_conditionally_skipped s d)); [apply mark_settled|done|].
  eapply only_skips_grows, scan_eligible_only_skips.
Qed.

Lemma deterministic_next_question_settled s d :
  settled d (_deterministic_next_question s d).2.
Proof.
  rewrite deterministic_next_question_eq. cbn.
  apply (settled_grows d (_mark_conditionally_skipped s d)); [apply mark_settled|done|].
  eapply only_skips_grows, scan_next_only_skips.
Qed.

Lemma same_frame_refl s : same_frame s s.
Proof. by repeat split. Qed.

Lemma same_frame_trans s1 s2 s3 :
  same_frame s1 s2 → same_frame s2 s3 → same_frame s1 s3.
Proof.
  intros (?&?&?&?&?&?) (?&?&?&?&?&?). repeat split; congruence.
Qed.

Lemma mark_frame s d : same_frame s (_mark_conditionally_skipped s d).
Proof. by repeat split. Qed.

Lemma eligible_questions_frame s d : same_frame s (_eligible_questions s d).2.
Proof. rewrite eligible_questions_eq. by repeat split. Qed.

Lemma deterministic_next_question_frame s d :
  same_frame s (_deterministic_next_question s d).2.
Proof. rewrite deterministic_next_question_eq. by repeat split. Qed.

Lemma candidates_eq s d :
  candidates s d =
  let e := _eligible_questions s d in
  let n := _deterministic_next_question e.2 d in
  (fmap q_id e.1, n.1, n.2).
Proof.
  unfold candidates. destruct (_eligible_questions s d) as [el s1]. cbn.
  by destruct (_deterministic_next_question s1 d) as [dn s2].
Qed.

Lemma candidates_frame s d : same_frame s (candidates s d).2.
Proof.
  rewrite candidates_eq. cbn. eapply same_frame_trans;
    [apply eligible_questions_frame|apply deterministic_next_question_frame].
Qed.

Lemma candidates_grows s d :
  grows (question_status s) (question_status (candidates s d).2).
Proof.
  rewrite candidates_eq. cbn. eapply grows_trans;
    [apply eligible_questions_grows|apply deterministic_next_question_grows].
Qed.

Lemma candidates_settled s d : settled d (candidates s d).2.
Proof. rewrite candidates_eq. cbn. apply deterministic_next_question_settled. Qed.

(** Every allowed id and the policy's candidate name a question of the
    definition, so the lookups in [question_map] that follow cannot fail. *)
Lemma candidates_allowed_mem s d i :
  i ∈ (candidates s d).1.1 → ∃ q, q ∈ questions d ∧ q_id q = i.
Proof.
  rewrite candidates_eq. cbn. rewrite eligible_questions_eq. cbn.
  intros (q & -> & Hq)%list_elem_of_fmap.
  apply scan_eligible_mem in Hq as [Hq _]. eauto.
Qed.

Lemma candidates_next_mem s d i :
  (candidates s d).1.2 = Some i →
  ∃ q, q ∈ drop (scan_start s d) (questions d) ∧ q_id q = i
       ∧ status_closed (question_status (candidates s d).2 !! i) = false
       ∧ _is_condition_met q (answers s) = true.
Proof.
  rewrite candidates_eq. cbn. rewrite deterministic_next_question_eq. cbn.
  intros (q & Hq & Hi & Hm & Hc)%scan_next_found.
  rewrite eligible_questions_eq in Hq, Hm. eauto.
Qed.

(** *** Choosing the next question *)

Lemma py_in_true v l : py_in v l = true ↔ ∃ i, v = PStr i ∧ i ∈ l.
Proof.
  unfold py_in. rewrite existsb_exists. split.
  - intros (i & Hi & E). destruct v; try done. cbn in E.
    apply String.eqb_eq in E as ->. exists i. split; [done|].
    by apply list_elem_of_In.
  - intros (i & -> & Hi). exists i. split; [by apply list_elem_of_In|].
    cbn. apply String.eqb_refl.
Qed.

Lemma choose_next_Some p allowed det i :
  choose_next p allowed det = Some i →
  (p = PStr i ∧ i ∈ allowed) ∨ (py_in p allowed = false ∧ det = Some i).
Proof.
  unfold choose_next. destruct (py_in p allowed) eqn:E; [|by right].
  apply py_in_true in E as (j & -> & Hj). intros [= <-]. by left.
Qed.

Lemma choose_next_allowed i allowed det :
  i ∈ allowed → choose_next (PStr i) allowed det = Some i.
Proof.
  intros Hi. unfold choose_next.
  by rewrite (proj2 (py_in_true (PStr i) allowed)) by eauto.
Qed.

Lemma choose_next_rejected p allowed det :
  py_in p allowed = false → choose_next p allowed det = det.
Proof. intros H. unfold choose_next. by rewrite H. Qed.

Lemma advance_eq d db sid s q v response :
  advance d db sid s q v response =
  let c := candidates (_store_answer s q v) d in
  let chosen := choose_next (py_guarded_get response "next_question_id") c.1.1 c.1.2 in
  if negb (id_truthy chosen) then
    Ret (_save_state db (ending c.2 d),
         {| r_session_id := sid; r_interview_id := None;
            r_message := PStr (end_message_of d) |})
  else
    match chosen with
    | None => Raise KeyError
    | Some nid =>
        match _get_question_map d !! nid with
        | None => Raise KeyError
        | Some nq =>
            let text := py_or (py_guarded_get response "assistant_question_text")
                              (PStr (q_text nq)) in
            Ret (_save_state db (asking c.2 nid text),
                 {| r_session_id := sid; r_interview_id := None; r_message := text |})
        end
    end.
Proof.
  unfold advance. destruct (candidates _ d) as [[al dn] s'].
  cbn [fst snd]. cbv zeta. destruct (negb _); [done|].
  destruct (choose_next _ al dn); [|done].
  by destruct (_get_question_map d !! _).
Qed.

(** The chosen question is one of the definition's. *)
Lemma chosen_in_definition s d p i :
  choose_next p (candidates s d).1.1 (candidates s d).1.2 = Some i →
  is_Some (_get_question_map d !! i).
Proof.
  intros [[_ H]|[_ H]]%choose_next_Some.
  - apply candidates_allowed_mem in H as (q & Hq & <-). by apply question_map_mem.
  - apply candidates_next_mem in H as (q & Hq & <- & _).
    apply question_map_mem. by eapply subseteq_drop.
Qed.

(** [advance] always returns: it ends the session, or asks a question. *)
Lemma advance_returns d db sid s q v response :
  let c := candidates (_store_answer s q v) d in
  let chosen := choose_next (py_guarded_get response "next_question_id") c.1.1 c.1.2 in
  (id_truthy chosen = false
   ∧ advance d db sid s q v response =
     Ret (_save_state db (ending c.2 d),
          {| r_session_id := sid; r_interview_id := None;
             r_message := PStr (end_message_of d) |}))
  ∨ (∃ nid nq, chosen = Some nid ∧ nid ≠ "" ∧ _get_question_map d !! nid = Some nq
     ∧ advance d db sid s q v response =
       let text := py_or (py_guarded_get response "assistant_question_text")
                         (PStr (q_text nq)) in
       Ret (_save_state db (asking c.2 nid text),
            {| r_session_id := sid; r_interview_id := None; r_message := text |})).
Proof.
  cbv zeta. rewrite advance_eq. cbv zeta.
  set (c := candidates _ d). set (chosen := choose_next _ _ _).
  destruct (id_truthy chosen) eqn:T; cbn [negb]; [right|by left].
  destruct chosen as [nid|] eqn:E; [|done].
  destruct (chosen_in_definition _ _ _ _ E) as [nq Hq].
  exists nid, nq. rewrite Hq. repeat split; try done.
  cbn in T. intros ->. done.
Qed.

(** ** Terminated sessions *)

(** C9. Once a session is terminated, every [next_step] call, whatever the
    message and whatever the agent, returns the end message and hands back
    the database as it was; so does any sequence of such calls. *)
Theorem C9_terminated_replay surveys db sid svid d s :
  surveys !! svid = Some d → db !! sid = Some s → terminated s = true →
  (∀ user_message ag,
     next_step surveys ag db sid svid user_message =
     Ret (db, {| r_session_id := sid; r_interview_id := None;
                 r_message := PStr (end_message_of d) |}))
  ∧ (∀ calls : list (option string * agent),
       foldl (λ db c, persisted db (next_step surveys c.2 db sid svid c.1)) db calls
       = db).
Proof.
  intros Hd Hs Ht.
  assert (∀ user_message ag,
     next_step surveys ag db sid svid user_message =
     Ret (db, {| r_session_id := sid; r_interview_id := None;
                 r_message := PStr (end_message_of d) |})) as Hstep.
  { intros m ag. unfold next_step, _load_state. by rewrite Hd, Hs, Ht. }
  split; [done|].
  induction calls as [|c calls IH]; [done|].
  cbn. by rewrite Hstep.
Qed.

Lemma C9_terminated_replay_witness :
  SURVEYS !! SURVEY_ID = Some CULTURE_DISCRIMINATION
  ∧ (terminated <$> finished_db !! "s1") = Some true
  ∧ next_step SURVEYS (scripted off_topic (PList [])) finished_db "s1" SURVEY_ID
      (Some "one more thing")
    = Ret (finished_db,
           {| r_session_id := "s1"; r_interview_id := None;
              r_message := PStr "The survey is complete. Please proceed to the next page.---END---" |}).
Proof.
  split; [reflexivity|]. split; [vm_compute; reflexivity|].
  destruct (finished_db !! "s1") as [s|] eqn:Hs; [|vm_compute in Hs; discriminate].
  assert (terminated s = true) as Ht.
  { assert (terminated <$> finished_db !! "s1" = Some true) as H
      by (vm_compute; reflexivity).
    rewrite Hs in H. by injection H. }
  exact (proj1 (C9_terminated_replay SURVEYS finished_db "s1" SURVEY_ID
                  CULTURE_DISCRIMINATION s eq_refl Hs Ht) _ _).
Defined.

(** ** Answer normalization *)

Lemma split_comma_nonempty s : split_comma s ≠ [].
Proof.
  destruct s as [|c s]; [done|]. cbn.
  destruct (Ascii.eqb c ","); [done|]. by destruct (split_comma s).
Qed.

Lemma join_comma_cons p pieces :
  pieces ≠ [] → join_comma (p :: pieces) = p ++ "," ++ join_comma pieces.
Proof. by destruct pieces. Qed.

Lemma join_comma_push c p pieces :
  join_comma (String c p :: pieces) = String c (join_comma (p :: pieces)).
Proof. by destruct pieces. Qed.

(** Joining the pieces of a split with commas gives the string back. *)
Lemma join_split_comma s : join_comma (split_comma s) = s.
Proof.
  induction s as [|c s IH]; [done|]. cbn [split_comma].
  pose proof (split_comma_nonempty s) as Hne.
  destruct (Ascii.eqb c ",") eqn:E.
  - apply Ascii.eqb_eq in E as ->.
    rewrite join_comma_cons by done. by rewrite IH.
  - destruct (split_comma s) as [|p ps]; [done|].
    by rewrite join_comma_push, IH.
Qed.

(** ** Strings and white space *)

Lemma chars_unchars l : chars (unchars l) = l.
Proof. induction l as [|c l IH]; [done|]. cbn. by rewrite IH. Qed.

Lemma unchars_chars s : unchars (chars s) = s.
Proof. induction s as [|c s IH]; [done|]. cbn. by rewrite IH. Qed.

Lemma chars_app s1 s2 : chars (s1 ++ s2) = (chars s1 ++ chars s2)%list.
Proof. induction s1 as [|c s1 IH]; [done|]. simpl. by rewrite IH. Qed.

Lemma chars_inj s1 s2 : chars s1 = chars s2 → s1 = s2.
Proof. intros H. by rewrite <- (unchars_chars s1), H, unchars_chars. Qed.

Lemma unchars_nil l : unchars l = "" ↔ l = [].
Proof. by destruct l. Qed.

(** The table of white-space characters: none is empty, none starts or
    ends another, and no byte after the first of one is the first byte of
    another. *)
Lemma whitespace_nonempty : Forall (λ w, w ≠ []) WHITESPACE.
Proof. apply (bool_decide_unpack _). vm_compute. exact I. Qed.

Lemma whitespace_prefix_free :
  Forall (λ w1, Forall (λ w2, w1 `prefix_of` w2 → w1 = w2) WHITESPACE) WHITESPACE.
Proof. apply (bool_decide_unpack _). vm_compute. exact I. Qed.

Lemma whitespace_suffix_free :
  Forall (λ w1, Forall (λ w2, w1 `suffix_of` w2 → w1 = w2) WHITESPACE) WHITESPACE.
Proof. apply (bool_decide_unpack _). vm_compute. exact I. Qed.

Lemma whitespace_inner_bytes :
  Forall (λ w1, Forall (λ w2, Forall (λ a, head w2 ≠ Some a) (tail w1)) WHITESPACE)
         WHITESPACE.
Proof. apply (bool_decide_unpack _). vm_compute. exact I. Qed.

Lemma whitespace_same_start w1 w2 s :
  w1 ∈ WHITESPACE → w2 ∈ WHITESPACE →
  w1 `prefix_of` s → w2 `prefix_of` s → w1 = w2.
Proof.
  intros H1 H2 P1 P2. pose proof whitespace_prefix_free as F.
  rewrite Forall_forall in F.
  destruct (prefix_weak_total _ _ _ P1 P2) as [P|P].
  - pose proof (F w1 H1) as F1. rewrite Forall_forall in F1. by apply F1.
  - pose proof (F w2 H2) as F2. rewrite Forall_forall in F2. symmetry. by apply F2.
Qed.

Lemma suffix_weak_total {A} (l1 l2 l3 : list A) :
  l1 `suffix_of` l3 → l2 `suffix_of` l3 → l1 `suffix_of` l2 ∨ l2 `suffix_of` l1.
Proof.
  rewrite !suffix_prefix_reverse. apply prefix_weak_total.
Qed.

Lemma whitespace_same_end w1 w2 s :
  w1 ∈ WHITESPACE → w2 ∈ WHITESPACE →
  w1 `suffix_of` s → w2 `suffix_of` s → w1 = w2.
Proof.
  intros H1 H2 P1 P2. pose proof whitespace_suffix_free as F.
  rewrite Forall_forall in F.
  destruct (suffix_weak_total _ _ _ P1 P2) as [P|P].
  - pose proof (F w1 H1) as F1. rewrite Forall_forall in F1. by apply F1.
  - pose proof (F w2 H2) as F2. rewrite Forall_forall in F2. symmetry. by apply F2.
Qed.

Lemma white_nil : white [].
Proof. by exists []. Qed.

Lemma white_cons w l : w ∈ WHITESPACE → white l → white (w ++ l).
Proof.
  intros Hw (ws & Hws & ->). exists (w :: ws). split; [by constructor|done].
Qed.

Lemma white_app l1 l2 : white l1 → white l2 → white (l1 ++ l2).
Proof.
  intros (ws1 & H1 & ->) (ws2 & H2 & ->). exists (ws1 ++ ws2)%list.
  split; [by apply Forall_app|]. by rewrite concat_app.
Qed.

Lemma white_snoc l w : white l → w ∈ WHITESPACE → white (l ++ w).
Proof.
  intros Hl Hw. apply white_app; [done|].
  rewrite <- (app_nil_r w). apply white_cons; [done|apply white_nil].
Qed.

Lemma no_lead_nil : no_lead [].
Proof.
  unfold no_lead. eapply Forall_impl; [apply whitespace_nonempty|].
  intros w Hw [k Hk]. by destruct w.
Qed.

Lemma no_trail_nil : no_trail [].
Proof.
  unfold no_trail. eapply Forall_impl; [apply whitespace_nonempty|].
  intros w Hw [k Hk]. symmetry in Hk. apply app_eq_nil in Hk as [_ ->]. done.
Qed.

(** What [lstrip] and [rstrip] return, given fuel for the length. *)
Lemma lstrip_spec fuel : ∀ s,
  (length s ≤ fuel)%nat →
  ∃ l, s = (l ++ lstrip fuel s)%list ∧ white l ∧ no_lead (lstrip fuel s).
Proof.
  induction fuel as [|fuel IH]; intros s Hlen.
  - destruct s; [|cbn in Hlen; lia]. exists []. cbn.
    split; [done|]. split; [apply white_nil|apply no_lead_nil].
  - cbn [lstrip].
    destruct (list_find _ WHITESPACE) as [[i w]|] eqn:E.
    + apply list_find_Some in E as (Hw%list_elem_of_lookup_2 & [k ->] & _).
      rewrite drop_app_length.
      assert (w ≠ []) as Hne.
      { pose proof whitespace_nonempty as F. rewrite Forall_forall in F. by apply F. }
      destruct (IH k) as (l & Hk & Hl & Hno).
      { rewrite length_app in Hlen. destruct w; [done|]. cbn in Hlen. lia. }
      exists (w ++ l)%list. split; [by rewrite <- app_assoc, <- Hk|].
      split; [by apply white_cons|done].
    + exists []. split; [done|]. split; [apply white_nil|].
      by apply list_find_None in E.
Qed.

Lemma rstrip_spec fuel : ∀ s,
  (length s ≤ fuel)%nat →
  ∃ r, s = (rstrip fuel s ++ r)%list ∧ white r ∧ no_trail (rstrip fuel s).
Proof.
  induction fuel as [|fuel IH]; intros s Hlen.
  - destruct s; [|cbn in Hlen; lia]. exists []. cbn.
    split; [done|]. split; [apply white_nil|apply no_trail_nil].
  - cbn [rstrip].
    destruct (list_find _ WHITESPACE) as [[i w]|] eqn:E.
    + apply list_find_Some in E as (Hw%list_elem_of_lookup_2 & [k ->] & _).
      rewrite length_app, Nat.add_sub, take_app_length.
      assert (w ≠ []) as Hne.
      { pose proof whitespace_nonempty as F. rewrite Forall_forall in F. by apply F. }
      destruct (IH k) as (r & Hk & Hr & Hno).
      { rewrite length_app in Hlen. destruct w; [done|]. cbn in Hlen. lia. }
      exists (r ++ w)%list. split; [by rewrite app_assoc, <- Hk|].
      split; [by apply white_snoc|done].
    + exists []. split; [by rewrite app_nil_r|]. split; [apply white_nil|].
      by apply list_find_None in E.
Qed.

(** White space in front of a string that starts with none is what
    [lstrip] removes. *)
Lemma lstrip_white u ws : ∀ fuel,
  Forall (λ w, w ∈ WHITESPACE) ws → no_lead u →
  (length (concat ws ++ u) ≤ fuel)%nat →
  lstrip fuel (concat ws ++ u) = u.
Proof.
  induction ws as [|w ws IH]; intros fuel Hws Hu Hlen.
  - cbn. destruct fuel as [|fuel]; [done|]. cbn [lstrip].
    by rewrite (proj2 (list_find_None _ _) Hu).
  - apply Forall_cons in Hws as [Hw Hws]. cbn [concat] in *.
    rewrite <- app_assoc in *.
    assert (w ≠ []) as Hne.
    { pose proof whitespace_nonempty as F. rewrite Forall_forall in F. by apply F. }
    destruct fuel as [|fuel].
    { rewrite length_app in Hlen. destruct w; [done|]. cbn in Hlen. lia. }
    cbn [lstrip].
    destruct (list_find _ WHITESPACE) as [[i w']|] eqn:E.
    + apply list_find_Some in E as (Hw'%list_elem_of_lookup_2 & Hp & _).
      assert (w' = w) as ->.
      { eapply whitespace_same_start; [done|done|exact Hp|]. by eexists. }
      rewrite drop_app_length. apply IH; [done|done|].
      rewrite length_app in Hlen. destruct w; [done|]. cbn in Hlen. lia.
    + apply list_find_None in E. rewrite Forall_forall in E.
      exfalso. apply (E w Hw). by eexists.
Qed.

Lemma rstrip_white t ws : ∀ fuel,
  Forall (λ w, w ∈ WHITESPACE) ws → no_trail t →
  (length (t ++ concat ws) ≤ fuel)%nat →
  rstrip fuel (t ++ concat ws) = t.
Proof.
  induction ws as [|w ws IH] using rev_ind; intros fuel Hws Ht Hlen.
  - cbn. rewrite app_nil_r. destruct fuel as [|fuel]; [done|]. cbn [rstrip].
    by rewrite (proj2 (list_find_None _ _) Ht).
  - apply Forall_app in Hws as [Hws Hw]. apply Forall_cons in Hw as [Hw _].
    rewrite concat_app in *. cbn [concat] in *. rewrite app_nil_r in *.
    rewrite !app_assoc in *.
    assert (w ≠ []) as Hne.
    { pose proof whitespace_nonempty as F. rewrite Forall_forall in F. by apply F. }
    destruct fuel as [|fuel].
    { rewrite length_app in Hlen. destruct w; [done|]. cbn in Hlen. lia. }
    cbn [rstrip].
    destruct (list_find _ WHITESPACE) as [[i w']|] eqn:E.
    + apply list_find_Some in E as (Hw'%list_elem_of_lookup_2 & Hp & _).
      assert (w' = w) as ->.
      { eapply whitespace_same_end; [done|done|exact Hp|]. by eexists. }
      rewrite length_app, Nat.add_sub, take_app_length. apply IH; [done|done|].
      rewrite length_app in Hlen. destruct w; [done|]. cbn in Hlen. lia.
    + apply list_find_None in E. rewrite Forall_forall in E.
      exfalso. apply (E w Hw). by eexists.
Qed.

(** White space after a string that is not empty and starts with none
    gives it no white space at the start. *)
Lemma no_lead_app t r : t ≠ [] → no_lead t → white r → no_lead (t ++ r).
Proof.
  intros Hne Ht (ws & Hws & ->). unfold no_lead in *.
  rewrite Forall_forall in Ht |- *. intros w Hw Hp.
  destruct (prefix_weak_total w t (t ++ concat ws) Hp) as [P|[x ->]];
    [by eexists|by apply (Ht w Hw)|].
  apply prefix_app_inv in Hp.
  destruct x as [|a x].
  { rewrite app_nil_r in Hw. by apply (Ht t Hw). }
  destruct t as [|b t]; [done|].
  assert (a ∈ tail ((b :: t) ++ a :: x)) as Ha.
  { cbn. apply elem_of_app. right. by left. }
  assert (∃ w2, w2 ∈ WHITESPACE ∧ head w2 = Some a) as (w2 & Hw2 & Hh).
  { clear -Hp Hws. induction Hws as [|w2 ws Hw2 Hws IH].
    - cbn in Hp. by apply prefix_nil_inv in Hp.
    - cbn [concat] in Hp. destruct w2 as [|c w2].
      + apply IH. exact Hp.
      + exists (c :: w2). split; [done|].
        cbn in Hp. apply prefix_cons_inv_1 in Hp as ->. done. }
  pose proof whitespace_inner_bytes as F. rewrite Forall_forall in F.
  pose proof (F _ Hw) as F1. rewrite Forall_forall in F1.
  pose proof (F1 _ Hw2) as F2. rewrite Forall_forall in F2.
  by apply (F2 a Ha).
Qed.

Lemma no_lead_prefix t u : t `prefix_of` u → no_lead u → no_lead t.
Proof.
  intros Hp Hu. unfold no_lead in *. eapply Forall_impl; [exact Hu|].
  intros w Hn Hw. apply Hn. by etrans.
Qed.

(** [strip] trims, and what trims is [strip]. *)
Lemma trimmed_strip p : trimmed p (strip p).
Proof.
  unfold strip, trimmed. cbv zeta.
  destruct (lstrip_spec (length (chars p)) (chars p)) as (l & Hl & Hwl & Hno);
    [done|].
  set (b := lstrip _ _) in *.
  destruct (rstrip_spec (length b) b) as (r & Hr & Hwr & Hnt); [done|].
  exists l, r. rewrite chars_unchars. split; [by rewrite <- Hr|].
  split; [done|]. split; [done|]. split; [|done].
  apply (no_lead_prefix _ b); [|done]. by exists r.
Qed.

Lemma trimmed_unique p t : trimmed p t → strip p = t.
Proof.
  intros (l & r & Hp & (wl & Hwl & ->) & Hr & [Hnl Hnt]).
  unfold strip. cbv zeta. rewrite Hp.
  destruct (decide (chars t = [])) as [E|Hne].
  - rewrite E in *. cbn [app] in *.
    destruct Hr as (wr & Hwr & ->).
    assert (lstrip (length (concat wl ++ concat wr)) (concat wl ++ concat wr) = [])
      as ->.
    { rewrite <- concat_app.
      pose proof (lstrip_white [] (wl ++ wr)) as H. rewrite app_nil_r in H.
      apply H; [by apply Forall_app|apply no_lead_nil|done]. }
    cbn. apply chars_inj. by rewrite E.
  - rewrite lstrip_white; [|done|by apply no_lead_app|done].
    destruct Hr as (wr & Hwr & ->).
    rewrite rstrip_white; [apply unchars_chars|done|done|done].
Qed.

(** *** Splitting on commas *)

Lemma split_comma_no_comma s p : p ∈ split_comma s → ","%char ∉ chars p.
Proof.
  revert p. induction s as [|c s IH]; intros p; cbn [split_comma].
  - intros ->%list_elem_of_singleton. cbn. apply not_elem_of_nil.
  - destruct (Ascii.eqb c ",") eqn:E.
    + intros [->|H]%elem_of_cons; [cbn; apply not_elem_of_nil|by apply IH].
    + apply Ascii.eqb_neq in E.
      destruct (split_comma s) as [|piece pieces].
      * intros ->%list_elem_of_singleton. cbn.
        intros [?|?%elem_of_nil]%elem_of_cons; [congruence|done].
      * intros [->|H]%elem_of_cons.
        -- cbn [chars]. intros [?|H]%elem_of_cons; [congruence|].
           by apply (IH piece); [apply list_elem_of_here|].
        -- apply IH. by apply list_elem_of_further.
Qed.

Lemma split_comma_plain p : ","%char ∉ chars p → split_comma p = [p].
Proof.
  induction p as [|c p IH]; [done|]. cbn [chars split_comma]. intros H.
  apply not_elem_of_cons in H as [Hc H].
  destruct (Ascii.eqb c ",") eqn:E; [apply Ascii.eqb_eq in E; congruence|].
  by rewrite IH.
Qed.

Lemma split_comma_app p s :
  ","%char ∉ chars p → split_comma (p ++ String "," s) = p :: split_comma s.
Proof.
  induction p as [|c p IH]; [done|]. cbn [chars]. intros H.
  apply not_elem_of_cons in H as [Hc H].
  change (String c p ++ String "," s) with (String c (p ++ String "," s)).
  cbn [split_comma].
  destruct (Ascii.eqb c ",") eqn:E; [apply Ascii.eqb_eq in E; congruence|].
  by rewrite IH.
Qed.

(** Splitting a comma-joined list of comma-free pieces gives the pieces
    back. *)
Lemma split_join_comma pieces :
  pieces ≠ [] → Forall (λ p, ","%char ∉ chars p) pieces →
  split_comma (join_comma pieces) = pieces.
Proof.
  induction pieces as [|p pieces IH]; [done|]. intros _ H.
  apply Forall_cons in H as [Hp H].
  destruct pieces as [|p' rest]; [by apply split_comma_plain|].
  rewrite join_comma_cons by done.
  change ("," ++ join_comma (p' :: rest)) with (String "," (join_comma (p' :: rest))).
  rewrite split_comma_app by done. by rewrite IH.
Qed.

Lemma comma_tokens_filter s :
  comma_tokens s = filter (λ t, t ≠ "") (strip <$> split_comma s).
Proof.
  unfold comma_tokens. induction (split_comma s) as [|p ps IH]; [done|].
  cbn [omap list_omap fmap list_fmap]. rewrite filter_cons.
  destruct (String.eqb (strip p) "") eqn:E.
  - apply String.eqb_eq in E. rewrite decide_False by (intros H; by apply H).
    exact IH.
  - apply String.eqb_neq in E. rewrite decide_True by done. by rewrite IH.
Qed.

Lemma split_on_commas_split s : split_on_commas s (split_comma s).
Proof.
  split; [apply split_comma_nonempty|].
  split; [|apply join_split_comma].
  rewrite Forall_forall. apply split_comma_no_comma.
Qed.

Lemma split_on_commas_unique s pieces :
  split_on_commas s pieces → pieces = split_comma s.
Proof. intros (Hne & Hc & <-). symmetry. by apply split_join_comma. Qed.

Lemma trimmed_tokens_strip s : trimmed_tokens s (strip <$> split_comma s).
Proof.
  exists (split_comma s). split; [apply split_on_commas_split|].
  apply Forall2_fmap_r, Forall_Forall2_diag, Forall_forall.
  intros p _. apply trimmed_strip.
Qed.

Lemma trimmed_tokens_unique s tokens :
  trimmed_tokens s tokens → tokens = strip <$> split_comma s.
Proof.
  intros (ps & Hps & H). apply split_on_commas_unique in Hps as <-.
  induction H as [|p t ps ts Hpt _ IH]; [done|]. cbn.
  by rewrite (trimmed_unique p t Hpt), IH.
Qed.

(** The tokens the code computes are the non-empty trimmed tokens, and
    there are no others. *)
Lemma tokens_exist s : nonempty_trimmed_tokens s (comma_tokens s).
Proof.
  exists (strip <$> split_comma s). split; [apply trimmed_tokens_strip|].
  apply comma_tokens_filter.
Qed.

Lemma tokens_unique s tokens :
  nonempty_trimmed_tokens s tokens → tokens = comma_tokens s.
Proof.
  intros (all & ->%trimmed_tokens_unique & ->). symmetry. apply comma_tokens_filter.
Qed.

Lemma forallb_all_options q items :
  forallb (λ opt, py_in opt (q_options q)) items = true ↔ all_options q items.
Proof.
  unfold all_options. rewrite forallb_forall, Forall_forall.
  split; intros H x Hx.
  - apply py_in_true, H. by apply list_elem_of_In.
  - apply py_in_true, H. by apply list_elem_of_In.
Qed.

Lemma normalize_multi_choice_list q raw items :
  q_type q = multi_choice → py_eq_str raw "SKIP" = false →
  multi_choice_items raw = Some items →
  _normalize_answer q raw =
  if forallb (λ opt, py_in opt (q_options q)) items
  then (PList items, true, false) else (PList [], false, true).
Proof.
  intros Ht Hs Hi. unfold _normalize_answer. rewrite Hs, Ht.
  destruct raw; cbn in Hi; try done; by injection Hi as <-.
Qed.

Lemma normalize_skip q raw :
  py_eq_str raw "SKIP" = true → _normalize_answer q raw = (PStr "SKIP", true, false).
Proof. intros H. unfold _normalize_answer. by rewrite H. Qed.

Lemma multi_choice_rule_holds q raw :
  q_type q = multi_choice → py_eq_str raw "SKIP" = false → multi_choice_rule q raw.
Proof.
  intros Ht Hs. split; [|split].
  - intros s _. exists (comma_tokens s). apply tokens_exist.
  - intros items Hres.
    assert (multi_choice_items raw = Some items) as Hi.
    { destruct raw; cbn in Hres; try done.
      - destruct Hres as (ts & ->%tokens_unique & ->). done.
      - by subst. }
    rewrite (normalize_multi_choice_list q raw items Ht Hs Hi).
    destruct (forallb _ items) eqn:F.
    + split; [done|]. apply forallb_all_options in F. tauto.
    + split; [|done]. intros [_ H%forallb_all_options]. congruence.
  - intros Hno. unfold _normalize_answer. rewrite Hs, Ht.
    destruct raw; try done.
    + exfalso. eapply Hno. cbn. eexists. split; [apply tokens_exist|done].
    + exfalso. by eapply Hno.
Qed.

(** C6, amended. For a [multi_choice] question: the sentinel "SKIP" is
    returned as it is, valid.  For any other raw value, a string is split
    on commas into trimmed tokens, those that are empty once trimmed being
    left out; the resulting list (or the raw value when it is already a
    list) is returned as valid exactly when every element is one of the
    question's options, whatever its length; any other raw value gives an
    empty list, invalid, with clarification flagged.  In particular
    "Manager, Colleague" gives the list of the two options. *)
Theorem C6_multi_choice_normalize q raw :
  q_type q = multi_choice →
  (py_eq_str raw "SKIP" = true →
   _normalize_answer q raw = (PStr "SKIP", true, false))
  ∧ (py_eq_str raw "SKIP" = false → multi_choice_rule q raw)
  ∧ ("Manager" ∈ q_options q → "Colleague" ∈ q_options q →
     _normalize_answer q (PStr "Manager, Colleague")
     = (PList [PStr "Manager"; PStr "Colleague"], true, false)).
Proof.
  intros Ht. split; [apply normalize_skip|]. split.
  - by apply multi_choice_rule_holds.
  - intros Hm Hc.
    assert (multi_choice_items (PStr "Manager, Colleague")
            = Some [PStr "Manager"; PStr "Colleague"]) as Hi
      by (vm_compute; reflexivity).
    rewrite (normalize_multi_choice_list q (PStr "Manager, Colleague") _ Ht eq_refl Hi).
    assert (all_options q [PStr "Manager"; PStr "Colleague"]) as H.
    { repeat constructor; eauto. }
    apply forallb_all_options in H. by rewrite H.
Qed.

Lemma C6_multi_choice_normalize_witness :
  q_type Q2 = multi_choice ∧ py_eq_str (PStr "Manager, Colleague") "SKIP" = false
  ∧ multi_choice_rule Q2 (PStr "Manager, Colleague").
Proof.
  split; [reflexivity|]. split; [reflexivity|].
  exact (proj1 (proj2 (C6_multi_choice_normalize Q2 (PStr "Manager, Colleague")
                         eq_refl)) eq_refl).
Defined.

(** C6 as stated fails on a string with nothing between two commas.  Of
    "Manager,,Colleague" the trimmed tokens are "Manager", the empty string
    and "Colleague"; the empty string is no option of [Q2], so the claim
    has the value rejected, whatever "non-empty-able" is taken to mean; the
    code leaves the empty token out and accepts the other two.  And if
    "non-empty-able" is taken to mean non-empty, the claim has the empty
    list rejected, which the code accepts. *)
Lemma C6_counterexample_empty_token :
  q_type Q2 = multi_choice
  ∧ _normalize_answer Q2 (PStr "Manager,,Colleague")
    = (PList [PStr "Manager"; PStr "Colleague"], true, false)
  ∧ (∀ able, ¬ multi_choice_rule_as_claimed able Q2 (PStr "Manager,,Colleague"))
  ∧ _normalize_answer Q2 (PList []) = (PList [], true, false)
  ∧ ¬ multi_choice_rule_as_claimed (λ items, items ≠ []) Q2 (PList []).
Proof.
  assert (_normalize_answer Q2 (PStr "Manager,,Colleague")
          = (PList [PStr "Manager"; PStr "Colleague"], true, false)) as E
    by (vm_compute; reflexivity).
  split; [reflexivity|]. split; [exact E|]. split; [|split; [reflexivity|]].
  - intros able (_ & H & _).
    destruct (H [PStr "Manager"; PStr ""; PStr "Colleague"]) as [_ Hinv].
    { exists ["Manager"; ""; "Colleague"]. split; [|done].
      assert (strip <$> split_comma "Manager,,Colleague" = ["Manager"; ""; "Colleague"])
        as <- by (vm_compute; reflexivity).
      apply trimmed_tokens_strip. }
    rewrite E in Hinv. discriminate Hinv. intros [_ Ha].
    apply Forall_cons in Ha as [_ Ha]. apply Forall_cons in Ha as [(o & [= <-] & Ho) _].
    vm_compute in Ho. repeat (apply elem_of_cons in Ho as [Ho|Ho]; [discriminate Ho|]).
    by apply elem_of_nil in Ho.
  - intros (_ & H & _). destruct (H [] eq_refl) as [_ Hinv].
    discriminate Hinv. by intros [? _].
Qed.

(** ** Reading the port's response *)

Arguments _normalize_answer : simpl never.

Lemma normalize_invalid_flags q v :
  (_normalize_answer q v).1.2 = false → (_normalize_answer q v).2 = true.
Proof.
  unfold _normalize_answer. destruct (py_eq_str v "SKIP"); [done|].
  destruct (q_type q), v; cbn; try done;
    try (destruct (py_in _ _); done);
    destruct (forallb _ _); done.
Qed.

(** A response that is not a dict makes the unguarded
    [response.get("need_clarification")] raise. *)
Lemma interpret_non_dict q response :
  (∀ fields, response ≠ PDict fields) →
  interpret q response = Raise AttributeError.
Proof.
  intros H. unfold interpret.
  destruct response as [| | | | | |fields]; [..|by destruct (H fields)];
    cbn; by destruct (_normalize_answer q PNone) as [[? ?] ?].
Qed.

(** A dict whose ["parsed_answer"] is present but not a dict makes
    [parsed_answer.get("value")] raise. *)
Lemma interpret_bad_parsed_answer q fields pa :
  assoc "parsed_answer" fields = Some pa → (∀ inner, pa ≠ PDict inner) →
  interpret q (PDict fields) = Raise AttributeError.
Proof.
  intros Hpa H. unfold interpret, dict_get. rewrite Hpa.
  destruct pa as [| | | | | |inner]; try done. by destruct (H inner).
Qed.


(** When the normalizer rejects the value a dict response carries, the turn
    clarifies, whatever the response says about clarification. *)
Lemma interpret_invalid_clarifies q fields v :
  py_call_get (dict_get fields "parsed_answer" (PDict [])) "value" = Ret v →
  (_normalize_answer q v).1.2 = false →
  interpret q (PDict fields) =
  Ret (inl (py_or (dict_get fields "clarification_question" PNone)
                  (PStr (q_text q)))).
Proof.
  intros Hv Hinv. unfold interpret. rewrite Hv. cbn [exc_bind].
  pose proof (normalize_invalid_flags q v Hinv) as Hn.
  destruct (_normalize_answer q v) as [[nv valid] needs]. cbn in Hinv, Hn. subst.
  cbn [py_call_get exc_bind]. cbn [negb andb].
  assert (py_truthy (py_or (dict_get fields "need_clarification" PNone) (PBool true))
          = true) as E.
  { unfold py_or. by destruct (py_truthy (dict_get _ _ _)) eqn:E. }
  rewrite E. cbn [negb]. by rewrite E.
Qed.

(** An accepted answer is a valid one. *)
Lemma interpret_accepts q response v :
  interpret q response = Ret (inr v) →
  ∃ fields raw, response = PDict fields
    ∧ py_call_get (dict_get fields "parsed_answer" (PDict [])) "value" = Ret raw
    ∧ _normalize_answer q raw = (v, true, false)
    ∧ py_truthy (dict_get fields "need_clarification" PNone) = false.
Proof.
  unfold interpret. intros H.
  destruct response as [| | | | | |fields];
    [cbn in H; by destruct (_normalize_answer q PNone) as [[? ?] ?]..|].
  exists fields. destruct (py_call_get _ "value") as [raw|] eqn:Hr; [|done].
  exists raw. cbn [exc_bind] in H.
  pose proof (normalize_invalid_flags q raw) as Hflag.
  destruct (_normalize_answer q raw) as [[nv valid] needs]. cbn in H, Hflag.
  unfold py_or in H.
  destruct (py_truthy (dict_get fields "need_clarification" PNone)) eqn:F.
  - rewrite F in H. rewrite andb_false_r in H. rewrite F in H. done.
  - cbn in H. destruct needs; [by destruct valid|]. rewrite andb_true_r in H.
    destruct valid; cbn in H; [|done]. by injection H as <-.
Qed.

(** The fallback dict of [survey_step] always leads to a clarification of
    the current question. *)
Lemma interpret_fallback st d q :
  l_current_question_id st ≫= (λ i, _get_question_map d !! i) = Some q →
  interpret q (survey_step_fallback st d) =
  Ret (inl (py_or (PStr (q_text q)) (PStr "Could you clarify your answer?"))).
Proof.
  intros Hq. unfold survey_step_fallback. rewrite Hq.
  unfold interpret. cbn.
  destruct (_normalize_answer q (PStr "SKIP")) as [[nv valid] needs].
  rewrite andb_false_r. cbn. do 2 f_equal.
  unfold py_or. cbn.
  destruct (String.eqb (q_text q) "") eqn:E; cbn; [done|]. by rewrite E.
Qed.

(** C1. The port returns a value that is not a dict (here the JSON list
    [[]], on the first answer of a session of the shipped survey): the turn
    raises [AttributeError] instead of returning a result.  So does a dict
    whose ["parsed_answer"] is null. *)
Theorem C1_non_dict_response_raises :
  next_step SURVEYS (scripted on_topic (PList [])) opened_db "s1" SURVEY_ID
    (Some "Yes") = Raise AttributeError
  ∧ next_step SURVEYS
      (scripted on_topic (PDict [("parsed_answer", PNone);
                                 ("need_clarification", PBool true)]))
      opened_db "s1" SURVEY_ID (Some "Yes") = Raise AttributeError.
Proof. split; vm_compute; reflexivity. Qed.

(** C5. The port returns the JSON string "?" where a dict is expected: the
    parsed value is [None], which the normalizer reports invalid for the
    current question [Q1], and the turn raises [AttributeError] where the
    clarification flag should have been forced on. *)
Theorem C5_invalid_answer_raises :
  (_normalize_answer Q1 PNone).1.2 = false
  ∧ next_step SURVEYS (scripted on_topic (PStr "?")) opened_db "s1" SURVEY_ID
      (Some "Maybe") = Raise AttributeError.
Proof. split; vm_compute; reflexivity. Qed.

(** ** The gate of a turn *)

Lemma turn_gate_off_topic ag d s m s1 :
  turn_gate ag d s m = GateOffTopic s1 →
  terminated s = false ∧ s1 = _mark_conditionally_skipped s d
  ∧ _moderate_answer ag d m (history s) = false.
Proof.
  unfold turn_gate. destruct (terminated s); [done|].
  destruct (_moderate_answer _ _ _ _) eqn:M; cbn.
  - by destruct (_ ≫= _).
  - by intros [= <-].
Qed.

Lemma turn_gate_lost ag d s m s1 :
  turn_gate ag d s m = GateLost s1 →
  terminated s = false ∧ s1 = _mark_conditionally_skipped s d.
Proof.
  unfold turn_gate. destruct (terminated s); [done|].
  destruct (negb _); [done|]. destruct (_ ≫= _); [done|]. by intros [= <-].
Qed.

Lemma turn_gate_ask ag d s m s1 q :
  turn_gate ag d s m = GateAsk s1 q →
  terminated s = false
  ∧ s1 = _append_history (_mark_conditionally_skipped s d) user
           (PStr (message_text m)) (Some (q_id q))
  ∧ (∃ c, current_question_id s = Some c ∧ _get_question_map d !! c = Some q)
  ∧ _moderate_answer ag d m (history s) = true.
Proof.
  unfold turn_gate. destruct (terminated s); [done|].
  destruct (_moderate_answer _ _ _ _) eqn:M; cbn; [|done].
  destruct (_ ≫= _) as [q'|] eqn:E; [|done]. intros [= <- <-].
  repeat split; try done. cbn in E.
  destruct (current_question_id s) as [c|]; [|done]. cbn in E. eauto.
Qed.

Lemma turn_gate_replay ag d s m :
  turn_gate ag d s m = GateReplay → terminated s = true.
Proof.
  unfold turn_gate. destruct (terminated s); [done|].
  destruct (negb _); [done|]. by destruct (_ ≫= _).
Qed.

(** ** The current question is the one being asked *)

Lemma begin_session_eq surveys db sid svid d :
  surveys !! svid = Some d →
  begin_session surveys db sid svid =
  let n := _deterministic_next_question (_initial_state sid svid d) d in
  if negb (id_truthy n.1) then
    Ret (_save_state db (ending n.2 d),
         {| r_session_id := sid; r_interview_id := Some svid;
            r_message := PStr (end_message_of d) |})
  else
    match n.1 with
    | None => Raise KeyError
    | Some nid =>
        match _get_question_map d !! nid with
        | None => Raise KeyError
        | Some q =>
            let text := PStr (_render_intro_and_question d q) in
            Ret (_save_state db (asking n.2 nid text),
                 {| r_session_id := sid; r_interview_id := Some svid;
                    r_message := text |})
        end
    end.
Proof.
  intros Hd. unfold begin_session. rewrite Hd.
  destruct (_deterministic_next_question _ d) as [n s']. cbn [fst snd]. cbv zeta.
  destruct (negb _); [done|]. destruct n as [nid|]; [|done].
  by destruct (_get_question_map d !! nid).
Qed.

Lemma current_asked_ending s d : current_asked (ending s d).
Proof. intros H. done. Qed.

Lemma current_asked_asking s nid text : current_asked (asking s nid text).
Proof. intros _ q [= <-]. cbn. apply lookup_insert_eq. Qed.

Lemma current_asked_mark s d :
  current_asked s → current_asked (_mark_conditionally_skipped s d).
Proof.
  intros H Ht q Hq. apply mark_status_keep; [|done]. by apply H.
Qed.

Lemma current_asked_append s r c qid :
  current_asked s → current_asked (_append_history s r c qid).
Proof. done. Qed.

Lemma db_ok_save db s : db_ok db → current_asked s → db_ok (_save_state db s).
Proof.
  intros [Hk Hc] Hs. unfold _save_state. split.
  - intros sid s' H. destruct (decide (session_id s = sid)) as [<-|Hne].
    + rewrite lookup_insert_eq in H. by injection H as <-.
    + rewrite lookup_insert_ne in H by done. by apply Hk.
  - intros sid s' H. destruct (decide (session_id s = sid)) as [<-|Hne].
    + rewrite lookup_insert_eq in H. by injection H as <-.
    + rewrite lookup_insert_ne in H by done. by eapply Hc.
Qed.

Lemma db_ok_empty : db_ok ∅.
Proof. split; intros sid s H; by rewrite lookup_empty in H. Qed.

Lemma begin_session_ok surveys db sid svid :
  db_ok db → db_ok (persisted db (begin_session surveys db sid svid)).
Proof.
  intros Hdb. destruct (surveys !! svid) as [d|] eqn:Hd.
  - rewrite (begin_session_eq _ _ _ _ d Hd). cbv zeta.
    destruct (negb _).
    + apply db_ok_save; [done|]. apply current_asked_ending.
    + destruct (_deterministic_next_question _ d).1 as [nid|]; [|done].
      destruct (_get_question_map d !! nid); [|done].
      apply db_ok_save; [done|]. apply current_asked_asking.
  - unfold begin_session. by rewrite Hd.
Qed.

Lemma next_step_ok surveys ag db sid svid m :
  db_ok db → db_ok (persisted db (next_step surveys ag db sid svid m)).
Proof.
  intros Hdb. rewrite next_step_unfold.
  destruct (surveys !! svid) as [d|] eqn:Hd; [|done].
  destruct (db !! sid) as [s|] eqn:Hs; [|by apply begin_session_ok].
  assert (current_asked s) as Hc by (by eapply (proj2 Hdb)).
  destruct (turn_gate ag d s m) as [|s1|s1|s1 q] eqn:G.
  - done.
  - apply turn_gate_off_topic in G as (_ & -> & _).
    apply db_ok_save; [done|]. by apply current_asked_append, current_asked_mark.
  - apply db_ok_save; [done|]. apply current_asked_ending.
  - apply turn_gate_ask in G as (_ & -> & _ & _). cbv zeta.
    destruct (interpret q _) as [[text|v]|]; cbn [exc_bind]; [| |done].
    + apply db_ok_save; [done|].
      by apply current_asked_append, current_asked_append, current_asked_mark.
    + match goal with |- context [advance d db sid ?s0 q v ?r] =>
        destruct (advance_returns d db sid s0 q v r) as [[_ ->]|(nid & nq & _ & _ & _ & ->)]
      end.
      * apply db_ok_save; [done|]. apply current_asked_ending.
      * apply db_ok_save; [done|]. apply current_asked_asking.
Qed.

Lemma exec_calls_ok surveys calls : ∀ db,
  db_ok db → db_ok (exec_calls surveys db calls).
Proof.
  induction calls as [|c calls IH]; intros db Hdb; [done|].
  cbn. apply IH. destruct c as [sid svid|sid svid m ag]; cbn.
  - by apply begin_session_ok.
  - by apply next_step_ok.
Qed.

(** C3, amended. After any sequence of [begin_session] and [next_step]
    calls on an empty database, for any sessions and agents: in every
    persisted state that is not terminated, the current question, if set,
    has status [asked]. *)
Theorem C3_current_question_is_asked surveys calls sid s q :
  exec_calls surveys ∅ calls !! sid = Some s →
  terminated s = false →
  current_question_id s = Some q →
  question_status s !! q = Some asked.
Proof.
  intros Hs Ht Hq.
  destruct (exec_calls_ok surveys calls ∅ db_ok_empty) as [_ H].
  by apply (H sid s Hs).
Qed.

Lemma C3_current_question_is_asked_witness :
  ∃ s, opened_db !! "s1" = Some s ∧ terminated s = false
       ∧ current_question_id s = Some "Q1"
       ∧ question_status s !! "Q1" = Some asked.
Proof.
  destruct (opened_db !! "s1") as [s|] eqn:Hs; [|vm_compute in Hs; discriminate].
  assert (terminated <$> opened_db !! "s1" = Some false) as Ht
    by (vm_compute; reflexivity).
  assert (current_question_id <$> opened_db !! "s1" = Some (Some "Q1")) as Hq
    by (vm_compute; reflexivity).
  rewrite Hs in Ht, Hq. injection Ht as Ht. injection Hq as Hq.
  exists s. split; [reflexivity|]. split; [exact Ht|]. split; [exact Hq|].
  exact (C3_current_question_is_asked SURVEYS [CallBegin "s1" SURVEY_ID] "s1" s "Q1"
           Hs Ht Hq).
Defined.

(** C3 as stated fails once the survey is over: the last turn stores the
    answer to [Q7], finds no further question and terminates, leaving
    [current_question_id] on [Q7], whose status is now [answered]. *)
Lemma C3_counterexample_after_last_answer :
  ∃ s, finished_db !! "s1" = Some s ∧ ¬ current_always_asked s.
Proof.
  destruct (finished_db !! "s1") as [s|] eqn:Hs; [|vm_compute in Hs; discriminate].
  exists s. split; [done|]. intros H.
  assert (current_question_id <$> finished_db !! "s1" = Some (Some "Q7")) as Hq
    by (vm_compute; reflexivity).
  assert ((finished_db !! "s1") ≫= (λ s, question_status s !! "Q7") = Some answered)
    as Hst by (vm_compute; reflexivity).
  rewrite Hs in Hq, Hst. injection Hq as Hq. cbn in Hst.
  specialize (H "Q7" Hq). congruence.
Qed.

(** ** Skip marking is up to date in every persisted state *)

Lemma settled_ending s d : settled d s → settled d (ending s d).
Proof. done. Qed.

Lemma settled_append d s r c qid : settled d s → settled d (_append_history s r c qid).
Proof. done. Qed.

Lemma settled_asking d s nid text : settled d s → settled d (asking s nid text).
Proof.
  intros H i q Hi Hq. cbn in Hi |- *. apply (H i q); [|done].
  destruct (decide (nid = i)) as [->|Hne].
  - by rewrite lookup_insert_eq in Hi.
  - by rewrite lookup_insert_ne in Hi.
Qed.

Lemma slot_ok_save d sid db s :
  session_id s = sid → settled d s → slot_ok d sid (_save_state db s).
Proof.
  intros Hid Hs s' H. unfold _save_state in H. rewrite Hid in H.
  rewrite lookup_insert_eq in H. by injection H as <-.
Qed.

Lemma initial_session_id sid svid d : session_id (_initial_state sid svid d) = sid.
Proof. done. Qed.

Lemma begin_session_slot surveys db sid svid d :
  surveys !! svid = Some d → slot_ok d sid db →
  slot_ok d sid (persisted db (begin_session surveys db sid svid)).
Proof.
  intros Hd Hdb. rewrite (begin_session_eq _ _ _ _ d Hd). cbv zeta.
  pose proof (deterministic_next_question_settled (_initial_state sid svid d) d) as Hs.
  pose proof (deterministic_next_question_frame (_initial_state sid svid d) d)
    as (Hid & _).
  destruct (negb _).
  - apply slot_ok_save; [done|]. by apply settled_ending.
  - destruct (_deterministic_next_question _ d).1 as [nid|]; [|done].
    destruct (_get_question_map d !! nid); [|done].
    apply slot_ok_save; [done|]. by apply settled_asking.
Qed.

Lemma store_answer_session s q v : session_id (_store_answer s q v) = session_id s.
Proof. done. Qed.

Lemma next_step_slot surveys ag db sid svid d m :
  surveys !! svid = Some d → slot_ok d sid db →
  slot_ok d sid (persisted db (next_step surveys ag db sid svid m)).
Proof.
  intros Hd Hdb. rewrite next_step_unfold, Hd.
  destruct (db !! sid) as [s|] eqn:Hs; [|by apply begin_session_slot].
  destruct (Hdb s Hs) as [Hid Hset].
  pose proof (mark_settled s d) as Hm.
  destruct (turn_gate ag d s m) as [|s1|s1|s1 q] eqn:G.
  - done.
  - apply turn_gate_off_topic in G as (_ & -> & _).
    apply slot_ok_save; [done|]. by apply settled_append.
  - apply turn_gate_lost in G as (_ & ->).
    apply slot_ok_save; [done|]. by apply settled_ending.
  - apply turn_gate_ask in G as (_ & -> & _ & _). cbv zeta.
    destruct (interpret q _) as [[text|v]|]; cbn [exc_bind]; [| |done].
    + apply slot_ok_save; [done|]. by do 2 apply settled_append.
    + match goal with |- context [advance d db sid ?s0 q v ?r] =>
        pose proof (candidates_settled (_store_answer s0 q v) d) as Hc;
        pose proof (candidates_frame (_store_answer s0 q v) d) as (Hcid & _);
        destruct (advance_returns d db sid s0 q v r) as [[_ ->]|(nid & nq & _ & _ & _ & ->)]
      end.
      * apply slot_ok_save; [by rewrite <- Hid|]. by apply settled_ending.
      * apply slot_ok_save; [by rewrite <- Hid|]. by apply settled_asking.
Qed.

Lemma exec_session_slot surveys sid svid d calls : ∀ db,
  surveys !! svid = Some d → slot_ok d sid db →
  slot_ok d sid (exec_session surveys sid svid db calls).
Proof.
  induction calls as [|c calls IH]; intros db Hd Hdb; [done|].
  cbn. apply IH; [done|]. by apply next_step_slot.
Qed.

Lemma slot_ok_empty d sid : slot_ok d sid ∅.
Proof. intros s H. by rewrite lookup_empty in H. Qed.

(** ** Moderation *)

(** The agent enters a turn through the verdict of the gate and through
    the port alone. *)
Lemma next_step_agent_ext surveys ag ag' db sid svid m :
  survey_step ag' = survey_step ag →
  (∀ d h, surveys !! svid = Some d →
          _moderate_answer ag' d m h = _moderate_answer ag d m h) →
  next_step surveys ag' db sid svid m = next_step surveys ag db sid svid m.
Proof.
  intros Hport Hgate. unfold next_step.
  destruct (surveys !! svid) as [d|] eqn:Hd; [|done].
  destruct (_load_state db sid) as [s|]; [|done].
  destruct (terminated s); [done|].
  rewrite (Hgate d _ eq_refl). destruct (negb _); [done|].
  destruct (_ ≫= _) as [q|]; [|done]. cbv zeta. by rewrite Hport.
Qed.

(** C7, amended. In a session of a survey, on a state the engine has
    persisted and that is not terminated: the moderation check is consulted
    only when the call carries a message and the definition sets
    [moderate_answers]; when it is consulted and reports the message
    off-topic, the turn appends the reminder to the transcript, tied to the
    current question, saves, and returns the reminder, with no answer
    recorded and no question status or [current_question_id] changed.
    Without a message, or without [moderate_answers], the verdict of the
    check has no influence on the turn. *)
Theorem C7_moderation_gate surveys sid svid d calls s ag m :
  surveys !! svid = Some d →
  exec_session surveys sid svid ∅ calls !! sid = Some s →
  terminated s = false →
  let db := exec_session surveys sid svid ∅ calls in
  (moderate_answers d = true → review_answer ag m (history s) = false →
   reminded d db sid s (next_step surveys ag db sid svid (Some m)))
  ∧ (moderate_answers d = false → ∀ ag', survey_step ag' = survey_step ag →
     next_step surveys ag' db sid svid (Some m)
     = next_step surveys ag db sid svid (Some m))
  ∧ (∀ ag', survey_step ag' = survey_step ag →
     next_step surveys ag' db sid svid None = next_step surveys ag db sid svid None).
Proof.
  intros Hd Hs Ht. cbv zeta. split; [|split].
  - intros Hmod Hrev.
    destruct (exec_session_slot surveys sid svid d calls ∅ Hd (slot_ok_empty d sid) s Hs)
      as [Hid Hset].
    unfold reminded. rewrite next_step_unfold, Hd, Hs.
    unfold turn_gate. rewrite Ht, (settled_mark s d Hset).
    unfold _moderate_answer. rewrite Hmod, Hrev. cbn.
    unfold _off_topic_response, _save_state. cbn. by rewrite Hid.
  - intros Hmod ag' Hport. apply next_step_agent_ext; [done|].
    intros d' h Hd'. rewrite Hd in Hd'. injection Hd' as <-.
    unfold _moderate_answer. by rewrite Hmod.
  - intros ag' Hport. by apply next_step_agent_ext.
Qed.

Lemma C7_moderation_gate_witness :
  ∃ s, let db := exec_session MODERATED_SURVEYS "s1" "MODERATED" ∅
                   [(None, scripted on_topic PNone)] in
       db !! "s1" = Some s ∧ terminated s = false
       ∧ reminded MODERATED db "s1" s
           (next_step MODERATED_SURVEYS (scripted off_topic PNone) db "s1"
              "MODERATED" (Some "What is the weather like?")).
Proof.
  cbv zeta.
  destruct (exec_session MODERATED_SURVEYS "s1" "MODERATED" ∅
              [(None, scripted on_topic PNone)] !! "s1") as [s|] eqn:Hs;
    [|vm_compute in Hs; discriminate].
  assert (terminated <$> exec_session MODERATED_SURVEYS "s1" "MODERATED" ∅
            [(None, scripted on_topic PNone)] !! "s1" = Some false) as Ht
    by (vm_compute; reflexivity).
  rewrite Hs in Ht. injection Ht as Ht.
  exists s. split; [done|]. split; [done|].
  exact (proj1 (C7_moderation_gate MODERATED_SURVEYS "s1" "MODERATED" MODERATED
                  [(None, scripted on_topic PNone)] s (scripted off_topic PNone)
                  "What is the weather like?" eq_refl Hs Ht) eq_refl eq_refl).
Defined.

(** C7 as stated fails on the shipped survey, which does not set
    [moderate_answers]: the check would report the message off-topic, but it
    is never consulted, and the turn records the answer and moves on instead
    of returning the reminder. *)
Lemma C7_counterexample_unmoderated :
  ∃ s, opened_db !! "s1" = Some s ∧ terminated s = false
       ∧ current_question_id s = Some "Q1"
       ∧ review_answer (scripted off_topic (reply (PStr "No") PNone)) "No" (history s)
         = false
       ∧ ¬ reminded CULTURE_DISCRIMINATION opened_db "s1" s
             (next_step SURVEYS (scripted off_topic (reply (PStr "No") PNone))
                opened_db "s1" SURVEY_ID (Some "No")).
Proof.
  destruct (opened_db !! "s1") as [s|] eqn:Hs; [|vm_compute in Hs; discriminate].
  assert (terminated <$> opened_db !! "s1" = Some false) as Ht
    by (vm_compute; reflexivity).
  assert (current_question_id <$> opened_db !! "s1" = Some (Some "Q1")) as Hq
    by (vm_compute; reflexivity).
  rewrite Hs in Ht, Hq. injection Ht as Ht. injection Hq as Hq.
  exists s. split; [reflexivity|]. split; [exact Ht|]. split; [exact Hq|].
  split; [reflexivity|].
  intros H. unfold reminded in H. apply (f_equal returned_message) in H.
  vm_compute in H. discriminate H.
Qed.

(** ** The eligible set and the policy's candidate *)

Lemma NoDup_drop_ids (qs : list question) n :
  NoDup (q_id <$> qs) → NoDup (q_id <$> drop n qs).
Proof.
  intros H. rewrite fmap_drop. eapply sublist_NoDup; [done|apply sublist_drop].
Qed.

Lemma open_for_only_skips ans qs st st' q :
  NoDup (q_id <$> qs) → only_skips ans qs st st' → q ∈ qs →
  open_for ans st' q = open_for ans st q.
Proof.
  intros Hnd Hsk Hq. unfold open_for.
  destruct (Hsk (q_id q)) as [->|(_ & _ & q' & Hq' & Hid & Hm)]; [done|].
  assert (q' = q) as -> by (by eapply NoDup_fmap_eq).
  by rewrite Hm, !andb_false_r.
Qed.

Lemma candidates_spec s d :
  NoDup (q_id <$> questions d) →
  let st := question_status (_mark_conditionally_skipped s d) in
  (candidates s d).1.1 = q_id <$> filter (λ q, open_for (answers s) st q) (questions d)
  ∧ (candidates s d).1.2
    = q_id <$> head (filter (λ q, open_for (answers s) st q)
                            (drop (scan_start s d) (questions d))).
Proof.
  intros Hnd st. rewrite candidates_eq. cbn [fst snd].
  rewrite deterministic_next_question_eq. cbn [fst snd].
  pose proof (eligible_questions_settled s d) as Hset.
  rewrite (settled_mark _ d Hset).
  rewrite eligible_questions_eq. cbn [fst snd]. fold st.
  split; [by rewrite scan_eligible_spec|].
  cbn. rewrite scan_next_spec by (by apply NoDup_drop_ids).
  do 2 f_equal. apply filter_ext_in. intros q Hq.
  rewrite (open_for_only_skips (answers s) (questions d) st); [done|done| |].
  - apply scan_eligible_only_skips.
  - by eapply subseteq_drop.
Qed.

Lemma save_state_lookup db s sid :
  session_id s = sid → _save_state db s !! sid = Some s.
Proof. intros <-. apply lookup_insert_eq. Qed.

Lemma turn_gate_ask_intro ag d s m c q :
  terminated s = false → _moderate_answer ag d m (history s) = true →
  current_question_id s = Some c → _get_question_map d !! c = Some q →
  turn_gate ag d s m
  = GateAsk (_append_history (_mark_conditionally_skipped s d) user
               (PStr (message_text m)) (Some (q_id q))) q.
Proof.
  intros Ht Hm Hc Hq. unfold turn_gate. rewrite Ht. cbn [history _mark_conditionally_skipped with_question_status].
  rewrite Hm. cbn. rewrite Hc. cbn. by rewrite Hq.
Qed.

Lemma index_of_Some x l : x ∈ l → ∃ k, index_of x l = Some k ∧ l !! k = Some x.
Proof.
  induction l as [|y l IH]; intros H; [by apply elem_of_nil in H|].
  cbn. destruct (String.eqb y x) eqn:E.
  - apply String.eqb_eq in E as ->. by exists 0.
  - apply elem_of_cons in H as [->|H]; [by rewrite String.eqb_refl in E|].
    destruct (IH H) as (k & -> & Hk). by exists (S k).
Qed.

Lemma index_of_lookup x l k : index_of x l = Some k → l !! k = Some x.
Proof.
  revert k. induction l as [|y l IH]; intros k H; [done|].
  cbn in H. destruct (String.eqb y x) eqn:E.
  - apply String.eqb_eq in E as ->. by injection H as <-.
  - destruct (index_of x l) as [j|]; [|done]. injection H as <-. cbn. by apply IH.
Qed.

Lemma index_of_NoDup x l k : NoDup l → l !! k = Some x → index_of x l = Some k.
Proof.
  intros Hnd Hk. destruct (index_of_Some x l) as (j & Hj & Hj').
  { by eapply list_elem_of_lookup_2. }
  rewrite Hj. f_equal. by eapply NoDup_lookup.
Qed.

(** Where the scan of the policy starts when [q] is the current question. *)
Lemma scan_start_current d s c q :
  NoDup (q_id <$> questions d) →
  current_question_id s = Some c → _get_question_map d !! c = Some q →
  ∃ k, questions d !! k = Some q ∧ index_of c (q_id <$> questions d) = Some k
       ∧ scan_start s d = S k.
Proof.
  intros Hnd Hc Hq. apply question_map_Some in Hq as [Hin <-].
  apply list_elem_of_lookup_1 in Hin as [k Hk].
  assert ((q_id <$> questions d) !! k = Some (q_id q)) as Hk'
    by (by rewrite list_lookup_fmap, Hk).
  exists k. split; [done|]. pose proof (index_of_NoDup _ _ _ Hnd Hk') as Hi.
  split; [done|]. unfold scan_start. by rewrite Hc, Hi.
Qed.

(** C2. In a turn that records an answer [v] to the current question [q],
    let the eligible questions be those that, once the answer is stored and
    skips are marked, are neither answered nor skipped and have their
    condition met.  If the port proposes the id [i], the session moves to
    [i] exactly when [i] is the id of an eligible question.  If the proposal
    is not the id of an eligible question, the session moves to the first
    eligible question placed strictly after [q] in the definition, and ends
    when there is none. *)
Theorem C2_next_question_choice surveys ag db sid svid d s m c q v :
  surveys !! svid = Some d → wf_definition d →
  db !! sid = Some s → session_id s = sid → terminated s = false →
  _moderate_answer ag d m (history s) = true →
  current_question_id s = Some c → _get_question_map d !! c = Some q →
  let asked_state := _append_history (_mark_conditionally_skipped s d) user
                       (PStr (message_text m)) (Some (q_id q)) in
  let response := survey_step ag (llm_view asked_state) d (message_text m) in
  interpret q response = Ret (inr v) →
  let stored := _store_answer asked_state q v in
  let st := question_status (_mark_conditionally_skipped stored d) in
  let eligible := filter (λ q', open_for (answers stored) st q') (questions d) in
  let proposal := py_guarded_get response "next_question_id" in
  ∃ k db' r,
    questions d !! k = Some q
    ∧ next_step surveys ag db sid svid m = Ret (db', r)
    ∧ (∀ i, proposal = PStr i → (moves_to db' sid i ↔ i ∈ q_id <$> eligible))
    ∧ (py_in proposal (q_id <$> eligible) = false →
       match head (filter (λ q', open_for (answers stored) st q')
                          (drop (S k) (questions d))) with
       | Some q' => moves_to db' sid (q_id q')
       | None => ends_at db' sid
       end).
Proof.
  intros Hd [Hnd Hne] Hs Hid Ht Hm Hc Hq asked_state response Hi stored st eligible
    proposal.
  destruct (scan_start_current d stored c q Hnd Hc Hq) as (k & Hk & _ & Hstart).
  destruct (candidates_spec stored d Hnd) as [Hal Hdn]. fold st in Hal, Hdn.
  rewrite Hstart in Hdn. fold eligible in Hal.
  set (later := filter _ (drop (S k) _)) in *.
  assert (∀ q', q' ∈ questions d → q_id q' ≠ "") as Hne'
    by (by apply Forall_forall).
  assert (∀ q', head later = Some q' → q' ∈ eligible) as Hlater.
  { intros q' [l Hl]%head_Some. assert (q' ∈ later) as Hin by (rewrite Hl; by left).
    apply list_elem_of_filter in Hin as [HP Hin]. apply list_elem_of_filter.
    split; [done|]. by eapply subseteq_drop. }
  assert (∀ i, i ∈ q_id <$> eligible → i ≠ "") as Hel.
  { intros i (q' & -> & Hq')%list_elem_of_fmap.
    apply list_elem_of_filter in Hq' as [_ Hq']. by apply Hne'. }
  assert (session_id (candidates stored d).2 = sid) as Hsid.
  { destruct (candidates_frame stored d) as (-> & _). done. }
  rewrite next_step_unfold, Hd, Hs.
  rewrite (turn_gate_ask_intro ag d s m c q Ht Hm Hc Hq).
  fold asked_state. cbv zeta. fold response. rewrite Hi. cbn [exc_bind].
  pose proof (advance_returns d db sid asked_state q v response) as Hadv.
  cbv zeta in Hadv. fold stored in Hadv. fold proposal in Hadv.
  rewrite Hal, Hdn in Hadv.
  destruct Hadv as [[Htr ->]|(nid & nq & Hch & Hnid & Hnq & ->)].
  - (* the session ends *)
    eexists k, _, _. split; [done|]. split; [done|].
    set (s' := ending _ d).
    assert (_save_state db s' !! sid = Some s') as Hs'
      by (apply save_state_lookup; exact Hsid).
    assert (∀ i, ¬ moves_to (_save_state db s') sid i) as Hno.
    { intros i (s'' & Hs'' & Ht' & _). rewrite Hs' in Hs''. by injection Hs'' as <-. }
    split.
    + intros i Hp. split; [by intros ?%Hno|]. intros Hin. exfalso.
      rewrite Hp, (choose_next_allowed _ _ _ Hin) in Htr. cbn in Htr.
      apply negb_false_iff, String.eqb_eq in Htr. by apply (Hel i).
    + intros Hout. rewrite (choose_next_rejected _ _ _ Hout) in Htr.
      fold later. destruct (head later) as [q'|] eqn:Hq'.
      * exfalso. cbn in Htr. apply negb_false_iff, String.eqb_eq in Htr.
        apply (Hel (q_id q')); [|done]. apply list_elem_of_fmap_2. by apply Hlater.
      * unfold ends_at. by exists s'.
  - (* the session moves to [nid] *)
    eexists k, _, _. split; [done|]. split; [done|]. cbv zeta.
    set (s' := asking _ nid _).
    assert (_save_state db s' !! sid = Some s') as Hs'
      by (apply save_state_lookup; exact Hsid).
    assert (∀ i, moves_to (_save_state db s') sid i ↔ i = nid) as Hmv.
    { intros i. unfold moves_to. rewrite Hs'. split.
      - intros (? & [= <-] & _ & Hcur & _). cbn in Hcur. by injection Hcur as <-.
      - intros ->. exists s'. split; [done|].
        destruct (candidates_frame stored d) as (_ & _ & _ & _ & _ & Hterm).
        split; [exact (eq_trans Hterm Ht)|]. split; [done|]. apply lookup_insert_eq. }
    split.
    + intros i Hp. rewrite Hmv. rewrite Hp in Hch. split.
      * intros ->. apply choose_next_Some in Hch as [[_ ?]|[Hout Hdet]]; [done|].
        exfalso. destruct (head later) as [q'|] eqn:Hq'; [|done].
        cbn in Hdet. injection Hdet as <-.
        assert (py_in (PStr (q_id q')) (q_id <$> eligible) = true); [|congruence].
        apply py_in_true. eexists. split; [done|].
        apply list_elem_of_fmap_2. by apply Hlater.
      * intros Hin. rewrite (choose_next_allowed _ _ _ Hin) in Hch. by injection Hch.
    + intros Hout. rewrite (choose_next_rejected _ _ _ Hout) in Hch.
      fold later. destruct (head later) as [q'|]; [|done]. cbn in Hch. injection Hch as ->.
      by apply Hmv.
Qed.

Lemma shipped_survey_wf : wf_definition CULTURE_DISCRIMINATION.
Proof.
  split.
  - apply (bool_decide_unpack _). vm_compute. exact I.
  - repeat constructor; discriminate.
Defined.

Lemma C2_next_question_choice_witness :
  let ag := scripted on_topic (reply (PStr "No") (PStr "Q5")) in
  opened_db !! "s1" = Some opened_state
  ∧ current_question_id opened_state = Some "Q1"
  ∧ _get_question_map CULTURE_DISCRIMINATION !! "Q1" = Some Q1
  ∧ ∃ db' r, next_step SURVEYS ag opened_db "s1" SURVEY_ID (Some "No") = Ret (db', r)
             ∧ moves_to db' "s1" "Q5".
Proof.
  cbv zeta.
  assert (opened_db !! "s1" = Some opened_state) as Hs by (vm_compute; reflexivity).
  assert (_get_question_map CULTURE_DISCRIMINATION !! "Q1" = Some Q1) as Hq
    by (vm_compute; reflexivity).
  split; [exact Hs|]. split; [reflexivity|]. split; [exact Hq|].
  destruct (C2_next_question_choice SURVEYS
              (scripted on_topic (reply (PStr "No") (PStr "Q5")))
              opened_db "s1" SURVEY_ID CULTURE_DISCRIMINATION opened_state
              (Some "No") "Q1" Q1 (PStr "No")
              eq_refl shipped_survey_wf Hs eq_refl eq_refl eq_refl eq_refl Hq
              ltac:(vm_compute; reflexivity))
    as (k & db' & r & _ & Hstep & Hiff & _).
  exists db', r. split; [exact Hstep|].
  apply (Hiff "Q5" eq_refl). vm_compute. repeat constructor.
Defined.

(** ** Runs that differ in the port's texts *)

Lemma sim_refl s : sim s s.
Proof. by repeat split. Qed.

Lemma sim_with_history s1 s2 : sim s1 s2 → s2 = with_history s1 (history s2).
Proof.
  destruct s1, s2. unfold sim, with_history. cbn.
  intros (-> & -> & -> & -> & -> & ->). done.
Qed.

Lemma sim_history s h : sim s (with_history s h).
Proof. by repeat split. Qed.

Lemma sim_trans s1 s2 s3 : sim s1 s2 → sim s2 s3 → sim s1 s3.
Proof.
  intros (?&?&?&?&?&?) (?&?&?&?&?&?). repeat split; congruence.
Qed.

Lemma sim_sym s1 s2 : sim s1 s2 → sim s2 s1.
Proof. intros (?&?&?&?&?&?). repeat split; congruence. Qed.

Lemma eligible_questions_history s h d :
  _eligible_questions (with_history s h) d
  = ((_eligible_questions s d).1, with_history (_eligible_questions s d).2 h).
Proof. by rewrite !eligible_questions_eq. Qed.

Lemma deterministic_next_question_history s h d :
  _deterministic_next_question (with_history s h) d
  = ((_deterministic_next_question s d).1,
     with_history (_deterministic_next_question s d).2 h).
Proof. by rewrite !deterministic_next_question_eq. Qed.

Lemma candidates_history s h d :
  candidates (with_history s h) d
  = ((candidates s d).1, with_history (candidates s d).2 h).
Proof.
  rewrite !candidates_eq. cbn [fst snd].
  rewrite eligible_questions_history. cbn [fst snd].
  by rewrite deterministic_next_question_history.
Qed.

Lemma candidates_sim s1 s2 d :
  sim s1 s2 →
  (candidates s1 d).1 = (candidates s2 d).1
  ∧ sim (candidates s1 d).2 (candidates s2 d).2.
Proof.
  intros H. rewrite (sim_with_history s1 s2 H), candidates_history. cbn [fst snd].
  split; [done|]. apply sim_history.
Qed.

Lemma store_answer_sim s1 s2 q v :
  sim s1 s2 → sim (_store_answer s1 q v) (_store_answer s2 q v).
Proof. intros H. rewrite (sim_with_history s1 s2 H). by repeat split. Qed.

Lemma mark_sim s1 s2 d :
  sim s1 s2 →
  sim (_mark_conditionally_skipped s1 d) (_mark_conditionally_skipped s2 d).
Proof. intros H. rewrite (sim_with_history s1 s2 H). by repeat split. Qed.

Lemma append_sim s1 s2 r1 c1 q1 r2 c2 q2 :
  sim s1 s2 → sim (_append_history s1 r1 c1 q1) (_append_history s2 r2 c2 q2).
Proof. intros (?&?&?&?&?&?). by repeat split. Qed.

Lemma ending_sim s1 s2 d : sim s1 s2 → sim (ending s1 d) (ending s2 d).
Proof. intros (?&?&?&?&?&?). by repeat split. Qed.

Lemma asking_sim s1 s2 nid t1 t2 :
  sim s1 s2 → sim (asking s1 nid t1) (asking s2 nid t2).
Proof.
  intros (?&?&?&Hst&?&?). repeat split; try done. cbn. by rewrite Hst.
Qed.

Lemma py_truthy_or a b : py_truthy (py_or a b) = py_truthy a || py_truthy b.
Proof. unfold py_or. by destruct (py_truthy a) eqn:E; [rewrite E|]. Qed.

(** [interpret] in terms of the three control values: the texts enter only
    the clarification text it returns. *)
Lemma interpret_control q r :
  interpret q r =
  (pv <- parsed_value r ;;
   flag <- clarification_flag r ;;
   let n := _normalize_answer q pv in
   if flag || n.2 || negb n.1.2 then
     Ret (inl (py_or (py_guarded_get r "clarification_question") (PStr (q_text q))))
   else Ret (inr n.1.1)).
Proof.
  unfold interpret, parsed_value, clarification_flag.
  destruct (py_call_get _ "value") as [pv|]; [|done]. cbn [exc_bind].
  destruct (_normalize_answer q pv) as [[nv valid] needs]. cbn [fst snd].
  destruct r as [| | | | | |fields]; try done. cbn [py_call_get exc_bind].
  rewrite py_truthy_or. cbn [py_truthy py_guarded_get].
  set (f := dict_get fields "need_clarification" PNone).
  destruct (py_truthy f) eqn:E, needs, valid; cbn;
    rewrite ?py_truthy_or, ?E; done.
Qed.

Lemma interpret_same_control q r1 r2 :
  same_control r1 r2 →
  match interpret q r1, interpret q r2 with
  | Raise _, Raise _ => True
  | Ret (inl _), Ret (inl _) => True
  | Ret (inr v1), Ret (inr v2) => v1 = v2
  | _, _ => False
  end.
Proof.
  intros (Hv & Hf & _). rewrite !interpret_control, Hv, Hf.
  destruct (parsed_value r2) as [pv|]; [|done]. cbn [exc_bind].
  destruct (clarification_flag r2) as [flag|]; [|done]. cbn [exc_bind].
  cbv zeta. by destruct (_ || _).
Qed.

Lemma sim_slot_save sid db1 db2 s1 s2 :
  sim s1 s2 → session_id s1 = sid →
  sim_slot sid (_save_state db1 s1) (_save_state db2 s2).
Proof.
  intros H Hid. unfold sim_slot.
  rewrite (save_state_lookup db1 s1 sid Hid).
  rewrite (save_state_lookup db2 s2 sid) by (destruct H as [<- _]; done).
  done.
Qed.

Lemma sim_slot_status sid db1 db2 i :
  sim_slot sid db1 db2 → status_in (db1 !! sid) i = status_in (db2 !! sid) i.
Proof.
  unfold sim_slot. destruct (db1 !! sid) as [s1|], (db2 !! sid) as [s2|]; try done.
  intros [(_ & _ & _ & H & _) _]. cbn. by rewrite H.
Qed.

Lemma newly_asked_ext d o1 o1' o2 o2' :
  (∀ i, status_in o1 i = status_in o2 i) →
  (∀ i, status_in o1' i = status_in o2' i) →
  newly_asked d o1 o1' = newly_asked d o2 o2'.
Proof.
  intros H H'. unfold newly_asked. apply filter_ext_in.
  intros i _. by rewrite H, H'.
Qed.

Lemma begin_session_sim surveys sid svid db1 db2 :
  sim_slot sid db1 db2 →
  sim_slot sid (persisted db1 (begin_session surveys db1 sid svid))
               (persisted db2 (begin_session surveys db2 sid svid)).
Proof.
  intros H. destruct (surveys !! svid) as [d|] eqn:Hd.
  - rewrite !(begin_session_eq _ _ _ _ d Hd). cbv zeta.
    pose proof (deterministic_next_question_frame (_initial_state sid svid d) d)
      as (Hid & _).
    destruct (negb _).
    + apply sim_slot_save; [apply sim_refl|done].
    + destruct (_deterministic_next_question _ d).1 as [nid|]; [|done].
      destruct (_get_question_map d !! nid); [|done].
      apply sim_slot_save; [apply sim_refl|done].
  - unfold begin_session. by rewrite Hd.
Qed.

Lemma advance_sim d sid db1 db2 s1 s2 q v r1 r2 :
  sim_slot sid db1 db2 → sim s1 s2 → session_id s1 = sid → same_control r1 r2 →
  sim_slot sid (persisted db1 (advance d db1 sid s1 q v r1))
               (persisted db2 (advance d db2 sid s2 q v r2)).
Proof.
  intros Hdb Hs Hid Hr. rewrite !advance_eq. cbv zeta.
  destruct (candidates_sim _ _ d (store_answer_sim s1 s2 q v Hs)) as [Hc Hs'].
  rewrite <- Hc.
  destruct Hr as (_ & _ & Hr). unfold proposed_next in Hr. rewrite <- Hr.
  assert (session_id (candidates (_store_answer s1 q v) d).2 = sid) as Hid'.
  { destruct (candidates_frame (_store_answer s1 q v) d) as (-> & _). done. }
  destruct (negb _).
  - apply sim_slot_save; [by apply ending_sim|done].
  - destruct (choose_next _ _ _) as [nid|]; [|done].
    destruct (_get_question_map d !! nid); [|done].
    apply sim_slot_save; [by apply asking_sim|done].
Qed.

(** One turn of two runs in step: same control values from the port and the
    same verdict of the gate keep the two states equal up to the
    transcript. *)
Lemma exec_turn_sim surveys review d sid svid db1 db2 t1 t2 :
  surveys !! svid = Some d → sim_slot sid db1 db2 →
  same_control t1.2 t2.2 →
  turn_verdict surveys review sid svid db1 t1
  = turn_verdict surveys review sid svid db2 t2 →
  sim_slot sid (exec_turn surveys review sid svid db1 t1)
               (exec_turn surveys review sid svid db2 t2).
Proof.
  intros Hd Hdb Hr Hv. unfold exec_turn. rewrite !next_step_unfold, Hd.
  unfold turn_verdict in Hv. rewrite Hd in Hv.
  pose proof Hdb as Hdb'. unfold sim_slot in Hdb'.
  destruct (db1 !! sid) as [s1|] eqn:E1, (db2 !! sid) as [s2|] eqn:E2; try done;
    [|by apply begin_session_sim].
  destruct Hdb' as [Hs Hid]. pose proof Hs as (_ & _ & _ & _ & Hcur & Hterm).
  unfold turn_gate. rewrite <- Hterm. rewrite <- Hterm in Hv.
  destruct (terminated s1) eqn:Ht; [done|].
  injection Hv as Hv. cbn [history _mark_conditionally_skipped with_question_status].
  rewrite <- Hv.
  pose proof (mark_sim s1 s2 d Hs) as Hm.
  destruct (negb _).
  - unfold _off_topic_response. apply sim_slot_save; [by apply append_sim|done].
  - cbn [current_question_id _mark_conditionally_skipped with_question_status].
    rewrite <- Hcur.
    destruct (current_question_id s1 ≫= _) as [q|].
    + cbv zeta. cbn [survey_step scripted].
      pose proof (interpret_same_control q t1.2 t2.2 Hr) as Hi.
      destruct (interpret q t1.2) as [[x1|v1]|], (interpret q t2.2) as [[x2|v2]|];
        try done; cbn [exc_bind].
      * unfold _handle_clarification.
        apply sim_slot_save; [by do 2 apply append_sim|done].
      * subst v2. apply advance_sim; [exact Hdb|by apply append_sim|exact Hid|exact Hr].
    + cbn [persisted]. apply sim_slot_save; [|done]. by apply (ending_sim _ _ d).
Qed.

(** C8, amended. For two runs of one session over the same definition in
    which, turn by turn, the port returns the same control values (parsed
    answer, clarification flag, proposed next question) with arbitrary
    texts, and in which the moderation gate gives the same verdicts, the
    sequences of question ids that become [asked] are the same. *)
Theorem C8_ordering_ignores_phrasing surveys review d sid svid turns1 turns2 :
  surveys !! svid = Some d →
  Forall2 (λ t1 t2, same_control t1.2 t2.2) turns1 turns2 →
  verdicts surveys review sid svid ∅ turns1
  = verdicts surveys review sid svid ∅ turns2 →
  asked_sequence surveys review d sid svid ∅ turns1
  = asked_sequence surveys review d sid svid ∅ turns2.
Proof.
  intros Hd Hturns.
  assert (sim_slot sid ∅ ∅) as Hdb by (unfold sim_slot; by rewrite lookup_empty).
  revert Hdb. generalize (∅ : gmap string state) at 1 3 5.
  generalize (∅ : gmap string state).
  induction Hturns as [|t1 t2 turns1 turns2 Ht Hturns IH]; intros db2 db1 Hdb Hv;
    [done|].
  cbn in Hv. injection Hv as Hv Hvs. cbn [asked_sequence].
  pose proof (exec_turn_sim surveys review d sid svid db1 db2 t1 t2 Hd Hdb Ht Hv)
    as Hdb'.
  f_equal.
  - apply newly_asked_ext; intros i; by apply sim_slot_status.
  - by apply IH.
Qed.

Lemma same_control_reply_saying value next text1 text2 :
  same_control (reply_saying value next text1) (reply_saying value next text2).
Proof. by repeat split. Qed.

Lemma plain_chatty_same_control :
  Forall2 (λ t1 t2 : turn, same_control t1.2 t2.2) plain_run chatty_run.
Proof.
  repeat constructor; apply same_control_reply_saying.
Qed.

Lemma C8_ordering_ignores_phrasing_witness :
  SURVEYS !! SURVEY_ID = Some CULTURE_DISCRIMINATION
  ∧ verdicts SURVEYS picky "s1" SURVEY_ID ∅ plain_run
    = verdicts SURVEYS picky "s1" SURVEY_ID ∅ chatty_run
  ∧ asked_sequence SURVEYS picky CULTURE_DISCRIMINATION "s1" SURVEY_ID ∅ plain_run
    = asked_sequence SURVEYS picky CULTURE_DISCRIMINATION "s1" SURVEY_ID ∅ chatty_run.
Proof.
  assert (verdicts SURVEYS picky "s1" SURVEY_ID ∅ plain_run
          = verdicts SURVEYS picky "s1" SURVEY_ID ∅ chatty_run) as Hv
    by (vm_compute; reflexivity).
  split; [reflexivity|]. split; [exact Hv|].
  exact (C8_ordering_ignores_phrasing SURVEYS picky CULTURE_DISCRIMINATION "s1"
           SURVEY_ID plain_run chatty_run eq_refl plain_chatty_same_control Hv).
Defined.

(** C8 as stated fails when moderation is on: the moderator reads the
    transcript, which holds the port's texts.  With a moderator that rejects
    every message once the phrase "Let us continue." has been said, the run
    whose port phrases the second question that way stays on [Q3], while
    the run with the definition's own text goes on to [Q5]. *)
Lemma C8_counterexample_moderator_reads_texts :
  ¬ phrasing_blind MODERATED_SURVEYS picky MODERATED "s1" "MODERATED"
      plain_run chatty_run.
Proof.
  intros H. specialize (H plain_chatty_same_control).
  vm_compute in H. discriminate H.
Qed.

(** ** Definition order *)

Lemma filter_NoDup_single {A : Type} (P : A → Prop) `{!∀ x, Decision (P x)}
    (l : list A) x :
  NoDup l → (∀ y, y ∈ l → P y → y = x) →
  filter P l = [] ∨ (filter P l = [x] ∧ x ∈ l).
Proof.
  induction l as [|a l IH]; intros Hnd Hx; [by left|].
  apply NoDup_cons in Hnd as [Ha Hnd]. rewrite filter_cons.
  destruct (decide (P a)) as [p|p].
  - assert (a = x) as -> by (apply Hx; [by left|done]).
    right. split; [|by left]. f_equal.
    assert (∀ y, y ∈ l → ¬ P y) as Hno.
    { intros y Hy Py. assert (y = x) as -> by (apply Hx; [by right|done]). done. }
    clear -Hno. induction l as [|b l IH]; [done|].
    rewrite filter_cons_False by (apply Hno; by left).
    apply IH. intros y Hy. apply Hno. by right.
  - destruct IH as [->|[-> Hin]]; [done| |by left|].
    + intros y Hy. apply Hx. by right.
    + right. split; [done|by right].
Qed.

Lemma newly_asked_nil d old new :
  (∀ i, status_in new i = Some asked → status_in old i = Some asked) →
  newly_asked d old new = [].
Proof.
  intros H. unfold newly_asked.
  induction (q_id <$> questions d) as [|i l IH]; [done|].
  rewrite filter_cons_False; [done|]. intros [Hn Ho]. by apply Ho, H.
Qed.

Lemma newly_asked_single d old new nid :
  NoDup (q_id <$> questions d) →
  (∀ i, i ≠ nid → status_in new i = Some asked → status_in old i = Some asked) →
  newly_asked d old new = []
  ∨ (newly_asked d old new = [nid] ∧ nid ∈ q_id <$> questions d).
Proof.
  intros Hnd H. unfold newly_asked. apply filter_NoDup_single; [done|].
  intros i _ [Hn Ho]. destruct (decide (i = nid)) as [->|Hne]; [done|].
  exfalso. by apply Ho, H.
Qed.

Lemma index_of_lt x l k : index_of x l = Some k → k < length l.
Proof. intros H%index_of_lookup. by eapply lookup_lt_Some. Qed.

Lemma floor_le_length d o : (floor d o ≤ length (questions d))%nat.
Proof.
  unfold floor. destruct o as [s|]; [|lia].
  destruct (terminated s); [lia|].
  destruct (_ ≫= _) as [k|] eqn:E; [|lia].
  destruct (current_question_id s) as [c|]; [|done]. cbn in E.
  apply index_of_lt in E. rewrite length_fmap in E. lia.
Qed.

Lemma drop_position d q n :
  NoDup (q_id <$> questions d) → q ∈ drop n (questions d) →
  ∃ j, index_of (q_id q) (q_id <$> questions d) = Some j ∧ (n ≤ j)%nat.
Proof.
  intros Hnd [j Hj]%list_elem_of_lookup_1. rewrite lookup_drop in Hj.
  exists (n + j). split; [|lia]. apply index_of_NoDup; [done|].
  by rewrite list_lookup_fmap, Hj.
Qed.

Lemma store_answer_status s q v i :
  question_status (_store_answer s q v) !! i = Some asked →
  question_status s !! i = Some asked.
Proof.
  cbn. destruct (decide (q_id q = i)) as [<-|Hne].
  - rewrite lookup_insert_eq. by destruct (py_eq_str v "SKIP").
  - by rewrite lookup_insert_ne.
Qed.

(** A question that is [asked] once [advance] has consulted the policy was
    already [asked] in the state the turn started from. *)
Lemma advance_asked_back d s r c qid q v i :
  question_status
    (candidates (_store_answer (_append_history (_mark_conditionally_skipped s d)
                                  r c qid) q v) d).2 !! i = Some asked →
  question_status s !! i = Some asked.
Proof.
  intros H. eapply grows_asked in H; [|apply candidates_grows].
  apply store_answer_status in H. cbn in H.
  eapply grows_asked; [apply mark_grows|]. exact H.
Qed.

Lemma ordered_stay d o o' :
  (∀ i, status_in o' i = Some asked → status_in o i = Some asked) →
  (floor d o ≤ floor d o')%nat → ordered_step d o o'.
Proof. intros H Hf. split; [done|]. left. by apply newly_asked_nil. Qed.

Lemma ordered_ask d o s nid text j :
  NoDup (q_id <$> questions d) → terminated s = false →
  index_of nid (q_id <$> questions d) = Some j → (floor d o ≤ j)%nat →
  (∀ i, i ≠ nid → question_status s !! i = Some asked → status_in o i = Some asked) →
  ordered_step d o (Some (asking s nid text)).
Proof.
  intros Hnd Ht Hj Hf Hback.
  assert (floor d (Some (asking s nid text)) = S j) as Hfl.
  { cbn. by rewrite Ht, Hj. }
  split; [lia|].
  destruct (newly_asked_single d o (Some (asking s nid text)) nid Hnd) as [->|[-> _]].
  - intros i Hne Hi. cbn in Hi. rewrite lookup_insert_ne in Hi by done.
    by apply Hback.
  - by left.
  - right. by exists nid, j.
Qed.

Lemma initial_status sid svid d i st :
  question_status (_initial_state sid svid d) !! i = Some st → st = unasked.
Proof.
  cbn. assert (∀ i st, (∅ : gmap string status) !! i = Some st → st = unasked) as H0
    by (intros ? ?; by rewrite lookup_empty).
  revert H0. generalize (∅ : gmap string status). revert i st.
  induction (questions d) as [|q qs IH]; intros i st m Hm; [by apply Hm|].
  cbn. apply IH. intros i' st' H.
  destruct (decide (q_id q = i')) as [<-|Hne].
  - rewrite lookup_insert_eq in H. by injection H.
  - rewrite lookup_insert_ne in H by done. by eapply Hm.
Qed.

Lemma begin_session_ordered surveys d sid svid db :
  surveys !! svid = Some d → NoDup (q_id <$> questions d) → db !! sid = None →
  let db' := persisted db (begin_session surveys db sid svid) in
  (∀ s, db' !! sid = Some s → session_id s = sid)
  ∧ ordered_step d None (db' !! sid).
Proof.
  intros Hd Hnd Hdb. cbv zeta. rewrite (begin_session_eq _ _ _ _ d Hd). cbv zeta.
  pose proof (deterministic_next_question_frame (_initial_state sid svid d) d)
    as (Hid & _ & _ & _ & _ & Ht).
  change (session_id (_initial_state sid svid d)) with sid in Hid.
  change (terminated (_initial_state sid svid d)) with false in Ht.
  set (n := _deterministic_next_question _ d) in *.
  assert (∀ i, question_status n.2 !! i ≠ Some asked) as Hno.
  { intros i H. eapply grows_asked in H; [|apply deterministic_next_question_grows].
    by apply initial_status in H. }
  assert (ordered_step d None None) as Hnone.
  { apply ordered_stay; [done|]. cbn. lia. }
  destruct (negb _) eqn:Tr.
  - cbn [persisted]. rewrite (save_state_lookup _ _ sid) by exact Hid.
    split; [by intros ? [= <-]|].
    apply ordered_stay; [|cbn; lia]. intros i Hi. cbn in Hi. by apply Hno in Hi.
  - destruct n.1 as [nid|] eqn:En; [|cbn; by rewrite Hdb].
    destruct (_get_question_map d !! nid) as [q|] eqn:Eq; [|cbn; by rewrite Hdb].
    cbn [persisted]. rewrite (save_state_lookup _ _ sid) by exact Hid.
    split; [by intros ? [= <-]|].
    apply question_map_Some in Eq as [Hq <-].
    destruct (index_of_Some (q_id q) (q_id <$> questions d)) as (j & Hj & _);
      [by apply list_elem_of_fmap_2|].
    apply (ordered_ask d None n.2 (q_id q) _ j); try done; [cbn; lia|].
    intros i _ Hi. by apply Hno in Hi.
Qed.

Lemma floor_running d s c k :
  terminated s = false → current_question_id s = Some c →
  index_of c (q_id <$> questions d) = Some k → floor d (Some s) = S k.
Proof. intros Ht Hc Hk. cbn. by rewrite Ht, Hc; cbn; rewrite Hk. Qed.

Lemma next_step_ordered surveys d ag sid svid db s m :
  surveys !! svid = Some d → NoDup (q_id <$> questions d) →
  db !! sid = Some s → session_id s = sid → defers_to_policy d ag s m →
  let db' := persisted db (next_step surveys ag db sid svid m) in
  (∀ s', db' !! sid = Some s' → session_id s' = sid)
  ∧ ordered_step d (Some s) (db' !! sid).
Proof.
  intros Hd Hnd Hs Hid Hpol. cbv zeta. rewrite next_step_unfold, Hd, Hs.
  unfold defers_to_policy in Hpol.
  assert (ordered_step d (Some s) (Some s)) as Hsame
    by (apply ordered_stay; [done|lia]).
  assert (∀ r c qid, ordered_step d (Some s)
            (Some (_append_history (_mark_conditionally_skipped s d) r c qid)))
    as Hmark.
  { intros r c qid. apply ordered_stay; [|done]. intros i Hi. cbn in Hi |- *.
    eapply grows_asked; [apply mark_grows|]. exact Hi. }
  assert (∀ s0, (∀ i, question_status s0 !! i = Some asked →
                      question_status s !! i = Some asked) →
                ordered_step d (Some s) (Some (ending s0 d))) as Hend.
  { intros s0 H0. apply ordered_stay; [exact H0|]. apply floor_le_length. }
  destruct (turn_gate ag d s m) as [|s1|s1|s1 q] eqn:G.
  - cbn [persisted]. rewrite Hs. split; [by intros ? [= <-]|done].
  - apply turn_gate_off_topic in G as (_ & -> & _).
    unfold _off_topic_response. cbn [persisted].
    rewrite (save_state_lookup _ _ sid) by exact Hid.
    split; [by intros ? [= <-]|]. apply Hmark.
  - apply turn_gate_lost in G as (_ & ->). cbn [persisted].
    rewrite (save_state_lookup _ _ sid) by exact Hid.
    split; [by intros ? [= <-]|]. apply (Hend (_mark_conditionally_skipped s d)).
    intros i Hi. eapply grows_asked; [apply mark_grows|]. exact Hi.
  - apply turn_gate_ask in G as (Ht & -> & (c & Hc & Hq) & _). cbv zeta in Hpol |- *.
    set (s1 := _append_history _ user _ _) in *.
    set (response := survey_step ag _ d _) in *.
    destruct (interpret q response) as [[text|v]|]; cbn [exc_bind].
    + unfold _handle_clarification. cbn [persisted].
      rewrite (save_state_lookup _ _ sid) by exact Hid.
      split; [by intros ? [= <-]|].
      apply ordered_stay; [|done]. intros i Hi. cbn in Hi |- *.
      eapply grows_asked; [apply mark_grows|]. exact Hi.
    + pose proof (advance_returns d db sid s1 q v response) as Hadv.
      cbv zeta in Hadv. rewrite Hpol in Hadv.
      set (stored := _store_answer s1 q v) in *.
      assert (session_id (candidates stored d).2 = sid) as Hid'.
      { destruct (candidates_frame stored d) as (-> & _). exact Hid. }
      assert (terminated (candidates stored d).2 = false) as Ht'.
      { destruct (candidates_frame stored d) as (_ & _ & _ & _ & _ & ->). exact Ht. }
      assert (∀ i, question_status (candidates stored d).2 !! i = Some asked →
                   question_status s !! i = Some asked) as Hback.
      { intros i Hi. by eapply advance_asked_back. }
      destruct Hadv as [[_ ->]|(nid & nq & Hch & _ & Hnq & ->)].
      * cbn [persisted]. rewrite (save_state_lookup _ _ sid) by exact Hid'.
        split; [by intros ? [= <-]|]. by apply Hend.
      * cbn [persisted]. rewrite (save_state_lookup _ _ sid) by exact Hid'.
        split; [by intros ? [= <-]|].
        apply candidates_next_mem in Hch as (q' & Hq' & <- & _).
        destruct (scan_start_current d stored c q Hnd Hc Hq) as (k & _ & Hk & Hstart).
        rewrite Hstart in Hq'.
        destruct (drop_position d q' (S k) Hnd Hq') as (j & Hj & Hle).
        apply (ordered_ask d (Some s) _ (q_id q') _ j); try done.
        -- rewrite (floor_running d s c k Ht Hc Hk). exact Hle.
        -- intros i _ Hi. by apply Hback.
    + cbn [persisted]. rewrite Hs. split; [by intros ? [= <-]|done].
Qed.

Lemma exec_turn_ordered surveys review d sid svid db t :
  surveys !! svid = Some d → NoDup (q_id <$> questions d) →
  (∀ s, db !! sid = Some s → session_id s = sid) →
  match db !! sid with
  | Some s => defers_to_policy d (scripted review t.2) s t.1
  | None => True
  end →
  let db' := exec_turn surveys review sid svid db t in
  (∀ s, db' !! sid = Some s → session_id s = sid)
  ∧ ordered_step d (db !! sid) (db' !! sid).
Proof.
  intros Hd Hnd Hk Hpol. unfold exec_turn.
  destruct (db !! sid) as [s|] eqn:Hs.
  - by apply next_step_ordered; [..|apply Hk|].
  - unfold next_step, _load_state. rewrite Hd, Hs.
    by apply begin_session_ordered.
Qed.

Lemma policy_led_ordered surveys review d sid svid turns : ∀ db,
  surveys !! svid = Some d → NoDup (q_id <$> questions d) →
  (∀ s, db !! sid = Some s → session_id s = sid) →
  policy_led surveys review d sid svid db turns →
  StronglySorted (before d) (asked_sequence surveys review d sid svid db turns)
  ∧ Forall (λ i, ∃ j, index_of i (q_id <$> questions d) = Some j
                      ∧ (floor d (db !! sid) ≤ j)%nat)
           (asked_sequence surveys review d sid svid db turns).
Proof.
  induction turns as [|t turns IH]; intros db Hd Hnd Hk Hpol.
  { split; constructor. }
  destruct Hpol as [Hpol Hrest]. cbn [asked_sequence].
  destruct (exec_turn_ordered surveys review d sid svid db t Hd Hnd Hk Hpol)
    as (Hk' & Hfl & Hnew).
  destruct (IH _ Hd Hnd Hk' Hrest) as [Hsorted Hall].
  destruct Hnew as [->|(i & j & -> & Hj & Hle & Hfl')]; cbn [app].
  - split; [done|]. eapply Forall_impl; [exact Hall|].
    intros i (j & Hj & Hle). exists j. split; [done|lia].
  - rewrite Hfl' in Hall. split.
    + constructor; [done|]. eapply Forall_impl; [exact Hall|].
      intros i' (j' & Hj' & Hle'). exists j, j'. split; [done|]. split; [done|lia].
    + constructor; [by exists j|]. eapply Forall_impl; [exact Hall|].
      intros i' (j' & Hj' & Hle'). exists j'. split; [done|lia].
Qed.

(** X23. In every run of a survey whose question ids are distinct and in
    which each question chosen is the policy's candidate (the port's
    proposal is absent, not eligible, or that very candidate), questions
    are asked in definition order: the ids that become [asked] do so at
    strictly increasing positions of the definition. *)
Theorem X23_policy_led_definition_order surveys review d sid svid turns :
  surveys !! svid = Some d → NoDup (q_id <$> questions d) →
  policy_led surveys review d sid svid ∅ turns →
  asked_in_definition_order surveys review d sid svid turns.
Proof.
  intros Hd Hnd Hpol.
  apply (policy_led_ordered surveys review d sid svid turns ∅); [done|done| |done].
  intros s H. by rewrite lookup_empty in H.
Qed.

Lemma orderly_run_policy_led :
  policy_led SURVEYS on_topic CULTURE_DISCRIMINATION "s1" SURVEY_ID ∅ orderly_run.
Proof. vm_compute. repeat split. Qed.

Lemma X23_policy_led_definition_order_witness :
  SURVEYS !! SURVEY_ID = Some CULTURE_DISCRIMINATION
  ∧ NoDup (q_id <$> questions CULTURE_DISCRIMINATION)
  ∧ policy_led SURVEYS on_topic CULTURE_DISCRIMINATION "s1" SURVEY_ID ∅ orderly_run
  ∧ asked_in_definition_order SURVEYS on_topic CULTURE_DISCRIMINATION "s1" SURVEY_ID
      orderly_run.
Proof.
  split; [reflexivity|]. split; [exact (proj1 shipped_survey_wf)|].
  split; [exact orderly_run_policy_led|].
  exact (X23_policy_led_definition_order SURVEYS on_topic CULTURE_DISCRIMINATION "s1"
           SURVEY_ID orderly_run eq_refl (proj1 shipped_survey_wf)
           orderly_run_policy_led).
Defined.

(** C4. The engine does not keep to definition order: the port may propose
    any question that is still eligible, before or after the current one,
    and the engine adopts it.  On the shipped survey, a port that proposes
    [Q5] after the answer to [Q1] and [Q3] after the answer to [Q5] gets
    [Q3] asked after [Q5].  And a port that proposes [Q7] after the answer
    to [Q1] and nothing after the answer to [Q7] gets the session ended, the
    policy finding nothing after [Q7], with [Q3], [Q5] and [Q6] never
    asked. *)
Theorem C4_port_reorders_questions :
  asked_sequence SURVEYS on_topic CULTURE_DISCRIMINATION "s1" SURVEY_ID ∅ jumping_run
  = ["Q1"; "Q5"; "Q3"]
  ∧ ¬ asked_in_definition_order SURVEYS on_topic CULTURE_DISCRIMINATION "s1"
        SURVEY_ID jumping_run
  ∧ asked_sequence SURVEYS on_topic CULTURE_DISCRIMINATION "s1" SURVEY_ID ∅ skipping_run
    = ["Q1"; "Q7"]
  ∧ ∃ s, foldl (exec_turn SURVEYS on_topic "s1" SURVEY_ID) ∅ skipping_run !! "s1"
         = Some s
         ∧ terminated s = true
         ∧ question_status s !! "Q3" = Some unasked
         ∧ question_status s !! "Q5" = Some unasked
         ∧ question_status s !! "Q6" = Some unasked.
Proof.
  assert (asked_sequence SURVEYS on_topic CULTURE_DISCRIMINATION "s1" SURVEY_ID ∅
            jumping_run = ["Q1"; "Q5"; "Q3"]) as E by (vm_compute; reflexivity).
  split; [exact E|]. split.
  { unfold asked_in_definition_order. rewrite E. intros H.
    apply StronglySorted_inv in H as [H _].
    apply StronglySorted_inv in H as [_ H].
    apply Forall_cons in H as [(a & b & Ha & Hb & Hlt) _].
    vm_compute in Ha, Hb. injection Ha as <-. injection Hb as <-. lia. }
  split; [vm_compute; reflexivity|].
  assert ((foldl (exec_turn SURVEYS on_topic "s1" SURVEY_ID) ∅ skipping_run !! "s1")
          ≫= (λ s, Some (terminated s, question_status s !! "Q3",
                          question_status s !! "Q5", question_status s !! "Q6"))
          = Some (true, Some unasked, Some unasked, Some unasked)) as Hv
    by (vm_compute; reflexivity).
  destruct (foldl _ ∅ skipping_run !! "s1") as [s|]; [|discriminate Hv].
  cbn in Hv. injection Hv as H1 H2 H3 H4. exists s. by repeat split.
Qed.

(** ** [deepcopy] allocates, and touches nothing that was there *)

Lemma extends_refl h : extends h h.
Proof. split; [lia|done]. Qed.

Lemma extends_trans h1 h2 h3 : extends h1 h2 → extends h2 h3 → extends h1 h3.
Proof.
  intros [L12 H12] [L23 H23]. split; [lia|].
  intros l Hl. rewrite H23 by lia. by apply H12.
Qed.

Lemma extends_alloc h o : extends h (h ++ [o]).
Proof.
  split; [rewrite length_app; lia|]. intros l Hl. by apply lookup_app_l.
Qed.

Lemma extends_fill h h' l o :
  extends h h' → (length h ≤ l)%nat → extends h (<[l := o]> h').
Proof.
  intros [L H] Hl. split; [by rewrite length_insert|].
  intros l' Hl'. rewrite list_lookup_insert_ne by lia. by apply H.
Qed.

Lemma copy_all_extends rec vs : ∀ h memo h' memo' vs',
  (∀ h memo v h' memo' v', rec h memo v = Some (h', memo', v') → extends h h') →
  copy_all rec vs h memo = Some (h', memo', vs') → extends h h'.
Proof.
  induction vs as [|v vs IH]; intros h memo h' memo' vs' Hrec H; cbn in H.
  - injection H as <- <- <-. apply extends_refl.
  - destruct (rec h memo v) as [[[h1 memo1] v1]|] eqn:E; [|done].
    destruct (copy_all rec vs h1 memo1) as [[[h2 memo2] vs2]|] eqn:E2; [|done].
    injection H as <- <- <-.
    eapply extends_trans; [by eapply Hrec|by eapply IH].
Qed.

Lemma deepcopy_extends fuel : ∀ h memo v h' memo' v',
  deepcopy fuel h memo v = Some (h', memo', v') → extends h h'.
Proof.
  induction fuel as [|fuel IH]; intros h memo v h' memo' v' H.
  - destruct v; cbn in H; try (injection H as <- <- <-; apply extends_refl).
    destruct (memo !! l); [|done]. injection H as <- <- <-. apply extends_refl.
  - destruct v; cbn in H; try (injection H as <- <- <-; apply extends_refl).
    destruct (memo !! l); [injection H as <- <- <-; apply extends_refl|].
    destruct (h !! l) as [o|]; [|done].
    destruct (copy_all _ _ _ _) as [[[h2 memo2] vs]|] eqn:E; [|done].
    injection H as <- <- <-.
    apply extends_fill; [|lia].
    eapply extends_trans; [apply extends_alloc|].
    eapply copy_all_extends; [|exact E]. exact IH.
Qed.

Lemma Forall_snd_zip {A B : Type} (P : B → Prop) (ks : list A) (vs : list B) :
  Forall P vs → Forall P (snd <$> zip ks vs).
Proof.
  intros H. revert ks. induction H as [|v vs Hv H IH]; intros [|k ks]; cbn;
    try constructor; auto.
Qed.

Lemma children_rebuild_fresh n0 o vs :
  Forall (fresh_val n0) vs → Forall (fresh_val n0) (children (rebuild o vs)).
Proof. destruct o; cbn; [apply Forall_snd_zip|done]. Qed.

Lemma copy_all_inv n0 rec vs : ∀ h memo h' memo' vs',
  (∀ h memo v h' memo' v', copy_inv n0 h memo →
     rec h memo v = Some (h', memo', v') →
     copy_inv n0 h' memo' ∧ fresh_val n0 v') →
  copy_inv n0 h memo →
  copy_all rec vs h memo = Some (h', memo', vs') →
  copy_inv n0 h' memo' ∧ Forall (fresh_val n0) vs'.
Proof.
  induction vs as [|v vs IH]; intros h memo h' memo' vs' Hrec Hinv H; cbn in H.
  - injection H as <- <- <-. by split.
  - destruct (rec h memo v) as [[[h1 memo1] v1]|] eqn:E; [|done].
    destruct (copy_all rec vs h1 memo1) as [[[h2 memo2] vs2]|] eqn:E2; [|done].
    injection H as <- <- <-.
    destruct (Hrec _ _ _ _ _ _ Hinv E) as [Hinv1 Hv1].
    destruct (IH _ _ _ _ _ Hrec Hinv1 E2) as [Hinv2 Hvs2].
    split; [done|]. by constructor.
Qed.

Lemma deepcopy_inv n0 fuel : ∀ h memo v h' memo' v',
  copy_inv n0 h memo →
  deepcopy fuel h memo v = Some (h', memo', v') →
  copy_inv n0 h' memo' ∧ fresh_val n0 v'.
Proof.
  induction fuel as [|fuel IH]; intros h memo v h' memo' v' Hinv H.
  - destruct v; cbn in H; try (injection H as <- <- <-; by split).
    destruct (memo !! l) as [l'|] eqn:M; [|done]. injection H as <- <- <-.
    split; [done|]. cbn. by eapply (proj1 (proj2 Hinv)).
  - destruct v; cbn in H; try (injection H as <- <- <-; by split).
    destruct (memo !! l) as [l'|] eqn:M.
    { injection H as <- <- <-. split; [done|]. cbn. by eapply (proj1 (proj2 Hinv)). }
    destruct (h !! l) as [o|] eqn:Ho; [|done].
    destruct (copy_all _ _ _ _) as [[[h2 memo2] vs]|] eqn:E; [|done].
    injection H as <- <- <-.
    destruct Hinv as (Hlen & Hmemo & Hobj).
    assert (copy_inv n0 (h ++ [blank o]) (<[l := length h]> memo)) as Hinv1.
    { split; [rewrite length_app; lia|]. split.
      - intros l1 l1' H1. destruct (decide (l = l1)) as [->|Hne].
        + rewrite lookup_insert_eq in H1. injection H1 as <-. done.
        + rewrite lookup_insert_ne in H1 by done. by eapply Hmemo.
      - intros l1 o1 Hl1 H1. destruct (decide (l1 < length h)%nat) as [Hlt|Hge].
        + rewrite lookup_app_l in H1 by done. by eapply Hobj.
        + rewrite lookup_app_r in H1 by lia.
          destruct (l1 - length h)%nat; [|done]. cbn in H1. injection H1 as <-.
          by destruct o. }
    destruct (copy_all_inv n0 _ _ _ _ _ _ _ IH Hinv1 E) as [(Hlen2 & Hmemo2 & Hobj2) Hvs].
    split; [|cbn; lia]. split; [by rewrite length_insert|]. split; [done|].
    intros l1 o1 Hl1 H1. destruct (decide (length h = l1)) as [<-|Hne].
    + apply list_lookup_insert_Some in H1 as [(_ & <- & _)|[? _]]; [|done].
      by apply children_rebuild_fresh.
    + rewrite list_lookup_insert_ne in H1 by done. by eapply Hobj2.
Qed.

(** From a new object one only gets to new objects. *)
Lemma reach_fresh n0 h v l :
  (∀ l o, (n0 ≤ l)%nat → h !! l = Some o → Forall (fresh_val n0) (children o)) →
  fresh_val n0 v → reach h v l → (n0 ≤ l)%nat.
Proof.
  intros Hobj Hv H. induction H as [l|v l o l' H IH Ho Hin]; [done|].
  specialize (IH Hv). pose proof (Hobj l o IH Ho) as Hc.
  rewrite Forall_forall in Hc. by apply (Hc (HRef l')).
Qed.

(** With fuel for its depth, the copy of a tree of objects returns. *)
Lemma copy_all_total rec vs : ∀ h0 h memo,
  (∀ h memo v h' memo' v', rec h memo v = Some (h', memo', v') → extends h h') →
  (∀ v, v ∈ vs → ∀ h memo, extends h0 h → is_Some (rec h memo v)) →
  extends h0 h → is_Some (copy_all rec vs h memo).
Proof.
  induction vs as [|v vs IH]; intros h0 h memo Hext Hrec Hh; cbn; [done|].
  destruct (Hrec v (list_elem_of_here _ _) h memo Hh) as [[[h1 memo1] v1] E].
  rewrite E.
  assert (extends h0 h1) as Hh1 by (eapply extends_trans; [done|by eapply Hext]).
  destruct (IH h0 h1 memo1 Hext) as [[[h2 memo2] vs2] E2]; [|done|by rewrite E2].
  intros v' Hv'. apply Hrec. by right.
Qed.

Lemma depth_le_lookup h0 l n :
  depth_le h0 (HRef l) n →
  ∃ o m, n = S m ∧ h0 !! l = Some o ∧ Forall (λ v, depth_le h0 v m) (children o).
Proof.
  inversion 1 as [v n' Hatom|l' o m Ho Hc]; subst.
  - by destruct (Hatom l).
  - eauto.
Qed.

Lemma deepcopy_total h0 n : ∀ v h memo,
  depth_le h0 v n → extends h0 h → is_Some (deepcopy n h memo v).
Proof.
  induction n as [|n IH]; intros v h memo Hd Hh.
  - destruct v; cbn; try done.
    apply depth_le_lookup in Hd as (o & m & [=] & _).
  - destruct v; cbn; try done.
    destruct (memo !! l); [done|].
    apply depth_le_lookup in Hd as (o & m & [= <-] & Ho & Hc).
    rewrite (proj2 Hh l) by (by eapply lookup_lt_Some). rewrite Ho.
    destruct (copy_all_total (deepcopy n) (children o) h0 (h ++ [blank o])
                (<[l := length h]> memo)) as [[[h2 memo2] vs] E].
    + apply deepcopy_extends.
    + intros v Hv h1 memo1 Hh1. apply IH; [|done].
      rewrite Forall_forall in Hc. by apply Hc.
    + eapply extends_trans; [done|apply extends_alloc].
    + by rewrite E.
Qed.

Lemma hassoc_pop_key key fields : hassoc key (pop_key key fields) = None.
Proof.
  induction fields as [|[k v] fields IH]; [done|].
  unfold pop_key. rewrite filter_cons. cbn.
  destruct (decide (k ≠ key)) as [Hne|Heq]; [|exact IH].
  cbn. destruct (String.eqb k key) eqn:E; [|exact IH].
  by apply String.eqb_eq in E.
Qed.

Lemma children_pop_key key fields :
  children (HDict (pop_key key fields)) ⊆ children (HDict fields).
Proof.
  cbn. intros v (kv & -> & Hin)%list_elem_of_fmap.
  apply list_elem_of_filter in Hin as [_ Hin]. by apply list_elem_of_fmap_2.
Qed.

(** ** Reading values back *)

Lemma read_ref k h l pv :
  read (S k) h (HRef l) = Some pv ↔
  ∃ o pvs, h !! l = Some o
           ∧ Forall2 (λ v pv, read k h v = Some pv) (children o) pvs
           ∧ pv = build o pvs.
Proof.
  cbn [read]. destruct (h !! l) as [o|]; cbn.
  - destruct (mapM (read k h) (children o)) as [pvs|] eqn:E; cbn.
    + split.
      * intros [= <-]. apply mapM_Some in E. eauto.
      * intros (o' & pvs' & [= <-] & H%mapM_Some & ->). congruence.
    + split; [done|]. intros (o' & pvs' & [= <-] & H%mapM_Some & _). congruence.
  - split; [done|]. by intros (? & ? & ? & _).
Qed.

Lemma read_mono k : ∀ h v pv, read k h v = Some pv → read (S k) h v = Some pv.
Proof.
  induction k as [|k IH]; intros h v pv H.
  - destruct v; first [exact H|done].
  - destruct v; try exact H. apply read_ref in H as (o & pvs & Ho & Hc & ->).
    apply read_ref. exists o, pvs. split; [done|]. split; [|done].
    eapply Forall2_impl; [exact Hc|]. intros; by apply IH.
Qed.

Lemma read_mono_le k k' h v pv :
  (k ≤ k')%nat → read k h v = Some pv → read k' h v = Some pv.
Proof. intros Hle H. induction Hle; [done|]. by apply read_mono. Qed.

Lemma read_det k k' h v pv pv' :
  read k h v = Some pv → read k' h v = Some pv' → pv = pv'.
Proof.
  intros H H'. apply (read_mono_le k (k `max` k')) in H; [|lia].
  apply (read_mono_le k' (k `max` k')) in H'; [|lia]. congruence.
Qed.

Lemma read_none_le k k' h v :
  (k' ≤ k)%nat → read k h v = None → read k' h v = None.
Proof.
  intros Hle H. destruct (read k' h v) as [pv|] eqn:E; [|done].
  apply (read_mono_le k' k) in E; [congruence|done].
Qed.

(** The least fuel that reads a reference. *)
Lemma read_least k : ∀ h l pv,
  read k h (HRef l) = Some pv →
  ∃ m, (S m ≤ k)%nat ∧ read (S m) h (HRef l) = Some pv ∧ read m h (HRef l) = None.
Proof.
  induction k as [|k IH]; intros h l pv H; [done|].
  destruct (read k h (HRef l)) as [pv'|] eqn:E.
  - destruct (IH h l pv' E) as (m & Hm & H1 & H2). exists m.
    rewrite (read_det _ _ _ _ _ _ H (read_mono _ _ _ _ E)). split; [lia|done].
  - exists k. done.
Qed.

(** A reading only looks at objects that are there. *)
Lemma read_agree k : ∀ h h' v pv,
  (∀ l o, h !! l = Some o → h' !! l = Some o) →
  read k h v = Some pv → read k h' v = Some pv.
Proof.
  induction k as [|k IH]; intros h h' v pv Hh H.
  - destruct v; first [exact H|done].
  - destruct v; try exact H. apply read_ref in H as (o & pvs & Ho & Hc & ->).
    apply read_ref. exists o, pvs. split; [by apply Hh|]. split; [|done].
    eapply Forall2_impl; [exact Hc|]. intros v pv Hv. by apply (IH h).
Qed.

Lemma read_extends k h h' v pv :
  extends h h' → read k h v = Some pv → read k h' v = Some pv.
Proof.
  intros [_ He]. apply read_agree. intros l o Ho.
  rewrite He; [done|]. by eapply lookup_lt_Some.
Qed.

Lemma read_depth k : ∀ h v pv, read k h v = Some pv → depth_le h v k.
Proof.
  induction k as [|k IH]; intros h v pv H.
  - destruct v; first [by apply depth_atom|done].
  - destruct v; try (by apply depth_atom).
    apply read_ref in H as (o & pvs & Ho & Hc & _).
    eapply depth_ref; [exact Ho|].
    eapply Forall2_Forall_l; [exact Hc|]. apply Forall_true. intros pv' v Hv.
    by eapply IH.
Qed.

(** Writing an object that a reading never gets to does not change it. *)
Lemma read_insert_unreadable k : ∀ h a o' v pv,
  read k h (HRef a) = None → read k h v = Some pv →
  read k (<[a := o']> h) v = Some pv.
Proof.
  induction k as [|k IH]; intros h a o' v pv Ha H.
  - destruct v; first [exact H|done].
  - destruct v; try exact H.
    destruct (decide (l = a)) as [->|Hne]; [congruence|].
    apply read_ref in H as (o & pvs & Ho & Hc & ->).
    apply read_ref. exists o, pvs.
    split; [by rewrite list_lookup_insert_ne|]. split; [|done].
    eapply Forall2_impl; [exact Hc|]. intros v pv Hv. apply IH; [|done].
    by apply (read_none_le (S k)); [lia|].
Qed.

Lemma sealed_val_path n0 path path' h v :
  (∀ b, b ∈ path' → b ∈ path) → sealed_val n0 path h v → sealed_val n0 path' h v.
Proof.
  destruct v; try done. cbn. intros Hp (? & ? & Hb).
  split; [done|]. split; [done|]. intros Hin. by apply Hb, Hp.
Qed.

Lemma sealed_val_length n0 path h h' v :
  (length h ≤ length h')%nat → sealed_val n0 path h v → sealed_val n0 path h' v.
Proof. destruct v; try done. cbn. intros Hl (? & ? & Hb). split; [done|]. split; [lia|done]. Qed.

(** Filling an object in the making does not change what complete objects
    read as. *)
Lemma read_fill n0 path h a o' k :
  closed_new n0 path h → a ∈ path →
  ∀ v, sealed_val n0 path h v → read k (<[a := o']> h) v = read k h v.
Proof.
  intros Hcl Ha. induction k as [|k IH]; intros v Hv.
  - by destruct v.
  - destruct v; try done. destruct Hv as (Hn0 & Hlen & Hb). cbn [read].
    rewrite list_lookup_insert_ne by (intros ->; done).
    destruct (h !! l) as [o|] eqn:Ho; [|done]. cbn.
    rewrite (Forall_mapM_ext _ (read k h) (children o)); [done|].
    eapply Forall_impl; [by eapply Hcl|]. intros v Hv. by apply IH.
Qed.

Lemma children_rebuild o vs :
  length vs = length (children o) → children (rebuild o vs) = vs.
Proof.
  destruct o as [fields|items]; cbn; [|done]. intros H.
  rewrite length_fmap in H. apply snd_zip. rewrite length_fmap. lia.
Qed.

Lemma build_rebuild o vs pvs :
  length vs = length (children o) → build (rebuild o vs) pvs = build o pvs.
Proof.
  destruct o as [fields|items]; cbn; [|done]. intros H.
  rewrite length_fmap in H. rewrite fst_zip; [done|]. rewrite length_fmap. lia.
Qed.

Lemma copy_all_length rec vs : ∀ h memo h' memo' vs',
  copy_all rec vs h memo = Some (h', memo', vs') → length vs' = length vs.
Proof.
  induction vs as [|v vs IH]; intros h memo h' memo' vs' H; cbn in H.
  - by injection H as <- <- <-.
  - destruct (rec h memo v) as [[[h1 memo1] v1]|]; [|done].
    destruct (copy_all rec vs h1 memo1) as [[[h2 memo2] vs2]|] eqn:E2; [|done].
    injection H as <- <- <-. cbn. f_equal. by eapply IH.
Qed.

Lemma deepcopy_atom fuel h memo v :
  (∀ l, v ≠ HRef l) → deepcopy fuel h memo v = Some (h, memo, v).
Proof. intros H. destruct fuel, v; try done; by destruct (H l). Qed.

Lemma deepcopy_ref fuel h memo l h' memo' v' :
  deepcopy fuel h memo (HRef l) = Some (h', memo', v') →
  (∃ l', memo !! l = Some l' ∧ h' = h ∧ memo' = memo ∧ v' = HRef l')
  ∨ (memo !! l = None
     ∧ ∃ fuel' o h2 vs,
         fuel = S fuel' ∧ h !! l = Some o
         ∧ copy_all (deepcopy fuel') (children o) (h ++ [blank o])
             (<[l := length h]> memo) = Some (h2, memo', vs)
         ∧ h' = <[length h := rebuild o vs]> h2 ∧ v' = HRef (length h)).
Proof.
  intros H. destruct fuel as [|fuel]; cbn in H.
  - destruct (memo !! l) as [l'|]; [|done]. injection H as <- <- <-. left. eauto.
  - destruct (memo !! l) as [l'|]; [injection H as <- <- <-; left; eauto|].
    right. split; [done|].
    destruct (h !! l) as [o|]; [|done].
    destruct (copy_all _ _ _ _) as [[[h2 memo2] vs]|] eqn:E; [|done].
    injection H as <- <- <-. by exists fuel, o, h2, vs.
Qed.

Lemma copy_all_reads h0 k path rec vs : ∀ h memo h' memo' vs' pvs,
  (∀ h memo v h' memo' v' pv,
     read k h0 v = Some pv → rec h memo v = Some (h', memo', v') →
     read_inv h0 path h memo → unread h0 k path memo →
     copy_ok h0 path memo h' memo'
     ∧ read k h' v' = Some pv ∧ sealed_val (length h0) path h' v') →
  (∀ h memo v h' memo' v', rec h memo v = Some (h', memo', v') → extends h h') →
  Forall2 (λ v pv, read k h0 v = Some pv) vs pvs →
  copy_all rec vs h memo = Some (h', memo', vs') →
  read_inv h0 path h memo → unread h0 k path memo →
  copy_ok h0 path memo h' memo'
  ∧ Forall2 (λ v pv, read k h' v = Some pv) vs' pvs
  ∧ Forall (sealed_val (length h0) path h') vs'.
Proof.
  induction vs as [|v vs IH]; intros h memo h' memo' vs' pvs Hrec Hext Hr H Hinv Hun;
    cbn in H.
  - injection H as <- <- <-. apply Forall2_nil_inv_l in Hr as ->.
    split; [by split|]. by split.
  - apply Forall2_cons_inv_l in Hr as (pv & pvs' & Hpv & Hpvs & ->).
    destruct (rec h memo v) as [[[h1 memo1] v1]|] eqn:E; [|done].
    destruct (copy_all rec vs h1 memo1) as [[[h2 memo2] vs2]|] eqn:E2; [|done].
    injection H as <- <- <-.
    destruct (Hrec _ _ _ _ _ _ _ Hpv E Hinv Hun) as ([Hinv1 Hold1] & Hv1 & Hs1).
    assert (unread h0 k path memo1) as Hun1.
    { intros l l' Hl Hp. eapply Hun; [|done]. by apply Hold1. }
    destruct (IH _ _ _ _ _ _ Hrec Hext Hpvs E2 Hinv1 Hun1) as ([Hinv2 Hold2] & Hvs & Hss).
    assert (extends h1 h2) as Hext12 by (by eapply copy_all_extends).
    split; [split; [done|]|split].
    + intros l l' Hl Hp. apply Hold1; [|done]. by apply Hold2.
    + constructor; [|done]. by eapply read_extends.
    + constructor; [|done]. eapply sealed_val_length; [|done]. apply Hext12.
Qed.

(** The copy of a value reads as the value does. *)
Lemma deepcopy_reads h0 k : ∀ fuel path h memo v h' memo' v' pv,
  read k h0 v = Some pv → deepcopy fuel h memo v = Some (h', memo', v') →
  read_inv h0 path h memo → unread h0 k path memo →
  copy_ok h0 path memo h' memo'
  ∧ read k h' v' = Some pv ∧ sealed_val (length h0) path h' v'.
Proof.
  induction k as [|k IH]; intros fuel path h memo v h' memo' v' pv Hr Hc Hinv Hun.
  { destruct v; try done;
      rewrite deepcopy_atom in Hc by done; injection Hc as <- <- <-;
      (split; [by split|]); by split. }
  destruct v as [| | | | |l];
    try (rewrite deepcopy_atom in Hc by done; injection Hc as <- <- <-;
         (split; [by split|]); by split).
  pose proof Hinv as (Hext & Hmemo & Hpath & Hcl & Hfaith).
  apply deepcopy_ref in Hc
    as [(l' & Hl & -> & -> & ->)
       |(Hl & fuel' & o & h2 & vs & -> & Ho & Hcopy & -> & ->)].
  { destruct (decide (l' ∈ path)) as [Hin|Hnin].
    { rewrite (Hun l l' Hl Hin) in Hr. done. }
    split; [by split|]. split; [by eapply Hfaith|].
    destruct (Hmemo l l' Hl). by repeat split. }
  destruct (read k h0 (HRef l)) as [pv'|] eqn:Hlow.
  { (* readable with less fuel *)
    assert (pv' = pv) as -> by (eapply read_det; [exact Hlow|exact Hr]).
    assert (deepcopy (S fuel') h memo (HRef l)
            = Some (<[length h := rebuild o vs]> h2, memo', HRef (length h))) as Hc.
    { cbn. by rewrite Hl, Ho, Hcopy. }
    destruct (IH (S fuel') path h memo (HRef l) _ _ _ pv Hlow Hc Hinv)
      as (Hok & Hread & Hseal).
    { intros l1 l1' H1 Hp. apply (read_none_le (S k)); [lia|]. by eapply Hun. }
    split; [done|]. split; [by apply read_mono|done]. }
  apply read_ref in Hr as (o0 & pvs & Ho0 & Hch & ->).
  assert (o0 = o) as ->.
  { destruct Hext as [_ He]. rewrite He in Ho by (by eapply lookup_lt_Some).
    congruence. }
  set (n0 := length h0) in *. set (l' := length h) in *.
  assert (n0 ≤ l')%nat as Hn0 by apply Hext.
  assert (l' ∉ path) as Hl'path.
  { intros Hin. apply Hpath in Hin. unfold l' in Hin. lia. }
  (* the state after the new object has been allocated *)
  assert (read_inv h0 (l' :: path) (h ++ [blank o]) (<[l := l']> memo)) as Hinv1.
  { split; [eapply extends_trans; [done|apply extends_alloc]|].
    split.
    { intros l1 l1' H1. rewrite length_app. cbn.
      destruct (decide (l = l1)) as [<-|Hne].
      - rewrite lookup_insert_eq in H1. injection H1 as <-. unfold l'. lia.
      - rewrite lookup_insert_ne in H1 by done. destruct (Hmemo _ _ H1). lia. }
    split.
    { intros p [->|Hp]%elem_of_cons; rewrite length_app; cbn; [unfold l'; lia|].
      apply Hpath in Hp. lia. }
    split.
    { intros a oa Ha Hnot Hoa.
      apply not_elem_of_cons in Hnot as [Hne Hnot].
      assert (a < length h)%nat as Hlt.
      { apply lookup_lt_Some in Hoa. rewrite length_app in Hoa. cbn in Hoa.
        unfold l' in Hne. lia. }
      rewrite lookup_app_l in Hoa by done.
      eapply Forall_impl; [by eapply Hcl|]. intros v Hv.
      destruct v; try done. destruct Hv as (? & ? & ?).
      split; [done|]. split; [rewrite length_app; cbn; lia|].
      apply not_elem_of_cons. split; [unfold l'; lia|done]. }
    intros l1 l1' H1 Hnot j pv Hj.
    apply not_elem_of_cons in Hnot as [Hne Hnot].
    destruct (decide (l = l1)) as [<-|Hne1].
    { rewrite lookup_insert_eq in H1. by injection H1 as <-. }
    rewrite lookup_insert_ne in H1 by done.
    eapply read_extends; [apply extends_alloc|]. by eapply Hfaith. }
  assert (unread h0 k (l' :: path) (<[l := l']> memo)) as Hun1.
  { intros l1 l1' H1 Hp. destruct (decide (l = l1)) as [<-|Hne1]; [done|].
    rewrite lookup_insert_ne in H1 by done.
    apply elem_of_cons in Hp as [->|Hp].
    - destruct (Hmemo _ _ H1). unfold l' in *. lia.
    - apply (read_none_le (S k)); [lia|]. by eapply Hun. }
  destruct (copy_all_reads h0 k (l' :: path) (deepcopy fuel') (children o)
              _ _ _ _ _ pvs (λ h memo v h' memo' v' pv, IH fuel' (l' :: path) h memo v h' memo' v' pv)
              (deepcopy_extends fuel') Hch Hcopy Hinv1 Hun1)
    as ([Hinv2 Hold2] & Hvs & Hss).
  pose proof Hinv2 as (Hext2 & Hmemo2 & Hpath2 & Hcl2 & Hfaith2).
  assert (l' < length h2)%nat as Hl'2 by (apply Hpath2; by left).
  assert (length vs = length (children o)) as Hlen by (by eapply copy_all_length).
  set (h3 := <[l' := rebuild o vs]> h2).
  assert (read (S k) h3 (HRef l') = Some (build o pvs)) as Hread.
  { apply read_ref. exists (rebuild o vs), pvs.
    split; [by apply list_lookup_insert_eq|]. split; [|by rewrite build_rebuild].
    rewrite children_rebuild by done.
    apply Forall2_same_length_lookup. split; [by eapply Forall2_length|].
    intros i v pv Hv Hpv. unfold h3.
    rewrite (read_fill n0 (l' :: path) h2 l' _ k Hcl2); [|by left|].
    - exact (Forall2_lookup_lr _ _ _ _ _ _ Hvs Hv Hpv).
    - rewrite Forall_forall in Hss. apply Hss. by eapply list_elem_of_lookup_2. }
  assert (∀ l1 l1', memo' !! l1 = Some l1' → l1' ∈ path → memo !! l1 = Some l1')
    as Hold.
  { intros l1 l1' H1 Hp.
    pose proof (Hold2 l1 l1' H1 ltac:(by right)) as H1'.
    destruct (decide (l = l1)) as [<-|Hne1].
    - rewrite lookup_insert_eq in H1'. injection H1' as <-. done.
    - by rewrite lookup_insert_ne in H1'. }
  split; [split; [|exact Hold]|split; [exact Hread|]].
  2:{ cbn. unfold h3. rewrite length_insert. done. }
  split; [apply extends_fill; [done|done]|].
  split; [intros l1 l1' H1; unfold h3; rewrite length_insert; by eapply Hmemo2|].
  split; [intros p Hp; unfold h3; rewrite length_insert; apply Hpath2; by right|].
  split.
  { intros a oa Ha Hnot Hoa. unfold h3 in *.
    assert (Forall (sealed_val n0 (l' :: path) h2) (children oa)) as Hsealed.
    { destruct (decide (l' = a)) as [<-|Hne].
      - rewrite list_lookup_insert_eq in Hoa by done. injection Hoa as <-.
        by rewrite children_rebuild.
      - rewrite list_lookup_insert_ne in Hoa by done.
        eapply Hcl2; [done| |done]. apply not_elem_of_cons. by split. }
    eapply Forall_impl; [exact Hsealed|]. intros v Hv.
    apply (sealed_val_length n0 path h2); [by rewrite length_insert|].
    eapply sealed_val_path; [|exact Hv]. intros b Hb. by right. }
  intros l1 l1' H1 Hnot j pv Hj.
  destruct (decide (l1' = l')) as [->|Hne].
  - assert (l1 = l) as ->.
    { pose proof (Hold2 l1 l' H1 ltac:(by left)) as H1'.
      destruct (decide (l = l1)) as [<-|Hne1]; [done|].
      rewrite lookup_insert_ne in H1' by done.
      destruct (Hmemo _ _ H1'). unfold l' in *. lia. }
    destruct (decide (j ≤ k)%nat) as [Hle|Hgt].
    { apply (read_mono_le j k) in Hj; [congruence|done]. }
    assert (read (S k) h0 (HRef l) = Some (build o pvs)) as Hr.
    { apply read_ref. by exists o, pvs. }
    rewrite (read_det _ _ _ _ _ _ Hj Hr).
    apply (read_mono_le (S k)); [lia|exact Hread].
  - unfold h3.
    rewrite (read_fill n0 (l' :: path) h2 l' _ j Hcl2); [|by left|].
    + eapply Hfaith2; [done| |done]. apply not_elem_of_cons. by split.
    + cbn. destruct (Hmemo2 _ _ H1). split; [done|]. split; [done|].
      apply not_elem_of_cons. by split.
Qed.

Lemma read_inv_start h0 : read_inv h0 [] h0 ∅.
Proof.
  split; [apply extends_refl|].
  split; [intros ? ? H; by rewrite lookup_empty in H|].
  split; [by intros ? ?%elem_of_nil|].
  split; [|intros ? ? H; by rewrite lookup_empty in H].
  intros a o Ha _ Ho. apply lookup_lt_Some in Ho. lia.
Qed.

(** [deepcopy] of a value that can be read returns, and its result reads as
    the value does. *)
Lemma deepcopy_read_back h0 n r pv :
  read n h0 (HRef r) = Some pv →
  ∃ h' memo' r',
    deepcopy n h0 ∅ (HRef r) = Some (h', memo', HRef r')
    ∧ read n h' (HRef r') = Some pv ∧ (r' < length h')%nat.
Proof.
  intros Hr.
  destruct (deepcopy_total h0 n (HRef r) h0 ∅ (read_depth _ _ _ _ Hr) (extends_refl h0))
    as [[[h' memo'] v'] Hc].
  destruct (deepcopy_reads h0 n n [] h0 ∅ (HRef r) h' memo' v' pv Hr Hc
              (read_inv_start h0)) as (_ & Hread & Hs).
  { by intros ? ? _ ?%elem_of_nil. }
  assert (∃ r', v' = HRef r') as [r' ->].
  { apply deepcopy_ref in Hc as [(? & _ & _ & _ & ->)|(_ & ? & ? & ? & ? & _ & _ & _ & _ & ->)];
      eauto. }
  exists h', memo', r'. split; [done|]. split; [done|]. by destruct Hs as (_ & ? & _).
Qed.

Lemma pop_fields (f : hval → option pyval) key hfields : ∀ pvs,
  Forall2 (λ v pv, f v = Some pv) (snd <$> hfields) pvs →
  Forall2 (λ v pv, f v = Some pv) (snd <$> pop_key key hfields)
          (snd <$> pop_field key (zip (fst <$> hfields) pvs))
  ∧ zip (fst <$> pop_key key hfields)
        (snd <$> pop_field key (zip (fst <$> hfields) pvs))
    = pop_field key (zip (fst <$> hfields) pvs).
Proof.
  induction hfields as [|[k v] hfields IH]; intros pvs H.
  { apply Forall2_nil_inv_l in H as ->. by split. }
  cbn in H. apply Forall2_cons_inv_l in H as (pv & pvs' & Hpv & Hpvs & ->).
  destruct (IH pvs' Hpvs) as [IH1 IH2].
  unfold pop_key, pop_field in *. cbn [fmap list_fmap zip zip_with fst snd].
  rewrite !filter_cons. cbn [fst].
  destruct (decide (k ≠ key)); cbn [fmap list_fmap zip zip_with fst snd].
  - split; [by constructor|]. by rewrite IH2.
  - done.
Qed.

(** [pop] on the root of a value that was read: the value without the
    key. *)
Lemma read_pop n h r hfields fields key :
  read n h (HRef r) = Some (PDict fields) → h !! r = Some (HDict hfields) →
  read n (<[r := HDict (pop_key key hfields)]> h) (HRef r)
  = Some (PDict (pop_field key fields)).
Proof.
  intros Hr Ho.
  destruct (read_least n h r _ Hr) as (m & Hm & H1 & H2).
  apply (read_mono_le (S m)); [done|].
  apply read_ref in H1 as (o & pvs & Ho' & Hc & Hb).
  rewrite Ho in Ho'. injection Ho' as <-. cbn in Hc, Hb. injection Hb as ->.
  apply read_ref.
  exists (HDict (pop_key key hfields)),
         (snd <$> pop_field key (zip (fst <$> hfields) pvs)).
  split; [apply list_lookup_insert_eq; by eapply lookup_lt_Some|].
  destruct (pop_fields (read m (<[r := HDict (pop_key key hfields)]> h)) key
              hfields pvs) as [Hf Hz].
  { eapply Forall2_impl; [exact Hc|]. intros v pv Hv.
    by apply read_insert_unreadable. }
  split; [exact Hf|]. cbn. by rewrite Hz.
Qed.

Lemma llm_value_pop s :
  ∃ fields, state_value s = PDict fields
            ∧ llm_value (llm_view s) = PDict (pop_field "terminated" fields).
Proof. eexists. split; reflexivity. Qed.

(** C10. The state handed to the port is a deep copy without the
    [terminated] key.  In a turn that consults the port, let the engine's
    state dict, as it is at line 182, lie at address [r] of the store.
    Then [deepcopy(state)] followed by [pop("terminated", None)] returns a
    new dict that reads as the argument [next_step] gives to [survey_step]:
    the state, field for field and value for value, without the
    [terminated] key, which the new dict does not have.  The copy leaves
    every object of the store as it
    was; and whatever the port then does to the objects it can reach from
    its argument, every object that existed before the copy is still as
    it was, and the engine's state dict still reads as the state with
    which [next_step] goes on. *)
Theorem C10_llm_state_is_a_separate_copy surveys ag db sid svid d s0 m s q h0 r n :
  surveys !! svid = Some d → db !! sid = Some s0 →
  turn_gate ag d s0 m = GateAsk s q →
  read n h0 (HRef r) = Some (state_value s) →
  ∃ h1 r1,
    prepare_llm_state n h0 r = Some (h1, r1)
    ∧ extends h0 h1
    ∧ read n h1 (HRef r1) = Some (llm_value (llm_view s))
    ∧ (∃ fields1, h1 !! r1 = Some (HDict fields1)
                  ∧ hassoc "terminated" fields1 = None)
    ∧ next_step surveys ag db sid svid m
      = (let response := survey_step ag (llm_view s) d (message_text m) in
         x <- interpret q response ;;
         match x with
         | inl text => Ret (_handle_clarification db s (q_id q) text)
         | inr v => advance d db sid s q v response
         end)
    ∧ ∀ h2, mutates_within h1 (HRef r1) h2 →
            (∀ l, (l < length h0)%nat → h2 !! l = h0 !! l)
            ∧ read n h2 (HRef r) = Some (state_value s).
Proof.
  intros Hd Hs Hgate Hr.
  destruct (llm_value_pop s) as (fields & Hsv & ->). rewrite Hsv in Hr.
  destruct (deepcopy_read_back h0 n r _ Hr) as (h' & memo' & r1 & Hcopy & Hread & Hlt).
  pose proof (deepcopy_extends _ _ _ _ _ _ _ Hcopy) as Hext.
  assert (copy_inv (length h0) h0 ∅) as Hinv0.
  { split; [lia|]. split; [intros ? ? H; by rewrite lookup_empty in H|].
    intros l o Hl Ho. apply lookup_lt_Some in Ho. lia. }
  destruct (deepcopy_inv _ _ _ _ _ _ _ _ Hinv0 Hcopy) as [(Hlen & _ & Hobj) Hv'].
  cbn in Hv'.
  assert (∃ hfields, h' !! r1 = Some (HDict hfields)) as [hfields Hroot].
  { destruct n as [|n]; [done|].
    apply read_ref in Hread as (o & pvs & Ho & _ & Hb).
    destruct o; [eauto|done]. }
  set (h1 := <[r1 := HDict (pop_key "terminated" hfields)]> h').
  exists h1, r1.
  assert (extends h0 h1) as Hext1 by (apply extends_fill; [done|lia]).
  split; [unfold prepare_llm_state; by rewrite Hcopy, Hroot|].
  split; [done|]. split; [by apply read_pop|]. split.
  { eexists. split; [|apply hassoc_pop_key].
    apply list_lookup_insert_eq. by eapply lookup_lt_Some. }
  split.
  { rewrite next_step_unfold, Hd, Hs, Hgate. done. }
  intros h2 Hport.
  assert (∀ l, (l < length h0)%nat → h2 !! l = h0 !! l) as Hframe.
  { intros l Hl. rewrite Hport.
    - by apply Hext1.
    - destruct Hext1 as [L _]. lia.
    - intros Hreach. apply (reach_fresh (length h0)) in Hreach; [lia| |done].
      intros l1 o1 Hl1 H1. unfold h1 in H1. destruct (decide (r1 = l1)) as [<-|Hne].
      + apply list_lookup_insert_Some in H1 as [(_ & <- & _)|[? _]]; [|done].
        pose proof (Hobj r1 _ Hl1 Hroot) as Hc. rewrite Forall_forall in Hc |- *.
        intros v Hv. apply Hc. by apply (children_pop_key "terminated").
      + rewrite list_lookup_insert_ne in H1 by done. by eapply Hobj. }
  split; [exact Hframe|]. rewrite Hsv.
  eapply read_agree; [|exact Hr]. intros l o Ho.
  rewrite Hframe; [done|]. by eapply lookup_lt_Some.
Qed.

Lemma C10_llm_state_is_a_separate_copy_witness :
  let ag := scripted on_topic (reply (PStr "Yes") PNone) in
  let s := _append_history opened_state user (PStr "Yes") (Some "Q1") in
  let h0 := (alloc (state_value s) [HList []]).1 in
  ∃ r,
    turn_gate ag CULTURE_DISCRIMINATION opened_state (Some "Yes") = GateAsk s Q1
    ∧ read 3 h0 (HRef r) = Some (state_value s)
    ∧ ∃ h1 r1,
        prepare_llm_state 3 h0 r = Some (h1, r1)
        ∧ read 3 h1 (HRef r1) = Some (llm_value (llm_view s))
        ∧ ∀ h2, mutates_within h1 (HRef r1) h2 →
                read 3 h2 (HRef r) = Some (state_value s).
Proof.
  cbv zeta.
  set (ag := scripted on_topic (reply (PStr "Yes") PNone)).
  set (s := _append_history opened_state user (PStr "Yes") (Some "Q1")).
  assert (opened_db !! "s1" = Some opened_state) as Hs by (vm_compute; reflexivity).
  assert (turn_gate ag CULTURE_DISCRIMINATION opened_state (Some "Yes") = GateAsk s Q1)
    as Hg by (vm_compute; reflexivity).
  assert (∃ r, (alloc (state_value s) [HList []]).2 = HRef r
               ∧ read 3 (alloc (state_value s) [HList []]).1 (HRef r)
                 = Some (state_value s)) as (r & _ & Hr).
  { eexists. split; vm_compute; reflexivity. }
  exists r. split; [exact Hg|]. split; [exact Hr|].
  destruct (C10_llm_state_is_a_separate_copy SURVEYS ag opened_db "s1" SURVEY_ID
              CULTURE_DISCRIMINATION opened_state (Some "Yes") s Q1 _ r 3
              eq_refl Hs Hg Hr) as (h1 & r1 & Hp & _ & Hread & _ & _ & Hframe).
  exists h1, r1. split; [exact Hp|]. split; [exact Hread|].
  intros h2 Hm. exact (proj2 (Hframe h2 Hm)).
Defined.

(** ** Clarification turns *)

(** A turn that clarifies saves the state it started from with skips
    marked and two transcript entries added (the user's message and the
    clarification text, both tied to the current question), and returns the
    clarification text. *)
Lemma clarification_turn surveys ag db sid svid d s m c q text :
  surveys !! svid = Some d → db !! sid = Some s → session_id s = sid →
  terminated s = false → _moderate_answer ag d m (history s) = true →
  current_question_id s = Some c → _get_question_map d !! c = Some q →
  let asked_state := _append_history (_mark_conditionally_skipped s d) user
                       (PStr (message_text m)) (Some (q_id q)) in
  interpret q (survey_step ag (llm_view asked_state) d (message_text m))
  = Ret (inl text) →
  next_step surveys ag db sid svid m
  = Ret (<[sid := _append_history asked_state assistant text (Some (q_id q))]> db,
         {| r_session_id := sid; r_interview_id := None; r_message := text |}).
Proof.
  intros Hd Hs Hid Ht Hm Hc Hq asked_state Hi.
  rewrite next_step_unfold, Hd, Hs.
  rewrite (turn_gate_ask_intro ag d s m c q Ht Hm Hc Hq).
  fold asked_state. cbv zeta. rewrite Hi. cbn [exc_bind].
  unfold _handle_clarification, _save_state. cbn. by rewrite Hid.
Qed.

(** ** Every saved state is one of the effects *)

Lemma py_call_get_raise v k e : py_call_get v k = Raise e → e = AttributeError.
Proof. destruct v; cbn; by intros [=]. Qed.

Lemma interpret_raises q response e :
  interpret q response = Raise e → e = AttributeError.
Proof.
  unfold interpret.
  destruct (py_call_get _ "value") as [pv|e1] eqn:E1; cbn [exc_bind];
    [|intros [= <-]; by eapply py_call_get_raise].
  destruct (_normalize_answer q pv) as [[nv valid] needs].
  destruct (py_call_get response "need_clarification") as [f|e2] eqn:E2;
    cbn [exc_bind]; [|intros [= <-]; by eapply py_call_get_raise].
  destruct (py_truthy _); [|done].
  destruct (py_call_get response "clarification_question") as [t|e3] eqn:E3;
    cbn [exc_bind]; [done|intros [= <-]; by eapply py_call_get_raise].
Qed.

Lemma begin_session_effect surveys db sid svid d :
  surveys !! svid = Some d →
  ∃ s' r, begin_session surveys db sid svid = Ret (<[sid := s']> db, r)
          ∧ begin_effect d sid svid s' ∧ r_session_id r = sid
          ∧ r_interview_id r = Some svid.
Proof.
  intros Hd. rewrite (begin_session_eq _ _ _ _ d Hd). cbv zeta.
  pose proof (deterministic_next_question_frame (_initial_state sid svid d) d)
    as (Hid & _).
  change (session_id (_initial_state sid svid d)) with sid in Hid.
  destruct (id_truthy _) eqn:T; cbn [negb].
  - destruct (_deterministic_next_question _ d).1 as [nid|] eqn:En; [|done].
    destruct (scan_next_found (answers (_initial_state sid svid d))
                (drop (scan_start (_initial_state sid svid d) d) (questions d))
                (question_status (_mark_conditionally_skipped
                                    (_initial_state sid svid d) d)) nid)
      as (q & Hq & Hqid & _).
    { by rewrite deterministic_next_question_eq in En. }
    destruct (question_map_mem d q) as [nq Hnq]; [by eapply subseteq_drop|].
    rewrite Hqid in Hnq. rewrite Hnq.
    eexists _, _. split; [unfold _save_state; cbn; by rewrite Hid|].
    split; [|done]. apply begin_ask; [done| |done].
    cbn in T. intros ->. done.
  - eexists _, _. split; [unfold _save_state; cbn; by rewrite Hid|].
    split; [|done]. by apply begin_end.
Qed.

Lemma next_step_effect surveys ag db sid svid d s m :
  surveys !! svid = Some d → db !! sid = Some s → session_id s = sid →
  match next_step surveys ag db sid svid m with
  | Ret (db', r) =>
      r_session_id r = sid
      ∧ ((terminated s = true ∧ db' = db ∧ r_message r = PStr (end_message_of d))
         ∨ (terminated s = false
            ∧ ∃ s', db' = <[sid := s']> db ∧ turn_effect d s s'))
  | Raise e => terminated s = false ∧ e = AttributeError
  end.
Proof.
  intros Hd Hs Hid. rewrite next_step_unfold, Hd, Hs.
  destruct (turn_gate ag d s m) as [|s1|s1|s1 q] eqn:G.
  - split; [done|]. left. by apply turn_gate_replay in G.
  - apply turn_gate_off_topic in G as (Ht & -> & _). split; [exact Hid|].
    right. split; [done|].
    eexists. split; [unfold _off_topic_response, _save_state; cbn; by rewrite Hid|].
    apply effect_off_topic.
  - pose proof G as G'. apply turn_gate_lost in G' as (Ht & ->). split; [done|].
    right. split; [done|].
    eexists. split; [unfold _save_state; cbn; by rewrite Hid|].
    apply effect_lost. unfold turn_gate in G. rewrite Ht in G.
    destruct (negb _); [done|]. cbn in G. by destruct (current_question_id s ≫= _).
  - apply turn_gate_ask in G as (Ht & -> & (c & Hc & Hq) & _). cbv zeta.
    set (s1 := _append_history _ user _ _).
    set (response := survey_step ag _ d _).
    destruct (interpret q response) as [[text|v]|e] eqn:Hi; cbn [exc_bind].
    + split; [exact Hid|]. right. split; [done|]. eexists.
      split; [unfold _handle_clarification, _save_state; cbn; by rewrite Hid|].
      by eapply effect_clarify.
    + apply interpret_accepts in Hi as (fields & raw & _ & _ & Hn & _).
      assert (session_id (candidates (_store_answer s1 q v) d).2 = sid) as Hid'.
      { destruct (candidates_frame (_store_answer s1 q v) d) as (-> & _). exact Hid. }
      destruct (advance_returns d db sid s1 q v response)
        as [[Htr ->]|(nid & nq & Hch & Hne & Hnq & ->)].
      * split; [done|]. right. split; [done|]. eexists.
        split; [unfold _save_state; cbn; by rewrite Hid'|].
        by eapply effect_end.
      * split; [done|]. right. split; [done|]. eexists.
        split; [unfold _save_state; cbn; by rewrite Hid'|].
        by eapply effect_ask.
    + split; [done|]. by eapply interpret_raises.
Qed.

Lemma turn_effect_session d s s' : turn_effect d s s' → session_id s' = session_id s.
Proof.
  destruct 1; try done; exact (proj1 (candidates_frame stored d)).
Qed.

Lemma begin_effect_session d sid svid s' : begin_effect d sid svid s' → session_id s' = sid.
Proof.
  destruct 1;
    exact (proj1 (deterministic_next_question_frame (_initial_state sid svid d) d)).
Qed.

(** An invariant of the states of one session of one survey: it holds of
    the state [begin_session] saves and every turn keeps it. *)
Lemma session_invariant (I : state → Prop) surveys sid svid d :
  surveys !! svid = Some d →
  (∀ s', begin_effect d sid svid s' → I s') →
  (∀ s s', I s → session_id s = sid → terminated s = false →
           turn_effect d s s' → I s') →
  ∀ calls db, (∀ s, db !! sid = Some s → session_id s = sid ∧ I s) →
  ∀ s, exec_session surveys sid svid db calls !! sid = Some s →
       session_id s = sid ∧ I s.
Proof.
  intros Hd Hbegin Hturn calls.
  induction calls as [|[m ag] calls IH]; intros db Hdb; [done|].
  cbn. apply IH. clear IH. cbn.
  destruct (db !! sid) as [s|] eqn:Hs.
  - destruct (Hdb s eq_refl) as [Hid HI].
    pose proof (next_step_effect surveys ag db sid svid d s m Hd Hs Hid) as He.
    destruct (next_step surveys ag db sid svid m) as [[db' r]|e]; cbn.
    + destruct He as [_ [(_ & -> & _)|(Ht & s' & -> & He)]].
      * intros s0 H0. rewrite Hs in H0. injection H0 as <-. done.
      * intros s0 H0. rewrite lookup_insert_eq in H0. injection H0 as <-.
        split; [by rewrite (turn_effect_session d s s' He)|by eapply Hturn].
    + intros s0 H0. rewrite Hs in H0. injection H0 as <-. done.
  - unfold next_step, _load_state. rewrite Hd, Hs.
    destruct (begin_session_effect surveys db sid svid d Hd)
      as (s' & r & -> & He & _).
    cbn. intros s0 H0. rewrite lookup_insert_eq in H0. injection H0 as <-.
    split; [by eapply begin_effect_session|by apply Hbegin].
Qed.

(** ** Further properties of the policy and of the normalizer *)


(** X2. The two flags of the normalizer are complementary, and an invalid
    result never carries the raw value: it is the empty string or the empty
    list. *)
Theorem X2_normalize_flags q v :
  (_normalize_answer q v).2 = negb (_normalize_answer q v).1.2
  ∧ ((_normalize_answer q v).1.2 = false →
     (_normalize_answer q v).1.1 = PStr "" ∨ (_normalize_answer q v).1.1 = PList []).
Proof.
  unfold _normalize_answer. destruct (py_eq_str v "SKIP"); [by split|].
  destruct (q_type q), v; cbn; try (split; [done|]; intros; by (left + right));
    try (destruct (py_in _ _); cbn; split; try done; intros; by left);
    destruct (forallb _ _); cbn; split; try done; intros; by right.
Qed.

Lemma X2_normalize_flags_witness :
  (_normalize_answer Q1 (PStr "Maybe")).1.2 = false
  ∧ ((_normalize_answer Q1 (PStr "Maybe")).1.1 = PStr ""
     ∨ (_normalize_answer Q1 (PStr "Maybe")).1.1 = PList []).
Proof.
  assert ((_normalize_answer Q1 (PStr "Maybe")).1.2 = false) as H
    by (vm_compute; reflexivity).
  split; [exact H|].
  exact (proj2 (X2_normalize_flags Q1 (PStr "Maybe")) H).
Defined.

(** X3. For a question that is not [multi_choice], a value is valid exactly
    when it is a string that is the sentinel "SKIP", or any string for
    [free_text], or one of the options otherwise; the stored value is then
    the raw string itself. *)
Theorem X3_normalize_single_value q v :
  q_type q ≠ multi_choice →
  ((_normalize_answer q v).1.2 = true ↔
   ∃ s, v = PStr s ∧ (s = "SKIP" ∨ q_type q = free_text ∨ s ∈ q_options q))
  ∧ ((_normalize_answer q v).1.2 = true → (_normalize_answer q v).1.1 = v).
Proof.
  intros Ht. unfold _normalize_answer.
  destruct (py_eq_str v "SKIP") eqn:Hs.
  { destruct v; try done. cbn in Hs. apply String.eqb_eq in Hs as ->.
    split; [|done]. split; [|done]. intros _. exists "SKIP". split; [done|by left]. }
  assert (∀ s, v = PStr s → s ≠ "SKIP") as Hns.
  { intros s -> ->. done. }
  destruct (q_type q) eqn:Hq; try done;
    (destruct v as [| | | |s| |]; cbn;
     try (split; [split; [done|intros (? & [=] & _)]|done])).
  - destruct (py_in (PStr s) (q_options q)) eqn:E; cbn; (split; [split|done]).
    + intros _. exists s. split; [done|]. do 2 right.
      apply py_in_true in E as (? & [= <-] & ?). done.
    + done.
    + done.
    + intros (s' & [= <-] & [->|[?|Hin]]); [by destruct (Hns _ eq_refl)|done|].
      assert (py_in (PStr s) (q_options q) = true) by (apply py_in_true; eauto).
      congruence.
  - destruct (py_in (PStr s) (q_options q)) eqn:E; cbn; (split; [split|done]).
    + intros _. exists s. split; [done|]. do 2 right.
      apply py_in_true in E as (? & [= <-] & ?). done.
    + done.
    + done.
    + intros (s' & [= <-] & [->|[?|Hin]]); [by destruct (Hns _ eq_refl)|done|].
      assert (py_in (PStr s) (q_options q) = true) by (apply py_in_true; eauto).
      congruence.
  - split; [|done]. split; [|done]. intros _. exists s. split; [done|]. right. by left.
Qed.

Lemma X3_normalize_single_value_witness :
  q_type Q1 ≠ multi_choice
  ∧ (_normalize_answer Q1 (PStr "Yes")).1.2 = true
  ∧ (_normalize_answer Q1 (PStr "Yes")).1.1 = PStr "Yes".
Proof.
  assert (q_type Q1 ≠ multi_choice) as H by discriminate.
  split; [exact H|]. split; [reflexivity|].
  exact (proj2 (X3_normalize_single_value Q1 (PStr "Yes") H) eq_refl).
Defined.

Lemma existsb_py_eq_str items x :
  existsb (λ y, py_eq_str y x) (PStr <$> items) = true ↔ x ∈ items.
Proof.
  induction items as [|a items IH]; cbn.
  - split; [done|]. by intros ?%elem_of_nil.
  - rewrite orb_true_iff, IH, elem_of_cons, String.eqb_eq. split; intros [?|?]; auto.
Qed.

(** X4. Storing an answer and evaluating a condition on it: a question
    conditioned on the key the answer is stored under has its condition met
    exactly when the stored string equals the required value, or, for a
    stored list, when the required value is one of its elements. *)
Theorem X4_stored_answer_meets_condition s q q' c :
  q_condition q' = Some c → cond_var c = default (q_id q) (q_save_as q) →
  (∀ x, _is_condition_met q' (answers (_store_answer s q (PStr x))) = true
        ↔ x = cond_equals c)
  ∧ (∀ items,
       _is_condition_met q' (answers (_store_answer s q (PList (PStr <$> items))))
       = true ↔ cond_equals c ∈ items).
Proof.
  intros Hc Hv. unfold _is_condition_met. rewrite Hc. cbn [answers _store_answer
    with_question_status with_answers]. rewrite Hv.
  split.
  - intros x. rewrite lookup_insert_eq. cbn. apply String.eqb_eq.
  - intros items. rewrite lookup_insert_eq. apply existsb_py_eq_str.
Qed.

Lemma X4_stored_answer_meets_condition_witness :
  q_condition Q2 = Some {| cond_var := "q1"; cond_equals := "Yes" |}
  ∧ _is_condition_met Q2 (answers (_store_answer opened_state Q1 (PStr "Yes"))) = true.
Proof.
  split; [reflexivity|].
  exact (proj2 (proj1 (X4_stored_answer_meets_condition opened_state Q1 Q2 _
                         eq_refl eq_refl) "Yes") eq_refl).
Defined.

Lemma scan_eligible_grows ans qs st : grows st (scan_eligible ans qs st).2.
Proof. eapply only_skips_grows, scan_eligible_only_skips. Qed.

(** A question met open by the scan is in its result. *)
Lemma scan_eligible_complete ans qs : ∀ st q,
  q ∈ qs → _is_condition_met q ans = true →
  status_closed ((scan_eligible ans qs st).2 !! q_id q) = false →
  q ∈ (scan_eligible ans qs st).1.
Proof.
  induction qs as [|a qs IH]; intros st q Hq Hm Hc; [by apply elem_of_nil in Hq|].
  pose proof (scan_eligible_grows ans (a :: qs) st) as Hg.
  cbn in Hc, Hg |- *.
  destruct (status_closed (st !! q_id a)) eqn:Ca.
  - apply elem_of_cons in Hq as [->|Hq]; [|by apply IH].
    rewrite (grows_closed _ _ _ Hg Ca) in Hc. congruence.
  - destruct (_is_condition_met a ans) eqn:Ma; cbn in Hc, Hg |- *.
    + specialize (IH st q). destruct (scan_eligible ans qs st) as [more st'].
      cbn in *. apply elem_of_cons in Hq as [->|Hq]; [by left|]. right. by apply IH.
    + apply elem_of_cons in Hq as [->|Hq]; [congruence|]. by apply IH.
Qed.

(** What the scan returns was open when the scan began. *)
Lemma scan_eligible_open ans qs : ∀ st q,
  q ∈ (scan_eligible ans qs st).1 → status_closed (st !! q_id q) = false.
Proof.
  induction qs as [|a qs IH]; intros st q Hq; [by apply elem_of_nil in Hq|].
  cbn in Hq. destruct (status_closed (st !! q_id a)) eqn:Ca; [by apply IH|].
  destruct (_is_condition_met a ans) eqn:Ma; cbn in Hq.
  - specialize (IH st q). destruct (scan_eligible ans qs st) as [more st'].
    cbn in *. apply elem_of_cons in Hq as [->|Hq]; [done|]. by apply IH.
  - apply IH in Hq. destruct (decide (q_id a = q_id q)) as [E|Hne].
    + by rewrite E, lookup_insert_eq in Hq.
    + by rewrite lookup_insert_ne in Hq.
Qed.

(** X5. The policy's candidate always passes the engine's own membership
    test: whenever [_deterministic_next_question] finds a question, its id
    is among the ids [_eligible_questions] has just listed. *)
Theorem X5_candidate_is_eligible s d i :
  (candidates s d).1.2 = Some i → i ∈ (candidates s d).1.1.
Proof.
  intros H. apply candidates_next_mem in H as (q & Hq & <- & Hc & Hm).
  pose proof (deterministic_next_question_grows (_eligible_questions s d).2 d) as Hg.
  rewrite candidates_eq in Hc |- *. cbn [fst snd] in Hc |- *.
  apply list_elem_of_fmap_2.
  destruct (status_closed (question_status (_eligible_questions s d).2 !! q_id q))
    eqn:C.
  { rewrite (grows_closed _ _ _ Hg C) in Hc. congruence. }
  rewrite eligible_questions_eq in C |- *. cbn [fst snd] in C |- *.
  apply scan_eligible_complete; [by eapply subseteq_drop|done|exact C].
Qed.

Lemma X5_candidate_is_eligible_witness :
  (candidates (_store_answer opened_state Q1 (PStr "No")) CULTURE_DISCRIMINATION).1.2
  = Some "Q3"
  ∧ "Q3" ∈ (candidates (_store_answer opened_state Q1 (PStr "No"))
              CULTURE_DISCRIMINATION).1.1.
Proof.
  assert ((candidates (_store_answer opened_state Q1 (PStr "No"))
             CULTURE_DISCRIMINATION).1.2 = Some "Q3") as H by (vm_compute; reflexivity).
  split; [exact H|]. exact (X5_candidate_is_eligible _ _ _ H).
Defined.

Lemma condition_unmet_without_answers q :
  q_condition q ≠ None → _is_condition_met q ∅ = false.
Proof.
  unfold _is_condition_met. destruct (q_condition q); [|done].
  by rewrite lookup_empty.
Qed.

Lemma scan_next_none ans qs : ∀ st,
  (∀ q, q ∈ qs → _is_condition_met q ans = false) → (scan_next ans qs st).1 = None.
Proof.
  induction qs as [|a qs IH]; intros st H; [done|]. cbn.
  destruct (status_closed _); [apply IH; intros; apply H; by right|].
  rewrite (H a) by (by left). cbn. apply IH. intros. apply H. by right.
Qed.

(** X6. When every question of the definition carries a condition (in
    particular when there is no question), [begin_session] ends the session
    at once: it returns the end message, and the state it saves is
    terminated, has no current question, no answer, and a transcript of one
    entry. *)
Theorem X6_begin_session_without_open_question surveys db sid svid d :
  surveys !! svid = Some d →
  Forall (λ q, q_condition q ≠ None) (questions d) →
  ∃ s', begin_session surveys db sid svid
        = Ret (<[sid := s']> db,
               {| r_session_id := sid; r_interview_id := Some svid;
                  r_message := PStr (end_message_of d) |})
        ∧ terminated s' = true ∧ current_question_id s' = None
        ∧ answers s' = ∅ ∧ length (history s') = 1.
Proof.
  intros Hd Hall. rewrite (begin_session_eq _ _ _ _ d Hd). cbv zeta.
  rewrite deterministic_next_question_eq. cbn [fst snd].
  rewrite scan_next_none.
  - cbn [id_truthy negb]. eexists. split; [reflexivity|]. by cbn.
  - intros q Hq. apply condition_unmet_without_answers.
    rewrite Forall_forall in Hall. apply Hall. by eapply subseteq_drop.
Qed.

Lemma X6_begin_session_without_open_question_witness :
  FOLLOW_UP_SURVEYS !! "FOLLOW_UPS" = Some FOLLOW_UPS
  ∧ Forall (λ q, q_condition q ≠ None) (questions FOLLOW_UPS)
  ∧ ∃ s', begin_session FOLLOW_UP_SURVEYS ∅ "s1" "FOLLOW_UPS"
          = Ret (<["s1" := s']> ∅,
                 {| r_session_id := "s1"; r_interview_id := Some "FOLLOW_UPS";
                    r_message := PStr "Survey complete." |})
          ∧ terminated s' = true.
Proof.
  assert (FOLLOW_UP_SURVEYS !! "FOLLOW_UPS" = Some FOLLOW_UPS) as Hd
    by (vm_compute; reflexivity).
  assert (Forall (λ q, q_condition q ≠ None) (questions FOLLOW_UPS)) as Hall
    by (repeat constructor; discriminate).
  split; [exact Hd|]. split; [exact Hall|].
  destruct (X6_begin_session_without_open_question FOLLOW_UP_SURVEYS
              ∅ "s1" "FOLLOW_UPS" FOLLOW_UPS Hd Hall)
    as (s' & H & Ht & _).
  exists s'. split; [exact H|exact Ht].
Defined.

(** ** Invariants of a session *)

Lemma store_answer_asked s q v i :
  question_status (_store_answer s q v) !! i = Some asked →
  i ≠ q_id q ∧ question_status s !! i = Some asked.
Proof.
  cbn. destruct (decide (q_id q = i)) as [<-|Hne].
  - rewrite lookup_insert_eq. by destruct (py_eq_str v "SKIP").
  - rewrite lookup_insert_ne by done. by split.
Qed.

Lemma store_answer_closed s q v :
  status_closed (question_status (_store_answer s q v) !! q_id q) = true.
Proof. cbn. rewrite lookup_insert_eq. by destruct (py_eq_str v "SKIP"). Qed.

Lemma initial_no_asked sid svid d s' i :
  grows (question_status (_initial_state sid svid d)) (question_status s') →
  question_status s' !! i ≠ Some asked.
Proof. intros Hg H. eapply grows_asked in H; [|done]. by apply initial_status in H. Qed.

Lemma begin_effect_asked_is_current d sid svid s' :
  begin_effect d sid svid s' → asked_is_current s'.
Proof.
  destruct 1 as [n Hn|nid q n Hn Hne Hq]; intros i Hi.
  - exfalso. eapply (initial_no_asked sid svid d n.2 i); [|exact Hi].
    apply deterministic_next_question_grows.
  - cbn in Hi |- *. destruct (decide (nid = i)) as [->|Hni]; [done|].
    rewrite lookup_insert_ne in Hi by done.
    exfalso. eapply (initial_no_asked sid svid d n.2 i); [|exact Hi].
    apply deterministic_next_question_grows.
Qed.

Lemma turn_effect_asked_is_current d s s' :
  asked_is_current s → turn_effect d s s' → asked_is_current s'.
Proof.
  intros Hs He.
  assert (∀ i, question_status (_mark_conditionally_skipped s d) !! i = Some asked →
               current_question_id s = Some i) as Hmark.
  { intros i Hi. apply Hs. eapply grows_asked; [apply mark_grows|done]. }
  assert (∀ c q m v i, current_question_id s = Some c →
            _get_question_map d !! c = Some q →
            question_status
              (candidates (_store_answer
                 (_append_history (_mark_conditionally_skipped s d) user m
                    (Some (q_id q))) q v) d).2 !! i ≠ Some asked) as Hnone.
  { intros c q m v i Hc Hq Hi.
    eapply grows_asked in Hi; [|apply candidates_grows].
    apply store_answer_asked in Hi as [Hne Hi]. cbn in Hi.
    apply Hmark in Hi. apply question_map_Some in Hq as [_ <-]. congruence. }
  destruct He as [|Hl|c q m text Hc Hq|c q m raw v p Hc Hq Hn stored Hch
                  |c q m raw v p nid nq text Hc Hq Hn stored Hch Hne Hnq];
    intros i Hi; cbn in Hi |- *.
  - by apply Hmark.
  - by apply Hmark.
  - by apply Hmark.
  - exfalso. by eapply (Hnone c q m v i).
  - destruct (decide (nid = i)) as [->|Hni]; [done|].
    rewrite lookup_insert_ne in Hi by done. exfalso. by eapply (Hnone c q m v i).
Qed.

Lemma begin_effect_current_asked d sid svid s' :
  begin_effect d sid svid s' → current_asked s'.
Proof. destruct 1; [apply current_asked_ending|apply current_asked_asking]. Qed.

Lemma turn_effect_current_asked d s s' :
  current_asked s → turn_effect d s s' → current_asked s'.
Proof.
  intros Hs. destruct 1.
  - by apply current_asked_append, current_asked_mark.
  - apply current_asked_ending.
  - by do 2 apply current_asked_append; apply current_asked_mark.
  - apply current_asked_ending.
  - apply current_asked_asking.
Qed.

(** X7. In every state a session persists, at most one question is being
    asked, and it is the current one: a question whose status is [asked] is
    the question [current_question_id] names. *)
Theorem X7_only_current_is_asked surveys sid svid d calls s i :
  surveys !! svid = Some d →
  exec_session surveys sid svid ∅ calls !! sid = Some s →
  question_status s !! i = Some asked →
  current_question_id s = Some i.
Proof.
  intros Hd Hs.
  pose proof (session_invariant asked_is_current surveys sid svid d Hd
                (begin_effect_asked_is_current d sid svid)
                (λ s0 s' H0 _ _ He, turn_effect_asked_is_current d s0 s' H0 He)
                calls ∅) as H.
  destruct (H ltac:(intros s0 H0; by rewrite lookup_empty in H0) s Hs) as [_ HI].
  apply HI.
Qed.

Lemma X7_only_current_is_asked_witness :
  ∃ s, exec_session SURVEYS "s1" SURVEY_ID ∅ [(None, scripted on_topic PNone)] !! "s1"
       = Some s
       ∧ question_status s !! "Q1" = Some asked
       ∧ current_question_id s = Some "Q1".
Proof.
  destruct (exec_session SURVEYS "s1" SURVEY_ID ∅ [(None, scripted on_topic PNone)]
              !! "s1") as [s|] eqn:Hs; [|vm_compute in Hs; discriminate].
  assert ((exec_session SURVEYS "s1" SURVEY_ID ∅ [(None, scripted on_topic PNone)]
             !! "s1") ≫= (λ s, question_status s !! "Q1") = Some asked) as Ha
    by (vm_compute; reflexivity).
  rewrite Hs in Ha. cbn in Ha.
  exists s. split; [reflexivity|]. split; [exact Ha|].
  exact (X7_only_current_is_asked SURVEYS "s1" SURVEY_ID CULTURE_DISCRIMINATION
           [(None, scripted on_topic PNone)] s "Q1" eq_refl Hs Ha).
Defined.

(** A status that [candidates] changes belongs to a question whose
    condition fails. *)
Lemma candidates_changes s d i :
  question_status (candidates s d).2 !! i
  = question_status (_mark_conditionally_skipped s d) !! i
  ∨ ∃ q, q ∈ questions d ∧ q_id q = i ∧ _is_condition_met q (answers s) = false.
Proof.
  rewrite candidates_eq. cbn [fst snd].
  rewrite deterministic_next_question_eq. cbn [fst snd].
  rewrite (settled_mark _ d (eligible_questions_settled s d)).
  rewrite eligible_questions_eq. cbn [fst snd].
  cbn [question_status with_question_status answers].
  match goal with |- context [scan_next ?a ?l ?st] =>
    destruct (scan_next_only_skips a l st i) as [->|(_ & _ & q & Hq & Hi & Hm)]
  end.
  - destruct (scan_eligible_only_skips (answers s) (questions d)
                (question_status (_mark_conditionally_skipped s d)) i)
      as [->|(_ & _ & q & Hq & Hi & Hm)]; [by left|right; eauto].
  - right. exists q. split; [by eapply subseteq_drop|done].
Qed.

Lemma allowed_not_closed s d i :
  NoDup (q_id <$> questions d) → i ∈ (candidates s d).1.1 →
  status_closed (question_status (candidates s d).2 !! i) = false.
Proof.
  intros Hnd Hi. rewrite (proj1 (candidates_spec s d Hnd)) in Hi.
  apply list_elem_of_fmap in Hi as (q & -> & Hq).
  apply list_elem_of_filter in Hq as [Ho Hq].
  unfold open_for in Ho. apply Is_true_true, andb_true_iff in Ho as [Hc Hm].
  apply negb_true_iff in Hc.
  destruct (candidates_changes s d (q_id q)) as [->|(q' & Hq' & Hid & Hm')]; [done|].
  assert (q' = q) as -> by (by eapply NoDup_fmap_eq). congruence.
Qed.

Lemma chosen_not_closed s d p nid :
  NoDup (q_id <$> questions d) →
  choose_next p (candidates s d).1.1 (candidates s d).1.2 = Some nid →
  status_closed (question_status (candidates s d).2 !! nid) = false.
Proof.
  intros Hnd [[_ H]|[_ H]]%choose_next_Some.
  - by apply allowed_not_closed.
  - by apply candidates_next_mem in H as (q & _ & <- & ? & _).
Qed.

(** A turn never changes a status that is [answered] or [skipped]. *)
Lemma turn_effect_closed d s s' i :
  NoDup (q_id <$> questions d) → current_asked s → terminated s = false →
  turn_effect d s s' →
  status_closed (question_status s !! i) = true →
  question_status s' !! i = question_status s !! i.
Proof.
  intros Hnd Hca Ht He Hc.
  assert (question_status (_mark_conditionally_skipped s d) !! i
          = question_status s !! i) as Hmark
    by (by apply grows_closed; [apply mark_grows|]).
  assert (∀ c q m v, current_question_id s = Some c →
            _get_question_map d !! c = Some q →
            question_status
              (candidates (_store_answer
                 (_append_history (_mark_conditionally_skipped s d) user m
                    (Some (q_id q))) q v) d).2 !! i = question_status s !! i) as Hadv.
  { intros c q m v Hcur Hq. apply question_map_Some in Hq as [_ <-].
    assert (q_id q ≠ i) as Hne.
    { intros <-. rewrite (Hca Ht _ Hcur) in Hc. done. }
    set (stored := _store_answer _ q v).
    assert (question_status stored !! i = question_status s !! i) as Hst.
    { unfold stored. cbn. by rewrite lookup_insert_ne. }
    rewrite <- Hst. apply grows_closed; [apply candidates_grows|]. by rewrite Hst. }
  destruct He as [|Hl|c q m text Hcur Hq|c q m raw v p Hcur Hq Hn stored Hch
                  |c q m raw v p nid nq text Hcur Hq Hn stored Hch Hne Hnq]; cbn.
  - done.
  - done.
  - done.
  - by eapply Hadv.
  - pose proof (Hadv c q m v Hcur Hq) as Hi. fold stored in Hi.
    pose proof (chosen_not_closed stored d p nid Hnd Hch) as Hnc.
    rewrite lookup_insert_ne; [done|]. intros ->. rewrite Hi in Hnc. congruence.
Qed.

(** X8. A status that is [answered] or [skipped] is final: in a session of
    a survey with distinct question ids, no [next_step] call changes it. *)
Theorem X8_closed_status_is_final surveys sid svid d calls s ag m s' i :
  surveys !! svid = Some d → NoDup (q_id <$> questions d) →
  let db := exec_session surveys sid svid ∅ calls in
  db !! sid = Some s →
  status_closed (question_status s !! i) = true →
  persisted db (next_step surveys ag db sid svid m) !! sid = Some s' →
  question_status s' !! i = question_status s !! i.
Proof.
  intros Hd Hnd db Hs Hc Hs'.
  pose proof (session_invariant current_asked surveys sid svid d Hd
                (begin_effect_current_asked d sid svid)
                (λ s0 s1 H0 _ _ He, turn_effect_current_asked d s0 s1 H0 He)
                calls ∅) as H.
  destruct (H ltac:(intros s0 H0; by rewrite lookup_empty in H0) s Hs) as [Hid Hca].
  pose proof (next_step_effect surveys ag db sid svid d s m Hd Hs Hid) as He.
  destruct (next_step surveys ag db sid svid m) as [[db' r]|e]; cbn in Hs'.
  - destruct He as [_ [(_ & -> & _)|(Ht & s1 & -> & He)]].
    + rewrite Hs in Hs'. by injection Hs' as <-.
    + rewrite lookup_insert_eq in Hs'. injection Hs' as <-.
      by eapply turn_effect_closed.
  - rewrite Hs in Hs'. by injection Hs' as <-.
Qed.

Lemma X8_closed_status_is_final_witness :
  let db := exec_session SURVEYS "s1" SURVEY_ID ∅ first_call in
  let ag := scripted on_topic (reply (PStr "Yes") (PStr "Q2")) in
  ∃ s s', db !! "s1" = Some s
          ∧ question_status s !! "Q2" = Some skipped
          ∧ persisted db (next_step SURVEYS ag db "s1" SURVEY_ID (Some "Yes")) !! "s1"
            = Some s'
          ∧ question_status s' !! "Q2" = Some skipped.
Proof.
  cbv zeta.
  set (db := exec_session SURVEYS "s1" SURVEY_ID ∅ first_call).
  set (ag := scripted on_topic (reply (PStr "Yes") (PStr "Q2"))).
  destruct (db !! "s1") as [s|] eqn:Hs; [|vm_compute in Hs; discriminate].
  destruct (persisted db (next_step SURVEYS ag db "s1" SURVEY_ID (Some "Yes")) !! "s1")
    as [s'|] eqn:Hs'; [|vm_compute in Hs'; discriminate].
  assert (db !! "s1" ≫= (λ s, question_status s !! "Q2") = Some skipped) as Hq
    by (vm_compute; reflexivity).
  rewrite Hs in Hq. cbn in Hq.
  exists s, s'. split; [reflexivity|]. split; [exact Hq|]. split; [reflexivity|].
  rewrite <- Hq.
  apply (X8_closed_status_is_final SURVEYS "s1" SURVEY_ID CULTURE_DISCRIMINATION
           first_call s ag (Some "Yes") s' "Q2" eq_refl (proj1 shipped_survey_wf) Hs).
  - by rewrite Hq.
  - exact Hs'.
Defined.

Lemma fold_unasked_keep (qs : list question) : ∀ (m : gmap string status) i,
  m !! i = Some unasked →
  foldl (λ m q, <[q_id q := unasked]> m) m qs !! i = Some unasked.
Proof.
  induction qs as [|a qs IH]; intros m i Hi; [done|]. cbn. apply IH.
  destruct (decide (q_id a = i)) as [->|Hne].
  - apply lookup_insert_eq.
  - by rewrite lookup_insert_ne.
Qed.

Lemma fold_unasked_mem (qs : list question) : ∀ (m : gmap string status) q,
  q ∈ qs → foldl (λ m q, <[q_id q := unasked]> m) m qs !! q_id q = Some unasked.
Proof.
  induction qs as [|a qs IH]; intros m q Hq; [by apply elem_of_nil in Hq|].
  cbn. apply elem_of_cons in Hq as [->|Hq]; [|by apply IH].
  apply fold_unasked_keep, lookup_insert_eq.
Qed.

Lemma initial_status_mem sid svid d q :
  q ∈ questions d →
  question_status (_initial_state sid svid d) !! q_id q = Some unasked.
Proof. apply fold_unasked_mem. Qed.

Lemma begin_effect_conditional_skipped d sid svid s' :
  NoDup (q_id <$> questions d) →
  begin_effect d sid svid s' → conditional_skipped d s'.
Proof.
  intros Hnd He.
  assert (∀ q, q ∈ questions d → q_condition q ≠ None →
            question_status
              (_deterministic_next_question (_initial_state sid svid d) d).2 !! q_id q
            = Some skipped) as Hn.
  { intros q Hq Hc.
    assert (question_status (_mark_conditionally_skipped (_initial_state sid svid d) d)
              !! q_id q = Some skipped) as Hm.
    { rewrite mark_status, (initial_status_mem sid svid d q Hq). cbn.
      rewrite (question_map_NoDup d q Hnd Hq).
      change (answers (_initial_state sid svid d)) with (∅ : gmap string pyval).
      by rewrite (condition_unmet_without_answers q Hc). }
    rewrite deterministic_next_question_eq. cbn [snd question_status with_question_status].
    rewrite (grows_closed _ _ (q_id q)
               (only_skips_grows _ _ _ _ (scan_next_only_skips _ _ _))); [done|].
    by rewrite Hm. }
  destruct He as [n Hno|nid nq n Hnid Hne Hnq]; intros q Hq Hc; cbn.
  - by apply Hn.
  - rewrite lookup_insert_ne; [by apply Hn|]. intros ->.
    unfold n in Hnid. rewrite deterministic_next_question_eq in Hnid. cbn in Hnid.
    apply scan_next_found in Hnid as (q' & _ & Hid & _ & Hcl).
    pose proof (Hn q Hq Hc) as Hsk.
    rewrite deterministic_next_question_eq in Hsk. cbn in Hsk.
    rewrite Hsk in Hcl. done.
Qed.

Lemma turn_effect_steady d s s' :
  NoDup (q_id <$> questions d) → steady d s → terminated s = false →
  turn_effect d s s' → steady d s'.
Proof.
  intros Hnd [Hca Hcs] Ht He. split; [by eapply turn_effect_current_asked|].
  intros q Hq Hc. rewrite (turn_effect_closed d s s' (q_id q) Hnd Hca Ht He).
  - by apply Hcs.
  - by rewrite (Hcs q Hq Hc).
Qed.

(** X9. In a session of a survey with distinct question ids, every
    question that carries a condition is marked [skipped] by the call that
    opens the session (no answer is stored yet, so its condition fails) and
    stays [skipped] in every persisted state: whatever is answered later,
    it is never asked. *)
Theorem X9_conditional_questions_are_skipped surveys sid svid d calls s q :
  surveys !! svid = Some d → NoDup (q_id <$> questions d) →
  exec_session surveys sid svid ∅ calls !! sid = Some s →
  q ∈ questions d → q_condition q ≠ None →
  question_status s !! q_id q = Some skipped.
Proof.
  intros Hd Hnd Hs Hq Hc.
  pose proof (session_invariant (steady d) surveys sid svid d Hd) as H.
  destruct (H ltac:(intros s' He; split;
                      [by eapply begin_effect_current_asked
                      |by eapply begin_effect_conditional_skipped])
              ltac:(intros s0 s1 H0 _ Ht He; by eapply turn_effect_steady)
              calls ∅ ltac:(intros s0 H0; by rewrite lookup_empty in H0) s Hs)
    as [_ [_ Hcs]].
  by apply Hcs.
Qed.

Lemma X9_conditional_questions_are_skipped_witness :
  let calls := [(None, scripted on_topic PNone);
                (Some "Yes", scripted on_topic (reply (PStr "Yes") (PStr "Q2")))] in
  ∃ s, exec_session SURVEYS "s1" SURVEY_ID ∅ calls !! "s1" = Some s
       ∧ answers s !! "q1" = Some (PStr "Yes")
       ∧ question_status s !! "Q2" = Some skipped.
Proof.
  cbv zeta.
  set (calls := [(None, scripted on_topic PNone);
                 (Some "Yes", scripted on_topic (reply (PStr "Yes") (PStr "Q2")))]).
  destruct (exec_session SURVEYS "s1" SURVEY_ID ∅ calls !! "s1") as [s|] eqn:Hs;
    [|vm_compute in Hs; discriminate].
  assert (exec_session SURVEYS "s1" SURVEY_ID ∅ calls !! "s1"
            ≫= (λ s, answers s !! "q1") = Some (PStr "Yes")) as Ha
    by (vm_compute; reflexivity).
  rewrite Hs in Ha. cbn in Ha.
  exists s. split; [reflexivity|]. split; [exact Ha|].
  apply (X9_conditional_questions_are_skipped SURVEYS "s1" SURVEY_ID
           CULTURE_DISCRIMINATION calls s Q2 eq_refl (proj1 shipped_survey_wf) Hs).
  - vm_compute. repeat constructor.
  - discriminate.
Defined.

Lemma turn_effect_answers d s s' :
  answers_accepted d s → turn_effect d s s' → answers_accepted d s'.
Proof.
  intros Hs He.
  assert (∀ c q m raw v, _get_question_map d !! c = Some q →
            _normalize_answer q raw = (v, true, false) →
            answers_accepted d
              (candidates (_store_answer
                 (_append_history (_mark_conditionally_skipped s d) user m
                    (Some (q_id q))) q v) d).2) as Hadv.
  { intros c q m raw v Hq Hn k x Hk.
    destruct (candidates_frame (_store_answer
                (_append_history (_mark_conditionally_skipped s d) user m
                   (Some (q_id q))) q v) d) as (_ & _ & Ha & _).
    rewrite Ha in Hk. cbn in Hk.
    destruct (decide (default (q_id q) (q_save_as q) = k)) as [<-|Hne].
    - rewrite lookup_insert_eq in Hk. injection Hk as <-.
      apply question_map_Some in Hq as [Hq _]. eauto.
    - rewrite lookup_insert_ne in Hk by done. by apply Hs. }
  destruct He; try done.
  - by eapply Hadv.
  - by eapply Hadv.
Qed.

Lemma begin_effect_answers d sid svid s' :
  begin_effect d sid svid s' → answers_accepted d s'.
Proof.
  intros He k v Hk.
  pose proof (deterministic_next_question_frame (_initial_state sid svid d) d)
    as (_ & _ & Ha & _).
  destruct He as [n Hn|nid q n Hn Hne Hq];
    change (answers n.2 !! k = Some v) in Hk; unfold n in Hk;
    rewrite Ha in Hk; cbn in Hk; by rewrite lookup_empty in Hk.
Qed.

(** X10. Every answer a session has stored sits under the storage key
    ([save_as], or the id) of a question of the definition, and is a value
    the normalizer accepted as valid for that question. *)
Theorem X10_stored_answers_were_accepted surveys sid svid d calls s k v :
  surveys !! svid = Some d →
  exec_session surveys sid svid ∅ calls !! sid = Some s →
  answers s !! k = Some v →
  ∃ q raw, q ∈ questions d ∧ default (q_id q) (q_save_as q) = k
           ∧ _normalize_answer q raw = (v, true, false).
Proof.
  intros Hd Hs Hk.
  pose proof (session_invariant (answers_accepted d) surveys sid svid d Hd
                (begin_effect_answers d sid svid)
                (λ s0 s1 H0 _ _ He, turn_effect_answers d s0 s1 H0 He)
                calls ∅) as H.
  destruct (H ltac:(intros s0 H0; by rewrite lookup_empty in H0) s Hs) as [_ HI].
  by apply HI.
Qed.

Lemma X10_stored_answers_were_accepted_witness :
  let calls := [(None, scripted on_topic PNone);
                (Some "Yes", scripted on_topic (reply (PStr "Yes") PNone))] in
  ∃ s, exec_session SURVEYS "s1" SURVEY_ID ∅ calls !! "s1" = Some s
       ∧ answers s !! "q1" = Some (PStr "Yes")
       ∧ ∃ q raw, q ∈ questions CULTURE_DISCRIMINATION
                  ∧ default (q_id q) (q_save_as q) = "q1"
                  ∧ _normalize_answer q raw = (PStr "Yes", true, false).
Proof.
  cbv zeta.
  set (calls := [(None, scripted on_topic PNone);
                 (Some "Yes", scripted on_topic (reply (PStr "Yes") PNone))]).
  destruct (exec_session SURVEYS "s1" SURVEY_ID ∅ calls !! "s1") as [s|] eqn:Hs;
    [|vm_compute in Hs; discriminate].
  assert (exec_session SURVEYS "s1" SURVEY_ID ∅ calls !! "s1"
            ≫= (λ s, answers s !! "q1") = Some (PStr "Yes")) as Ha
    by (vm_compute; reflexivity).
  rewrite Hs in Ha. cbn in Ha.
  exists s. split; [reflexivity|]. split; [exact Ha|].
  exact (X10_stored_answers_were_accepted SURVEYS "s1" SURVEY_ID
           CULTURE_DISCRIMINATION calls s "q1" (PStr "Yes") eq_refl Hs Ha).
Defined.

(** ** The transcript and the other sessions *)

Lemma turn_effect_history d s s' :
  turn_effect d s s' →
  ∃ added, history s' = (history s ++ added)%list
           ∧ (1 ≤ length added ≤ 2)%nat
           ∧ Forall (λ e, e_role e = user → e_question_id e ≠ None) added.
Proof.
  destruct 1 as [|Hl|c q m text Hc Hq|c q m raw v p Hc Hq Hn stored Hch
                 |c q m raw v p nid nq text Hc Hq Hn stored Hch Hne Hnq].
  - eexists [_]. cbn. split; [done|]. split; [lia|]. by repeat constructor.
  - eexists [_]. cbn. split; [done|]. split; [lia|]. by repeat constructor.
  - eexists [_; _]. cbn. rewrite <- app_assoc. split; [done|]. split; [lia|].
    by repeat constructor.
  - eexists [_; _]. cbn.
    destruct (candidates_frame stored d) as (_ & _ & _ & _ & -> & _). cbn.
    rewrite <- app_assoc. split; [done|]. split; [lia|]. by repeat constructor.
  - eexists [_; _]. cbn.
    destruct (candidates_frame stored d) as (_ & _ & _ & _ & -> & _). cbn.
    rewrite <- app_assoc. split; [done|]. split; [lia|]. by repeat constructor.
Qed.

(** X11. [next_step] only ever appends to the transcript of its session:
    the state it leaves holds the transcript it found, followed by at most
    two new entries. *)
Theorem X11_transcript_only_grows surveys ag db sid svid d s m s' :
  surveys !! svid = Some d → db !! sid = Some s → session_id s = sid →
  persisted db (next_step surveys ag db sid svid m) !! sid = Some s' →
  ∃ added, history s' = (history s ++ added)%list ∧ (length added ≤ 2)%nat.
Proof.
  intros Hd Hs Hid Hs'.
  pose proof (next_step_effect surveys ag db sid svid d s m Hd Hs Hid) as He.
  destruct (next_step surveys ag db sid svid m) as [[db' r]|e]; cbn in Hs'.
  - destruct He as [_ [(_ & -> & _)|(Ht & s1 & -> & He)]].
    + rewrite Hs in Hs'. injection Hs' as <-. exists []. rewrite app_nil_r. split; [done|cbn; lia].
    + rewrite lookup_insert_eq in Hs'. injection Hs' as <-.
      destruct (turn_effect_history d s s1 He) as (added & H & [_ Hle] & _).
      by exists added.
  - rewrite Hs in Hs'. injection Hs' as <-. exists []. rewrite app_nil_r. split; [done|cbn; lia].
Qed.

Lemma X11_transcript_only_grows_witness :
  let ag := scripted on_topic (reply (PStr "No") PNone) in
  opened_db !! "s1" = Some opened_state
  ∧ ∃ s', persisted opened_db (next_step SURVEYS ag opened_db "s1" SURVEY_ID (Some "No"))
            !! "s1" = Some s'
          ∧ ∃ added, history s' = (history opened_state ++ added)%list
                     ∧ (length added ≤ 2)%nat.
Proof.
  cbv zeta. set (ag := scripted on_topic (reply (PStr "No") PNone)).
  assert (opened_db !! "s1" = Some opened_state) as Hs by (vm_compute; reflexivity).
  split; [exact Hs|].
  destruct (persisted opened_db (next_step SURVEYS ag opened_db "s1" SURVEY_ID (Some "No"))
              !! "s1") as [s'|] eqn:Hs'; [|vm_compute in Hs'; discriminate].
  exists s'. split; [reflexivity|].
  exact (X11_transcript_only_grows SURVEYS ag opened_db "s1" SURVEY_ID
           CULTURE_DISCRIMINATION opened_state (Some "No") s' eq_refl Hs eq_refl Hs').
Defined.

(** X12. A call for one session leaves the states of all other sessions
    as they are, provided the state it loads is stored under its own id. *)
Theorem X12_other_sessions_untouched surveys ag db sid svid m sid' :
  (∀ s, db !! sid = Some s → session_id s = sid) → sid' ≠ sid →
  persisted db (next_step surveys ag db sid svid m) !! sid' = db !! sid'.
Proof.
  intros Hk Hne.
  destruct (surveys !! svid) as [d|] eqn:Hd;
    [|unfold next_step; by rewrite Hd].
  destruct (db !! sid) as [s|] eqn:Hs.
  - pose proof (next_step_effect surveys ag db sid svid d s m Hd Hs (Hk s eq_refl))
      as He.
    destruct (next_step surveys ag db sid svid m) as [[db' r]|e]; cbn; [|done].
    destruct He as [_ [(_ & -> & _)|(_ & s1 & -> & _)]]; [done|].
    by rewrite lookup_insert_ne.
  - unfold next_step, _load_state. rewrite Hd, Hs.
    destruct (begin_session_effect surveys db sid svid d Hd) as (s' & r & -> & _).
    cbn. by rewrite lookup_insert_ne.
Qed.

Lemma X12_other_sessions_untouched_witness :
  let ag := scripted on_topic (reply (PStr "No") PNone) in
  (∀ s, opened_db !! "s2" = Some s → session_id s = "s2")
  ∧ persisted opened_db (next_step SURVEYS ag opened_db "s2" SURVEY_ID None) !! "s1"
    = opened_db !! "s1".
Proof.
  cbv zeta.
  assert (∀ s, opened_db !! "s2" = Some s → session_id s = "s2") as Hk.
  { intros s Hs. vm_compute in Hs. discriminate Hs. }
  split; [exact Hk|].
  apply (X12_other_sessions_untouched SURVEYS _ opened_db "s2" SURVEY_ID None "s1" Hk).
  discriminate.
Defined.

(** ** Calls that return *)




(** X14. When the completion cannot be read or parsed, so that
    [survey_step] returns its fallback dict, an on-topic turn on a running
    session clarifies: it returns the current question's own text (the
    generic prompt when that text is empty), and saves the state with skips
    marked and two transcript entries added, still on the same question. *)
Theorem X14_unreadable_completion_clarifies surveys ag db sid svid d s m c q :
  surveys !! svid = Some d → db !! sid = Some s → session_id s = sid →
  terminated s = false → _moderate_answer ag d m (history s) = true →
  current_question_id s = Some c → _get_question_map d !! c = Some q →
  survey_step ag = llm_survey_step (λ _ _ _, None) →
  let asked_state := _append_history (_mark_conditionally_skipped s d) user
                       (PStr (message_text m)) (Some (q_id q)) in
  let text := py_or (PStr (q_text q)) (PStr "Could you clarify your answer?") in
  next_step surveys ag db sid svid m
  = Ret (<[sid := _append_history asked_state assistant text (Some (q_id q))]> db,
         {| r_session_id := sid; r_interview_id := None; r_message := text |}).
Proof.
  intros Hd Hs Hid Ht Hm Hc Hq Hport asked_state text.
  apply (clarification_turn surveys ag db sid svid d s m c q text Hd Hs Hid Ht Hm Hc Hq).
  rewrite Hport. unfold llm_survey_step. apply interpret_fallback.
  cbn. rewrite Hc. cbn. exact Hq.
Qed.

Lemma X14_unreadable_completion_clarifies_witness :
  let ag := {| review_answer := on_topic;
               survey_step := llm_survey_step (λ _ _ _, None) |} in
  opened_db !! "s1" = Some opened_state
  ∧ returned_message (next_step SURVEYS ag opened_db "s1" SURVEY_ID (Some "hm"))
    = Some (PStr (q_text Q1)).
Proof.
  cbv zeta.
  assert (opened_db !! "s1" = Some opened_state) as Hs by (vm_compute; reflexivity).
  split; [exact Hs|].
  rewrite (X14_unreadable_completion_clarifies SURVEYS
             {| review_answer := on_topic;
                survey_step := llm_survey_step (λ _ _ _, None) |}
             opened_db "s1" SURVEY_ID
             CULTURE_DISCRIMINATION opened_state (Some "hm") "Q1" Q1
             eq_refl Hs eq_refl eq_refl eq_refl eq_refl
             ltac:(vm_compute; reflexivity) eq_refl).
  reflexivity.
Defined.

(** ** What the prompt lists and what the engine accepts *)

(** X15. In a turn that stores an answer to question [q], every id the
    engine will accept as the next question is the id of a question the
    prompt of [survey_step] listed as remaining; the id of [q] itself, which
    the prompt also lists while [q] is being asked, is never accepted. *)
Theorem X15_accepted_ids_are_listed s q v d i :
  i ∈ (candidates (_store_answer s q v) d).1.1 →
  i ∈ pq_id <$> remaining_questions (llm_view s) d ∧ i ≠ q_id q.
Proof.
  rewrite candidates_eq. cbn [fst snd]. rewrite eligible_questions_eq. cbn [fst snd].
  intros (q' & -> & Hq')%list_elem_of_fmap.
  pose proof (scan_eligible_open _ _ _ _ Hq') as Ho.
  apply scan_eligible_mem in Hq' as [Hq' _].
  assert (status_closed (question_status (_store_answer s q v) !! q_id q') = false)
    as Hst.
  { destruct (status_closed (question_status (_store_answer s q v) !! q_id q')) eqn:C;
      [|done].
    rewrite (grows_closed _ _ _ (mark_grows (_store_answer s q v) d) C) in Ho.
    congruence. }
  assert (q_id q' ≠ q_id q) as Hne.
  { intros E. rewrite E, store_answer_closed in Hst. done. }
  split; [|done]. unfold remaining_questions. rewrite <- list_fmap_compose.
  apply (list_elem_of_fmap_2 _ _ q'). apply list_elem_of_filter. split; [|done].
  cbn in Hst |- *. by rewrite lookup_insert_ne in Hst.
Qed.

Lemma X15_accepted_ids_are_listed_witness :
  "Q3" ∈ (candidates (_store_answer opened_state Q1 (PStr "No"))
            CULTURE_DISCRIMINATION).1.1
  ∧ "Q3" ∈ pq_id <$> remaining_questions (llm_view opened_state) CULTURE_DISCRIMINATION
  ∧ "Q1" ∈ pq_id <$> remaining_questions (llm_view opened_state) CULTURE_DISCRIMINATION.
Proof.
  assert ("Q3" ∈ (candidates (_store_answer opened_state Q1 (PStr "No"))
                    CULTURE_DISCRIMINATION).1.1) as H
    by (vm_compute; repeat constructor).
  split; [exact H|].
  split; [exact (proj1 (X15_accepted_ids_are_listed _ _ _ _ _ H))|].
  vm_compute. repeat constructor.
Defined.

(** ** Comma-separated answers *)

Lemma split_comma_chars s : ∀ p c, p ∈ split_comma s → c ∈ chars p → c ∈ chars s.
Proof.
  induction s as [|a s IH]; intros p c; cbn [split_comma chars].
  - intros ->%list_elem_of_singleton. done.
  - destruct (Ascii.eqb a ",").
    + intros [->|Hp]%elem_of_cons; [by intros ?%elem_of_nil|]. intros H.
      apply list_elem_of_further. eauto.
    + destruct (split_comma s) as [|piece pieces].
      * intros ->%list_elem_of_singleton. cbn.
        intros [->|?%elem_of_nil]%elem_of_cons; [apply list_elem_of_here|done].
      * intros [->|Hp]%elem_of_cons; cbn [chars].
        -- intros [->|H]%elem_of_cons; [apply list_elem_of_here|].
           apply list_elem_of_further. apply (IH piece); [apply list_elem_of_here|done].
        -- intros H. apply list_elem_of_further.
           apply (IH p); [by apply list_elem_of_further|done].
Qed.

(** X16. Every token that a comma-separated string answer is cut into is
    non-empty, has no white-space character at either end (so [strip]
    leaves it as it is), contains no comma, and is made of bytes of the
    answer. *)
Theorem X16_comma_tokens_are_trimmed s t :
  t ∈ comma_tokens s →
  t ≠ "" ∧ bare (chars t) ∧ strip t = t ∧ (","%char ∉ chars t)
  ∧ ∀ c, c ∈ chars t → c ∈ chars s.
Proof.
  rewrite comma_tokens_filter.
  intros [Hne (p & -> & Hp)%list_elem_of_fmap]%list_elem_of_filter.
  destruct (trimmed_strip p) as (l & r & Hc & Hl & Hr & Hb).
  assert (∀ c, c ∈ chars (strip p) → c ∈ chars p) as Hsub.
  { intros c H. rewrite Hc, !elem_of_app. tauto. }
  split; [done|]. split; [done|]. split.
  { apply trimmed_unique. exists [], []. rewrite app_nil_r.
    split; [done|]. split; [apply white_nil|]. split; [apply white_nil|done]. }
  split.
  - intros H. by apply (split_comma_no_comma s p Hp), Hsub.
  - intros c H. apply (split_comma_chars s p); [done|by apply Hsub].
Qed.

Lemma X16_comma_tokens_are_trimmed_witness :
  "Colleague" ∈ comma_tokens " Manager ,, Colleague "
  ∧ strip "Colleague" = "Colleague".
Proof.
  assert ("Colleague" ∈ comma_tokens " Manager ,, Colleague ") as H
    by (vm_compute; repeat constructor).
  split; [exact H|].
  exact (proj1 (proj2 (proj2 (X16_comma_tokens_are_trimmed _ _ H)))).
Defined.

(** X17. For a [multi_choice] question, a string made of comma-free pieces
    joined with commas, none of them white space only, is normalised
    exactly as the list of the trimmed pieces is (unless the whole string
    is the [SKIP] sentinel): the string form and the list form of an answer
    are interchangeable. *)
Theorem X17_joined_string_is_the_list q pieces tokens :
  q_type q = multi_choice →
  Forall (λ p, ","%char ∉ chars p) pieces →
  Forall2 trimmed pieces tokens → Forall (λ t, t ≠ "") tokens →
  join_comma pieces ≠ "SKIP" →
  _normalize_answer q (PStr (join_comma pieces))
  = _normalize_answer q (PList (PStr <$> tokens)).
Proof.
  intros Ht Hp Htr Hne Hs.
  assert (comma_tokens (join_comma pieces) = tokens) as Htok.
  { destruct pieces as [|p ps].
    - apply Forall2_nil_inv_l in Htr as ->. vm_compute. reflexivity.
    - symmetry. apply tokens_unique. exists tokens. split.
      + exists (p :: ps). split; [|done]. by split.
      + clear -Hne. induction Hne as [|t ts Ht _ IH]; [done|].
        rewrite filter_cons, decide_True by done. by rewrite <- IH. }
  rewrite (normalize_multi_choice_list q (PStr (join_comma pieces))
             (PStr <$> tokens) Ht).
  - by rewrite (normalize_multi_choice_list q (PList _) _ Ht eq_refl eq_refl).
  - cbn. by apply String.eqb_neq.
  - cbn. by rewrite Htok.
Qed.

Lemma X17_joined_string_is_the_list_witness :
  q_type Q2 = multi_choice
  ∧ _normalize_answer Q2 (PStr "Manager, Colleague")
    = _normalize_answer Q2 (PList [PStr "Manager"; PStr "Colleague"]).
Proof.
  split; [reflexivity|].
  assert (Forall2 trimmed ["Manager"; " Colleague"] ["Manager"; "Colleague"]) as Htr.
  { assert (strip <$> ["Manager"; " Colleague"] = ["Manager"; "Colleague"]) as <-
      by (vm_compute; reflexivity).
    apply Forall2_fmap_r, Forall_Forall2_diag, Forall_forall.
    intros p _. apply trimmed_strip. }
  apply (X17_joined_string_is_the_list Q2 ["Manager"; " Colleague"]
           ["Manager"; "Colleague"] eq_refl); [|exact Htr| |].
  - repeat constructor; intros H;
      repeat (apply elem_of_cons in H as [H|H]; [discriminate H|]);
      by apply elem_of_nil in H.
  - repeat constructor; discriminate.
  - vm_compute. discriminate.
Defined.

(** ** What is saved with what is returned *)

(** X18. A call on a session that is new or not yet terminated, when it
    returns, has saved a state for the session whose last transcript entry
    is the assistant's, holds the very message the call returns, and is
    tagged with the question the session is now on (with none once the
    session has ended). *)
Theorem X18_reply_is_recorded surveys ag db sid svid m db' r :
  (∀ s, db !! sid = Some s → session_id s = sid ∧ terminated s = false) →
  next_step surveys ag db sid svid m = Ret (db', r) →
  ∃ s' e, db' !! sid = Some s' ∧ last (history s') = Some e
          ∧ e_role e = assistant ∧ e_content e = r_message r
          ∧ e_question_id e
            = (if terminated s' then None else current_question_id s').
Proof.
  intros Hdb H. rewrite next_step_unfold in H.
  destruct (surveys !! svid) as [d|] eqn:Hd; [|done].
  destruct (db !! sid) as [s|] eqn:Hs.
  - destruct (Hdb s eq_refl) as [Hid Ht].
    destruct (turn_gate ag d s m) as [|s1|s1|s1 q] eqn:G.
    + apply turn_gate_replay in G. congruence.
    + apply turn_gate_off_topic in G as (_ & -> & _).
      unfold _off_topic_response, _save_state in H. cbn in H. injection H as <- <-.
      rewrite Hid, lookup_insert_eq. eexists _, _. split; [done|]. cbn.
      rewrite last_snoc, Ht. done.
    + apply turn_gate_lost in G as (_ & ->).
      unfold _save_state in H. cbn in H. injection H as <- <-.
      rewrite Hid, lookup_insert_eq. eexists _, _. split; [done|]. cbn.
      rewrite last_snoc. done.
    + apply turn_gate_ask in G as (_ & -> & (c & Hc & Hq) & _). cbv zeta in H.
      apply question_map_Some in Hq as [_ Hq].
      set (s1 := _append_history _ user _ _) in H.
      set (response := survey_step ag _ d _) in H.
      destruct (interpret q response) as [[text|v]|e]; cbn [exc_bind] in H; [| |done].
      * unfold _handle_clarification, _save_state in H. cbn in H.
        injection H as <- <-.
        rewrite Hid, lookup_insert_eq. eexists _, _. split; [done|]. cbn.
        rewrite last_snoc, Ht, Hc, Hq. done.
      * destruct (candidates_frame (_store_answer s1 q v) d)
          as (Hf1 & _ & _ & _ & _ & Hf6).
        cbn in Hf1, Hf6. rewrite Hid in Hf1. rewrite Ht in Hf6.
        destruct (advance_returns d db sid s1 q v response)
          as [[_ Ha]|(nid & nq & _ & _ & _ & Ha)];
          rewrite Ha in H; cbv zeta in H; injection H as <- <-;
          unfold _save_state; cbn; rewrite Hf1, lookup_insert_eq;
          (eexists _, _; split; [done|]); cbn; rewrite last_snoc; [done|].
        rewrite Hf6. done.
  - rewrite (begin_session_eq _ _ _ _ d Hd) in H. cbv zeta in H.
    destruct (deterministic_next_question_frame (_initial_state sid svid d) d)
      as (Hf1 & _ & _ & _ & _ & Hf6).
    cbn in Hf1, Hf6.
    destruct (negb _).
    + injection H as <- <-. unfold _save_state. cbn. rewrite Hf1, lookup_insert_eq.
      eexists _, _. split; [done|]. cbn. rewrite last_snoc. done.
    + destruct (_deterministic_next_question _ d).1 as [nid|]; [|done].
      destruct (_get_question_map d !! nid) as [q|]; [|done].
      injection H as <- <-. unfold _save_state. cbn. rewrite Hf1, lookup_insert_eq.
      eexists _, _. split; [done|]. cbn. rewrite last_snoc, Hf6. done.
Qed.

Lemma X18_reply_is_recorded_witness :
  ∃ db' r s' e,
    next_step SURVEYS (scripted on_topic (reply (PStr "No") PNone)) opened_db "s1"
      SURVEY_ID (Some "no") = Ret (db', r)
    ∧ db' !! "s1" = Some s' ∧ last (history s') = Some e
    ∧ e_content e = r_message r ∧ e_question_id e = Some "Q3".
Proof.
  assert (∀ s, opened_db !! "s1" = Some s → session_id s = "s1" ∧ terminated s = false)
    as Hdb.
  { intros s Hs.
    assert (opened_db !! "s1" = Some opened_state) as Ho by (vm_compute; reflexivity).
    rewrite Ho in Hs. injection Hs as <-. split; reflexivity. }
  assert ((match next_step SURVEYS (scripted on_topic (reply (PStr "No") PNone))
                   opened_db "s1" SURVEY_ID (Some "no") with
           | Ret x => x.1 !! "s1" | Raise _ => None
           end) ≫= (λ s, Some (terminated s, current_question_id s))
          = Some (false, Some "Q3")) as Hv by (vm_compute; reflexivity).
  destruct (next_step SURVEYS (scripted on_topic (reply (PStr "No") PNone)) opened_db
              "s1" SURVEY_ID (Some "no")) as [[db' r]|err] eqn:Hn;
    [|exfalso; clear -Hv; cbn in Hv; discriminate Hv].
  destruct (X18_reply_is_recorded SURVEYS _ opened_db "s1" SURVEY_ID (Some "no") db' r
              Hdb Hn) as (s' & e & Hs' & Hl & _ & Hc & Hq).
  exists db', r, s', e. split; [reflexivity|]. split; [exact Hs'|].
  split; [exact Hl|]. split; [exact Hc|]. rewrite Hq.
  clear -Hv Hs'. cbn in Hv. rewrite Hs' in Hv. cbn in Hv.
  injection Hv as -> ->. reflexivity.
Defined.

(** ** The status table *)

Lemma fold_unasked_dom (qs : list question) : ∀ (m : gmap string status) i,
  is_Some (foldl (λ m q, <[q_id q := unasked]> m) m qs !! i) →
  is_Some (m !! i) ∨ i ∈ q_id <$> qs.
Proof.
  induction qs as [|a qs IH]; intros m i Hi; [by left|]. cbn in Hi |- *.
  apply IH in Hi as [Hi|Hi]; [|right; by apply elem_of_cons; right].
  destruct (decide (q_id a = i)) as [->|Hne]; [right; apply list_elem_of_here|].
  rewrite lookup_insert_ne in Hi by done. by left.
Qed.

Lemma initial_covers sid svid d :
  covers d (question_status (_initial_state sid svid d)).
Proof.
  intros i. split.
  - intros [H|H]%fold_unasked_dom; [|done].
    rewrite lookup_empty in H. by destruct H.
  - intros (q & -> & Hq)%list_elem_of_fmap.
    by rewrite (initial_status_mem sid svid d q Hq).
Qed.

(** A table that covers the definition still does after statuses have been
    overwritten and entries added for questions of the definition. *)
Lemma covers_step d st st' :
  covers d st → grows st st' →
  (∀ i, is_Some (st' !! i) → is_Some (st !! i) ∨ i ∈ q_id <$> questions d) →
  covers d st'.
Proof.
  intros Hc Hg Hn i. split.
  - intros [H|H]%Hn; [by apply Hc|done].
  - intros H%Hc. destruct (Hg i) as [->|[-> _]]; [done|eauto].
Qed.

Lemma covers_insert d st i x :
  covers d st → i ∈ q_id <$> questions d → covers d (<[i := x]> st).
Proof.
  intros Hc Hi j. destruct (decide (i = j)) as [->|Hne].
  - rewrite lookup_insert_eq. split; [done|eauto].
  - rewrite lookup_insert_ne by done. apply Hc.
Qed.

Lemma mark_covers d s :
  covers d (question_status s) →
  covers d (question_status (_mark_conditionally_skipped s d)).
Proof.
  intros Hc. apply (covers_step d (question_status s)); [done|apply mark_grows|].
  intros i Hi. left.
  destruct (mark_status_cases s d i) as [E|[E _]]; rewrite E in *; eauto.
Qed.

Lemma deterministic_next_question_covers d s :
  covers d (question_status s) →
  covers d (question_status (_deterministic_next_question s d).2).
Proof.
  intros Hc.
  apply (covers_step d (question_status s));
    [done|apply deterministic_next_question_grows|].
  intros i Hi. rewrite deterministic_next_question_eq in Hi. cbn in Hi.
  match type of Hi with context [scan_next ?a ?l ?st] =>
    destruct (scan_next_only_skips a l st i) as [E|(_ & _ & q & Hq & Hqi & _)]
  end.
  - rewrite E in Hi. left. by apply (mark_covers d s Hc), Hc in Hi.
  - right. subst i. apply list_elem_of_fmap_2. by eapply subseteq_drop.
Qed.

Lemma candidates_covers d s :
  covers d (question_status s) → covers d (question_status (candidates s d).2).
Proof.
  intros Hc.
  apply (covers_step d (question_status s)); [done|apply candidates_grows|].
  intros i Hi. destruct (candidates_changes s d i) as [E|(q & Hq & <- & _)].
  - rewrite E in Hi. left. by apply (mark_covers d s Hc), Hc in Hi.
  - right. by apply list_elem_of_fmap_2.
Qed.

Lemma question_map_id d c q :
  _get_question_map d !! c = Some q → c ∈ q_id <$> questions d ∧ q_id q = c.
Proof.
  intros [Hq <-]%question_map_Some. split; [|done]. by apply list_elem_of_fmap_2.
Qed.

Lemma begin_effect_covers d sid svid s' :
  begin_effect d sid svid s' → covers d (question_status s').
Proof.
  destruct 1 as [n Hn|nid q n Hn Hne Hq]; cbn.
  - apply deterministic_next_question_covers, initial_covers.
  - apply covers_insert; [|by apply question_map_id in Hq as [? _]].
    apply deterministic_next_question_covers, initial_covers.
Qed.

Lemma turn_effect_covers d s s' :
  covers d (question_status s) → turn_effect d s s' → covers d (question_status s').
Proof.
  intros Hc.
  assert (∀ c q m v, _get_question_map d !! c = Some q →
            covers d (question_status
              (candidates (_store_answer
                 (_append_history (_mark_conditionally_skipped s d) user m
                    (Some (q_id q))) q v) d).2)) as Hstored.
  { intros c q m v Hq. apply candidates_covers. cbn.
    apply covers_insert; [by apply mark_covers|].
    apply question_map_Some in Hq as [Hq _]. by apply list_elem_of_fmap_2. }
  destruct 1 as [|Hl|c q m text Hc' Hq|c q m raw v p Hc' Hq Hn stored Hch
                 |c q m raw v p nid nq text Hc' Hq Hn stored Hch Hne Hnq]; cbn.
  - by apply mark_covers.
  - by apply mark_covers.
  - by apply mark_covers.
  - by eapply Hstored.
  - apply covers_insert; [by eapply Hstored|].
    by apply question_map_id in Hnq as [? _].
Qed.

(** X19. In every state a session persists, the status table has an entry
    for each question of the definition and for nothing else: the engine
    neither loses a question's status nor records one for an id the
    definition does not have. *)
Theorem X19_statuses_cover_the_definition surveys sid svid d calls s i :
  surveys !! svid = Some d →
  exec_session surveys sid svid ∅ calls !! sid = Some s →
  is_Some (question_status s !! i) ↔ i ∈ q_id <$> questions d.
Proof.
  intros Hd Hs.
  pose proof (session_invariant (λ s, covers d (question_status s))
                surveys sid svid d Hd
                (begin_effect_covers d sid svid)
                (λ s0 s' H0 _ _ He, turn_effect_covers d s0 s' H0 He)
                calls ∅) as H.
  destruct (H ltac:(intros s0 H0; by rewrite lookup_empty in H0) s Hs) as [_ HI].
  apply HI.
Qed.

Lemma X19_statuses_cover_the_definition_witness :
  ∃ s, exec_session SURVEYS "s1" SURVEY_ID ∅ first_call !! "s1" = Some s
       ∧ (is_Some (question_status s !! "Q8")
          ↔ "Q8" ∈ q_id <$> questions CULTURE_DISCRIMINATION).
Proof.
  destruct (exec_session SURVEYS "s1" SURVEY_ID ∅ first_call !! "s1") as [s|] eqn:Hs;
    [|vm_compute in Hs; discriminate Hs].
  exists s. split; [reflexivity|].
  exact (X19_statuses_cover_the_definition SURVEYS "s1" SURVEY_ID
           CULTURE_DISCRIMINATION first_call s "Q8" eq_refl Hs).
Defined.

(** ** Ended sessions *)

Lemma begin_effect_none_asked d sid svid s' :
  begin_effect d sid svid s' → terminated s' = true → none_asked s'.
Proof.
  destruct 1 as [n Hn|nid q n Hn Hne Hq]; cbn.
  - intros _ i. apply (initial_no_asked sid svid d n.2 i).
    apply deterministic_next_question_grows.
  - destruct (deterministic_next_question_frame (_initial_state sid svid d) d)
      as (_ & _ & _ & _ & _ & Hf).
    fold n in Hf. rewrite Hf. done.
Qed.

Lemma turn_effect_none_asked d s s' :
  asked_is_current s → covers d (question_status s) → terminated s = false →
  turn_effect d s s' → terminated s' = true → none_asked s'.
Proof.
  intros Ha Hc Ht.
  destruct 1 as [|Hl|c q m text Hc' Hq|c q m raw v p Hc' Hq Hn stored Hch
                 |c q m raw v p nid nq text Hc' Hq Hn stored Hch Hne Hnq]; cbn.
  - congruence.
  - intros _ i Hi. eapply grows_asked in Hi; [|apply mark_grows].
    pose proof (Ha i Hi) as Hcur. rewrite Hcur in Hl. cbn in Hl.
    assert (is_Some (question_status s !! i)) as Hin by eauto.
    apply Hc in Hin as (q & -> & Hq)%list_elem_of_fmap.
    destruct (question_map_mem d q Hq) as [? E]. congruence.
  - congruence.
  - intros _ i Hi.
    eapply grows_asked in Hi; [|apply candidates_grows].
    apply store_answer_asked in Hi as [Hne Hi]. cbn in Hi.
    eapply grows_asked in Hi; [|apply mark_grows].
    apply Ha in Hi. apply question_map_Some in Hq as [_ <-]. congruence.
  - destruct (candidates_frame stored d) as (_ & _ & _ & _ & _ & Hf).
    rewrite Hf. cbn. congruence.
Qed.

(** X20. In a session that has ended, no question is left being asked:
    every status is [unasked], [answered] or [skipped] (though
    [current_question_id] may still name the last question). *)
Theorem X20_ended_session_asks_nothing surveys sid svid d calls s i :
  surveys !! svid = Some d →
  exec_session surveys sid svid ∅ calls !! sid = Some s →
  terminated s = true →
  question_status s !! i ≠ Some asked.
Proof.
  intros Hd Hs Ht.
  pose proof (session_invariant
                (λ s, asked_is_current s ∧ covers d (question_status s)
                      ∧ (terminated s = true → none_asked s))
                surveys sid svid d Hd) as H.
  destruct (H ltac:(intros s' He; split; [by eapply begin_effect_asked_is_current|];
                    split; [by eapply begin_effect_covers|];
                    by eapply begin_effect_none_asked)
              ltac:(intros s0 s' (Ha & Hc & _) _ Ht0 He;
                    split; [by eapply turn_effect_asked_is_current|];
                    split; [by eapply turn_effect_covers|];
                    by eapply turn_effect_none_asked)
              calls ∅ ltac:(intros s0 H0; by rewrite lookup_empty in H0) s Hs)
    as (_ & _ & _ & HI).
  by apply HI.
Qed.

Lemma X20_ended_session_asks_nothing_witness :
  ∃ s, exec_session SURVEYS "s1" SURVEY_ID ∅ finishing_calls !! "s1" = Some s
       ∧ terminated s = true ∧ question_status s !! "Q7" ≠ Some asked.
Proof.
  destruct (exec_session SURVEYS "s1" SURVEY_ID ∅ finishing_calls !! "s1")
    as [s|] eqn:Hs; [|vm_compute in Hs; discriminate Hs].
  assert (terminated <$> exec_session SURVEYS "s1" SURVEY_ID ∅ finishing_calls !! "s1"
          = Some true) as Ht by (vm_compute; reflexivity).
  rewrite Hs in Ht. cbn in Ht. injection Ht as Ht.
  exists s. split; [reflexivity|]. split; [exact Ht|].
  exact (X20_ended_session_asks_nothing SURVEYS "s1" SURVEY_ID CULTURE_DISCRIMINATION
           finishing_calls s "Q7" eq_refl Hs Ht).
Defined.

(** ** When a session ends *)

Lemma scan_next_exhausted ans qs : ∀ st,
  (scan_next ans qs st).1 = None →
  ∀ q, q ∈ qs → status_closed ((scan_next ans qs st).2 !! q_id q) = true.
Proof.
  induction qs as [|a qs IH]; intros st H q Hq; [by apply elem_of_nil in Hq|].
  cbn [scan_next] in *.
  destruct (status_closed (st !! q_id a)) eqn:C.
  - apply elem_of_cons in Hq as [->|Hq]; [|by apply IH].
    rewrite (grows_closed st _ (q_id a)); [done| |done].
    eapply only_skips_grows, scan_next_only_skips.
  - destruct (_is_condition_met a ans); cbn [negb] in *; [done|].
    apply elem_of_cons in Hq as [->|Hq]; [|by apply IH].
    rewrite (grows_closed (<[q_id a := skipped]> st) _ (q_id a)).
    + by rewrite lookup_insert_eq.
    + eapply only_skips_grows, scan_next_only_skips.
    + by rewrite lookup_insert_eq.
Qed.

(** With no empty id in the definition, the choice is falsy only when the
    policy has no candidate. *)
Lemma choose_next_falsy d s p :
  Forall (λ q, q_id q ≠ "") (questions d) →
  id_truthy (choose_next p (candidates s d).1.1 (candidates s d).1.2) = false →
  (candidates s d).1.2 = None.
Proof.
  intros Hne H. rewrite Forall_forall in Hne.
  destruct (choose_next p _ _) as [i|] eqn:E.
  - cbn in H. apply negb_false_iff, String.eqb_eq in H as ->. exfalso.
    apply choose_next_Some in E as [[_ Hi]|[_ Hi]].
    + apply candidates_allowed_mem in Hi as (q & Hq & Hi). by eapply Hne.
    + apply candidates_next_mem in Hi as (q & Hq & Hi & _).
      eapply Hne; [|exact Hi]. by eapply subseteq_drop.
  - unfold choose_next in E. destruct (py_in p _) eqn:P; [|done].
    by apply py_in_true in P as (j & -> & _).
Qed.

(** X21. When a turn ends a session whose current question stands at
    position [k] of a definition without empty ids, every question after
    position [k] is answered or skipped in the state saved: the engine ends
    a session only when nothing ahead of the current question is open. *)
Theorem X21_ends_with_nothing_ahead surveys ag db sid svid d s m c k db' r s' q' :
  surveys !! svid = Some d → Forall (λ q, q_id q ≠ "") (questions d) →
  db !! sid = Some s → session_id s = sid → terminated s = false →
  current_question_id s = Some c → index_of c (q_id <$> questions d) = Some k →
  next_step surveys ag db sid svid m = Ret (db', r) →
  db' !! sid = Some s' → terminated s' = true →
  q' ∈ drop (S k) (questions d) →
  status_closed (question_status s' !! q_id q') = true.
Proof.
  intros Hd Hne Hs Hid Ht Hc Hk Hn Hs' Ht' Hq'.
  pose proof (next_step_effect surveys ag db sid svid d s m Hd Hs Hid) as He.
  rewrite Hn in He. destruct He as [_ [(Hx & _)|(_ & s2 & -> & He)]]; [congruence|].
  rewrite lookup_insert_eq in Hs'. injection Hs' as <-.
  destruct He as [|Hl|c0 q m0 text Hc0 Hq|c0 q m0 raw v p Hc0 Hq Hnorm stored Hch
                  |c0 q m0 raw v p nid nq text Hc0 Hq Hnorm stored Hch Hnid Hnq];
    cbn in Ht'.
  - congruence.
  - exfalso. rewrite Hc in Hl. cbn in Hl.
    apply index_of_lookup, list_elem_of_lookup_2 in Hk.
    apply list_elem_of_fmap in Hk as (q & -> & Hq).
    destruct (question_map_mem d q Hq) as [? E]. congruence.
  - congruence.
  - apply (choose_next_falsy d stored p Hne) in Hch. cbn.
    rewrite candidates_eq in Hch |- *. cbn [fst snd] in Hch |- *.
    rewrite deterministic_next_question_eq in Hch |- *. cbn [fst snd] in Hch |- *.
    cbn [question_status with_question_status].
    apply scan_next_exhausted; [exact Hch|].
    unfold scan_start.
    destruct (eligible_questions_frame stored d) as (_ & _ & _ & -> & _).
    cbn. rewrite Hc, Hk. exact Hq'.
  - destruct (candidates_frame stored d) as (_ & _ & _ & _ & _ & Hf).
    rewrite Hf in Ht'. cbn in Ht'. congruence.
Qed.

Lemma X21_ends_with_nothing_ahead_witness :
  ∃ s', (match next_step SURVEYS (scripted on_topic (reply (PStr "Yes") PNone))
                 jumped_db "s1" SURVEY_ID (Some "Yes") with
         | Ret x => x.1 !! "s1" | Raise _ => None
         end) = Some s'
        ∧ terminated s' = true
        ∧ status_closed (question_status s' !! "Q7") = true.
Proof.
  assert ((jumped_db !! "s1")
          ≫= (λ s, Some (session_id s, terminated s, current_question_id s))
          = Some ("s1", false, Some "Q6")) as Hv0 by (vm_compute; reflexivity).
  assert ((match next_step SURVEYS (scripted on_topic (reply (PStr "Yes") PNone))
                   jumped_db "s1" SURVEY_ID (Some "Yes") with
           | Ret x => x.1 !! "s1" | Raise _ => None
           end) ≫= (λ s, Some (terminated s)) = Some true) as Hv
    by (vm_compute; reflexivity).
  destruct (jumped_db !! "s1") as [s|] eqn:Hs; [|discriminate Hv0].
  cbn in Hv0. injection Hv0 as Hid Ht Hc.
  destruct (next_step SURVEYS (scripted on_topic (reply (PStr "Yes") PNone))
              jumped_db "s1" SURVEY_ID (Some "Yes")) as [[db' r]|err] eqn:Hn;
    [|discriminate Hv].
  cbn [fst] in Hv |- *.
  destruct (db' !! "s1") as [s'|] eqn:Hs'; [|discriminate Hv].
  cbn in Hv. injection Hv as Ht'.
  exists s'. split; [reflexivity|]. split; [exact Ht'|].
  exact (X21_ends_with_nothing_ahead SURVEYS _ jumped_db "s1" SURVEY_ID
           CULTURE_DISCRIMINATION s (Some "Yes") "Q6" 5 db' r s' Q7
           eq_refl (proj2 shipped_survey_wf) Hs Hid Ht Hc eq_refl Hn Hs' Ht'
           ltac:(apply list_elem_of_here)).
Defined.

(** ** Progress *)

Lemma filter_length_le {A} (P Q : A → Prop) `{!∀ x, Decision (P x)}
    `{!∀ x, Decision (Q x)} (l : list A) :
  (∀ x, x ∈ l → P x → Q x) → (length (filter P l) ≤ length (filter Q l))%nat.
Proof.
  induction l as [|a l IH]; intros Himp; [done|].
  assert (length (filter P l) ≤ length (filter Q l))%nat as IH'.
  { apply IH. intros x Hx. apply Himp. by right. }
  rewrite !filter_cons.
  destruct (decide (P a)) as [Hp|Hp], (decide (Q a)) as [Hq|Hq]; cbn; try lia.
  exfalso. apply Hq, Himp; [by left|done].
Qed.

Lemma filter_length_lt {A} (P Q : A → Prop) `{!∀ x, Decision (P x)}
    `{!∀ x, Decision (Q x)} (l : list A) x0 :
  (∀ x, x ∈ l → P x → Q x) → x0 ∈ l → Q x0 → ¬ P x0 →
  (length (filter P l) < length (filter Q l))%nat.
Proof.
  induction l as [|a l IH]; intros Himp Hx0 Hq0 Hp0; [by apply elem_of_nil in Hx0|].
  assert (length (filter P l) ≤ length (filter Q l))%nat as Hle.
  { apply filter_length_le. intros x Hx. apply Himp. by right. }
  rewrite !filter_cons. apply elem_of_cons in Hx0 as [<-|Hx0].
  - destruct (decide (P x0)) as [Hp|Hp]; [done|].
    destruct (decide (Q x0)) as [Hq|Hq]; [cbn; lia|done].
  - assert (length (filter P l) < length (filter Q l))%nat as IH'.
    { apply IH; try done. intros x Hx. apply Himp. by right. }
    destruct (decide (P a)) as [Hp|Hp], (decide (Q a)) as [Hq|Hq]; cbn; try lia.
    exfalso. apply Hq, Himp; [by left|done].
Qed.

Lemma begin_effect_current_resolves d sid svid s' :
  begin_effect d sid svid s' → current_resolves d s'.
Proof.
  destruct 1 as [n Hn|nid q n Hn Hne Hq]; intros Ht; cbn in *; [done|eauto].
Qed.

Lemma turn_effect_current_resolves d s s' :
  current_resolves d s → turn_effect d s s' → current_resolves d s'.
Proof.
  intros Hs.
  destruct 1 as [|Hl|c q m text Hc Hq|c q m raw v p Hc Hq Hn stored Hch
                 |c q m raw v p nid nq text Hc Hq Hn stored Hch Hne Hnq];
    intros Ht; cbn in *; try done; eauto.
Qed.

(** X22. In a running session of a survey with distinct question ids, a
    turn either leaves the answers and the current question as they were
    and the session running, or strictly lowers the number of open
    questions (those neither answered nor skipped); it never raises that
    number. *)
Theorem X22_turn_makes_progress surveys sid svid d calls ag m s db' r s' :
  surveys !! svid = Some d → NoDup (q_id <$> questions d) →
  let db := exec_session surveys sid svid ∅ calls in
  db !! sid = Some s → terminated s = false →
  next_step surveys ag db sid svid m = Ret (db', r) → db' !! sid = Some s' →
  (answers s' = answers s ∧ current_question_id s' = current_question_id s
   ∧ terminated s' = false ∧ (open_count d s' ≤ open_count d s)%nat)
  ∨ (open_count d s' < open_count d s)%nat.
Proof.
  intros Hd Hnd db Hs Ht Hn Hs'.
  pose proof (session_invariant (λ s, current_asked s ∧ current_resolves d s)
                surveys sid svid d Hd) as H.
  destruct (H ltac:(intros s0 He; split;
                    [by eapply begin_effect_current_asked
                    |by eapply begin_effect_current_resolves])
              ltac:(intros s0 s1 [Ha Hr] _ _ He; split;
                    [by eapply turn_effect_current_asked
                    |by eapply turn_effect_current_resolves])
              calls ∅ ltac:(intros s0 H0; by rewrite lookup_empty in H0) s Hs)
    as (Hid & Hca & Hcr).
  clear H.
  pose proof (next_step_effect surveys ag db sid svid d s m Hd Hs Hid) as He.
  rewrite Hn in He. destruct He as [_ [(Hx & _)|(_ & s2 & -> & He)]]; [congruence|].
  rewrite lookup_insert_eq in Hs'. injection Hs' as <-.
  assert (∀ q, q ∈ questions d →
            status_closed (question_status s2 !! q_id q) = false →
            status_closed (question_status s !! q_id q) = false) as Hmono.
  { intros q _ Hq. destruct (status_closed (question_status s !! q_id q)) eqn:C; [|done].
    rewrite (turn_effect_closed d s s2 (q_id q) Hnd Hca Ht He C) in Hq. congruence. }
  assert (open_count d s2 ≤ open_count d s)%nat as Hle
    by (by apply filter_length_le).
  assert (∀ c q, current_question_id s = Some c → _get_question_map d !! c = Some q →
            status_closed (question_status s2 !! q_id q) = true →
            (open_count d s2 < open_count d s)%nat) as Hlt.
  { intros c q Hc [Hq <-]%question_map_Some Hcl.
    apply (filter_length_lt _ _ _ q); [done|done| |congruence].
    by rewrite (Hca Ht _ Hc). }
  destruct He as [|Hl|c q m0 text Hc Hq|c q m0 raw v p Hc Hq Hnorm stored Hch
                  |c q m0 raw v p nid nq text Hc Hq Hnorm stored Hch Hne Hnq].
  - by left.
  - exfalso. destruct (Hcr Ht) as (c & q & Hc & Hq). rewrite Hc in Hl. cbn in Hl.
    congruence.
  - by left.
  - right. apply (Hlt c q Hc Hq). cbn.
    rewrite (grows_closed (question_status stored)); [apply store_answer_closed| |].
    + apply candidates_grows.
    + apply store_answer_closed.
  - right. apply (Hlt c q Hc Hq). cbn.
    pose proof (store_answer_closed
                  (_append_history (_mark_conditionally_skipped s d) user m0
                     (Some (q_id q))) q v) as Hcl.
    fold stored in Hcl.
    pose proof (grows_closed _ _ _ (candidates_grows stored d) Hcl) as Heq.
    pose proof (chosen_not_closed stored d p nid Hnd Hch) as Hnc.
    rewrite lookup_insert_ne; [by rewrite Heq|].
    intros ->. rewrite Heq in Hnc. congruence.
Qed.

Lemma X22_turn_makes_progress_witness :
  ∃ s s',
    exec_session SURVEYS "s1" SURVEY_ID ∅ first_call !! "s1" = Some s
    ∧ terminated s = false
    ∧ (match next_step SURVEYS (scripted on_topic (reply (PStr "No") PNone))
               (exec_session SURVEYS "s1" SURVEY_ID ∅ first_call) "s1" SURVEY_ID
               (Some "No") with
       | Ret x => x.1 !! "s1" | Raise _ => None
       end) = Some s'
    ∧ ((answers s' = answers s ∧ current_question_id s' = current_question_id s
        ∧ terminated s' = false
        ∧ (open_count CULTURE_DISCRIMINATION s'
           ≤ open_count CULTURE_DISCRIMINATION s)%nat)
       ∨ (open_count CULTURE_DISCRIMINATION s'
          < open_count CULTURE_DISCRIMINATION s)%nat).
Proof.
  assert (terminated <$> exec_session SURVEYS "s1" SURVEY_ID ∅ first_call !! "s1"
          = Some false) as Hv0 by (vm_compute; reflexivity).
  assert (is_Some (match next_step SURVEYS (scripted on_topic (reply (PStr "No") PNone))
                   (exec_session SURVEYS "s1" SURVEY_ID ∅ first_call) "s1" SURVEY_ID
                   (Some "No") with
           | Ret x => x.1 !! "s1" | Raise _ => None
           end)) as Hv by (vm_compute; eexists; reflexivity).
  destruct (exec_session SURVEYS "s1" SURVEY_ID ∅ first_call !! "s1") as [s|] eqn:Hs;
    [|discriminate Hv0].
  cbn in Hv0. injection Hv0 as Ht.
  destruct (next_step SURVEYS (scripted on_topic (reply (PStr "No") PNone))
              (exec_session SURVEYS "s1" SURVEY_ID ∅ first_call) "s1" SURVEY_ID
              (Some "No")) as [[db' r]|err] eqn:Hn;
    [|exfalso; clear -Hv; by destruct Hv].
  cbn [fst] in Hv |- *. destruct Hv as [s' Hs'].
  exists s, s'. split; [reflexivity|]. split; [exact Ht|]. split; [exact Hs'|].
  exact (X22_turn_makes_progress SURVEYS "s1" SURVEY_ID CULTURE_DISCRIMINATION
           first_call _ (Some "No") s db' r s' eq_refl (proj1 shipped_survey_wf)
           Hs Ht Hn Hs').
Defined.
